(** * simsym: a shallow embedding of the symbolic execution engine

    The development follows [simsym.py].  Python objects with identity
    (compound dictionaries, lvalue cells, Model objects) live in an
    explicit store; the getter/setter closures of lvalues are represented
    by the data they capture; exceptions are an outcome of a state and
    error monad; the SMT solver is an oracle over the solver object. *)

From Stdlib Require Import ZArith Lia.
From stdpp Require Import base list strings pretty.

Open Scope string_scope.
Open Scope list_scope.

(** ** Z3 sorts and expressions *)

Module Z3.

Inductive sort :=
| BoolSort
| IntSort
| RealSort
| DeclareSort (name : string)
| EnumSort (name : string) (vals : list string)
| ArraySort (dom rng : sort).

#[warnings="-register-all"]
Inductive expr :=
| Const (name : string) (s : sort)
| IntVal (n : Z)
| BoolVal (b : bool)
| UVal (s : string) (i : nat)
| EnumVal (name : string) (vals : list string) (i : nat)
| Not (a : expr)
| And (l : list expr)
| Or (l : list expr)
| Implies (a b : expr)
| Eq (a b : expr)
| Select (a i : expr)
| Store (a i v : expr)
| K (dom : sort) (v : expr)
| ForAll (vars : list expr) (body : expr) (patterns : list expr)
| Exists (vars : list expr) (body : expr) (patterns : list expr).

Fixpoint sort_of (e : expr) : sort :=
  match e with
  | Const _ s => s
  | IntVal _ => IntSort
  | BoolVal _ => BoolSort
  | UVal s _ => DeclareSort s
  | EnumVal n vs _ => EnumSort n vs
  | Not _ | And _ | Or _ | Implies _ _ | Eq _ _ => BoolSort
  | Select a _ =>
      match sort_of a with
      | ArraySort _ r => r
      | s => s
      end
  | Store a _ _ => sort_of a
  | K d v => ArraySort d (sort_of v)
  | ForAll _ _ _ | Exists _ _ _ => BoolSort
  end.

(** The Python class of the reference object z3py returns for an
    expression is determined by its sort. *)
Inductive ref_type := ExprRef | ArithRef | BoolRef | ArrayRef | DatatypeRef.

Definition ref_of_sort (s : sort) : ref_type :=
  match s with
  | BoolSort => BoolRef
  | IntSort | RealSort => ArithRef
  | DeclareSort _ => ExprRef
  | EnumSort _ _ => DatatypeRef
  | ArraySort _ _ => ArrayRef
  end.

Definition ref_type_eqb (a b : ref_type) : bool :=
  match a, b with
  | ExprRef, ExprRef | ArithRef, ArithRef | BoolRef, BoolRef
  | ArrayRef, ArrayRef | DatatypeRef, DatatypeRef => true
  | _, _ => false
  end.

(** [isinstance(e, r)]: every reference class derives from [ExprRef]. *)
Definition isinstance_ref (e : expr) (r : ref_type) : bool :=
  match r with
  | ExprRef => true
  | _ => ref_type_eqb (ref_of_sort (sort_of e)) r
  end.

Definition is_int (e : expr) : bool :=
  match sort_of e with IntSort => true | _ => false end.

Definition is_int_value (e : expr) : bool :=
  match e with IntVal _ => true | _ => false end.

Definition is_true (e : expr) : bool :=
  match e with BoolVal true => true | _ => false end.

Definition is_false (e : expr) : bool :=
  match e with BoolVal false => true | _ => false end.

Definition is_uninterpreted_sort (s : sort) : bool :=
  match s with DeclareSort _ => true | _ => false end.

Fixpoint sort_eqb (a b : sort) : bool :=
  match a, b with
  | BoolSort, BoolSort | IntSort, IntSort | RealSort, RealSort => true
  | DeclareSort n, DeclareSort m => String.eqb n m
  | EnumSort n vs, EnumSort m ws =>
      String.eqb n m && bool_decide (vs = ws)
  | ArraySort d r, ArraySort d' r' => sort_eqb d d' && sort_eqb r r'
  | _, _ => false
  end.

Inductive check_result := sat | unsat | unknown.

Definition check_result_eqb (a b : check_result) : bool :=
  match a, b with
  | sat, sat | unsat, unsat | unknown, unknown => true
  | _, _ => false
  end.

(** A solver object: the assertions in the order they were added, the
    assertion counts remembered by [push], and the calls made on it. *)
Inductive solver_op := OpPush | OpPop | OpAdd (e : expr) | OpCheck.

Record Solver := mkSolver {
  assertions : list expr;
  scopes : list nat;
  calls : list solver_op
}.

Definition new_Solver : Solver := mkSolver [] [] [].

Definition push (s : Solver) : Solver :=
  mkSolver (assertions s) (length (assertions s) :: scopes s)
           (calls s ++ [OpPush]).

Definition pop (s : Solver) : Solver :=
  match scopes s with
  | n :: rest => mkSolver (take n (assertions s)) rest (calls s ++ [OpPop])
  | [] => mkSolver (assertions s) [] (calls s ++ [OpPop])
  end.

Definition add (e : expr) (s : Solver) : Solver :=
  mkSolver (assertions s ++ [e]) (scopes s) (calls s ++ [OpAdd e]).

Definition add_all (es : list expr) (s : Solver) : Solver :=
  foldl (fun acc e => add e acc) s es.

Definition note_check (s : Solver) : Solver :=
  mkSolver (assertions s) (scopes s) (calls s ++ [OpCheck]).

Definition is_check (o : solver_op) : bool :=
  match o with OpCheck => true | _ => false end.

Definition count_checks (ops : list solver_op) : nat :=
  length (List.filter is_check ops).

End Z3.

Export Z3.

(** ** Symbolic types

    The classes produced by [tuninterpreted], [tenum], [tconstmap],
    [tmap], [tstruct] and [tsynonym], next to the fixed ones.  A class is
    identified by its construction: a term of [cls] stands for the class
    object one call of a factory returned, and a program is taken to call
    a factory once for each class it uses.  Python makes a new class at
    every call, also with the same arguments; two such classes are one
    term here, so [issubclass] below holds between them where Python's
    does not. *)

#[warnings="-register-all"]
Inductive cls :=
| SExpr
| SArith
| SInt
| SBool
| SUninterpreted (name : string)
| SEnum (name : string) (vals : list string)
| SConstMap (indexType valueType : cls)
| SMap (indexType valueType : cls)
| SStruct (fields : list (string * cls))
| SSynonym (name : string) (baseType : cls).

Fixpoint cls_eqb (a b : cls) : bool :=
  match a, b with
  | SExpr, SExpr | SArith, SArith | SInt, SInt | SBool, SBool => true
  | SUninterpreted n, SUninterpreted m => String.eqb n m
  | SEnum n vs, SEnum m ws => String.eqb n m && bool_decide (vs = ws)
  | SConstMap i v, SConstMap i' v' => cls_eqb i i' && cls_eqb v v'
  | SMap i v, SMap i' v' => cls_eqb i i' && cls_eqb v v'
  | SStruct fs, SStruct gs =>
      (fix go (fs gs : list (string * cls)) : bool :=
         match fs, gs with
         | [], [] => true
         | (n, c) :: fs', (m, d) :: gs' =>
             String.eqb n m && cls_eqb c d && go fs' gs'
         | _, _ => false
         end) fs gs
  | SSynonym n c, SSynonym m d => String.eqb n m && cls_eqb c d
  | _, _ => false
  end.

(** [issubclass(c, d)]: a synonym derives from its base type. *)
Fixpoint issubclass (c d : cls) : bool :=
  cls_eqb c d ||
  match c with
  | SSynonym _ b => issubclass b d
  | _ => false
  end.

(** The class a synonym chain ends in. *)
Fixpoint base_class (c : cls) : cls :=
  match c with
  | SSynonym _ b => base_class b
  | _ => c
  end.

Definition is_SymbolicConst (c : cls) : bool :=
  match base_class c with
  | SInt | SBool | SUninterpreted _ | SEnum _ _ | SConstMap _ _ => true
  | _ => false
  end.

Definition is_SStructBase (c : cls) : bool :=
  match base_class c with SStruct _ => true | _ => false end.

Definition is_SMapBase (c : cls) : bool :=
  match base_class c with SMap _ _ => true | _ => false end.

(** [__ref_type__] and [__pass_type__] of the wrapper classes. *)
Definition ref_type_of (c : cls) : option ref_type :=
  match base_class c with
  | SExpr | SUninterpreted _ => Some ExprRef
  | SArith | SInt => Some ArithRef
  | SBool => Some BoolRef
  | SEnum _ _ => Some DatatypeRef
  | SConstMap _ _ => Some ArrayRef
  | _ => None
  end.

Inductive pass_type := PassInt | PassBool.

Definition pass_type_of (c : cls) : option pass_type :=
  match base_class c with
  | SInt => Some PassInt
  | SBool => Some PassBool
  | _ => None
  end.

Definition fields_of (c : cls) : option (list (string * cls)) :=
  match base_class c with
  | SStruct fs => Some fs
  | _ => None
  end.

(** A compound sort: a Z3 sort, or a dictionary of compound sorts. *)
#[warnings="-register-all"]
Inductive csort :=
| SortLeaf (s : sort)
| SortDict (d : list (string * csort)).

Fixpoint csort_map (f : sort -> sort) (s : csort) : csort :=
  match s with
  | SortLeaf z => SortLeaf (f z)
  | SortDict d =>
      SortDict ((fix go (d : list (string * csort)) :=
                   match d with
                   | [] => []
                   | (k, v) :: d' => (k, csort_map f v) :: go d'
                   end) d)
  end.

(** [__z3_sort__], as the factory functions compute it; [None] where the
    factory raises or the class has no such field. *)
Fixpoint _z3_sort (c : cls) : option csort :=
  match c with
  | SExpr | SArith => None
  | SInt => Some (SortLeaf IntSort)
  | SBool => Some (SortLeaf BoolSort)
  | SUninterpreted n => Some (SortLeaf (DeclareSort n))
  | SEnum n vs => Some (SortLeaf (EnumSort n vs))
  | SConstMap i v =>
      match _z3_sort i, _z3_sort v with
      | Some (SortLeaf si), Some (SortLeaf sv) =>
          Some (SortLeaf (ArraySort si sv))
      | _, _ => None
      end
  | SMap i v =>
      match _z3_sort i, _z3_sort v with
      | Some (SortLeaf si), Some sv => Some (csort_map (ArraySort si) sv)
      | _, _ => None
      end
  | SStruct fs =>
      option_map SortDict
        ((fix go (fs : list (string * cls)) : option (list (string * csort)) :=
            match fs with
            | [] => Some []
            | (k, t) :: fs' =>
                match _z3_sort t, go fs' with
                | Some s, Some r => Some ((k, s) :: r)
                | _, _ => None
                end
            end) fs)
  | SSynonym _ b => _z3_sort b
  end.

(** ** Python values

    [VInt] is a Python [int]; [long] and [float] values are outside the
    model. *)

#[warnings="-register-all"]
Inductive value :=
| VNone
| VNotImplemented
| VBool (b : bool)
| VInt (n : Z)
| VStr (s : string)
| VTuple (l : list value)
| VZ3 (e : expr)
| VSym (c : cls) (e : expr)
| VLval (o : lval)
| VDict (l : nat)
with lval :=
| Lval (c : cls) (h : handle) (model : option nat)
with handle :=
| HCell (i : nat)
| HField (self : lval) (name : string)
| HIndex (self : lval) (idx : value) (z3idx : value).

Definition lval_cls (o : lval) : cls := let 'Lval c _ _ := o in c.
Definition lval_handle (o : lval) : handle := let 'Lval _ h _ := o in h.
Definition lval_model (o : lval) : option nat := let 'Lval _ _ m := o in m.

(** [isinstance(v, Symbolic)] *)
Definition is_Symbolic (v : value) : bool :=
  match v with
  | VSym _ _ | VLval _ => true
  | _ => false
  end.

(** [isinstance(v, z3.ExprRef)] *)
Definition is_ExprRef (v : value) : bool :=
  match v with VZ3 _ => true | _ => false end.

(** ** Exceptions *)

Inductive exn :=
| UnsatisfiablePath
| UncheckableConstraintError (e : expr) (reason : string)
| RuntimeError (msg : string)
| TypeError (msg : string)
| AttributeError (msg : string)
| ValueError (msg : string)
| KeyError (key : string)
| IndexError
| AssertionError
| NotImplementedError (msg : string)
| Z3Exception (msg : string)
| Exception (msg : string)
| InSymbolicState (e : exn) (state : option (list expr)).

(** ** Schedules and the execution graph *)

Inductive choice :=
| Choice (b : bool)
| NoChoice
| Uncheckable (e : expr) (reason : string).

Definition sched_entry : Type := choice * nat.
Definition schedule : Type := list sched_entry.

Inductive label_part :=
| LValue (v : value)
| LText (s : string)
| LCaller
| LException (e : exn).

Record GraphNode := mkGraphNode {
  _label : list label_part;
  _color : string
}.

Record Graph := mkGraph {
  nodes : list GraphNode;
  edges : list (nat * nat * string)
}.

Definition new_GraphNode : GraphNode := mkGraphNode [LText "?"] "black".
Definition new_Graph : Graph := mkGraph [] [].

(** ** The global state of the engine *)

(** Constructors recorded in [var_constructors]: the bound class method
    [cls.var], or the closure [SStructBase.var] records together with its
    snapshot of the field values. *)
Inductive ctor :=
| CtorVar (c : cls)
| CtorStructVar (c : cls) (name : string)
                (fieldsSnapshot : list (string * value)).

Record Model := mkModel {
  m_var_constructors : list (string * ctor);
  z3_model : expr -> expr;
  track : bool;
  asignments : list (value * value)
}.

Record SymbolicApplyResult := mkSymbolicApplyResult {
  sar_value : value;
  path_condition_list : list value;
  sar_var_constructors : list (string * ctor);
  sar_const_types : list (string * (cls * list string))
}.

(** A Python dictionary is the list of its items in iteration order,
    which for a CPython 2 dictionary is the order of its hash slots and
    not the order of insertion: the fields of a struct class, and the
    keyword arguments of a call, are given here in the order the
    dictionary holding them iterates.  A dictionary built by iterating
    over another with the same keys (as [compound_map] and [mkValue] do)
    is taken to iterate in the same order as that one, which holds unless
    keys collide in the hash table. *)
Definition dict : Type := list (string * value).

Record State := mkState {
  solver : option Solver;
  schedq : list schedule;
  curgraph : Graph;
  cursched : schedule;
  curschedidx : nat;
  var_constructors : list (string * ctor);
  constTypes : list (string * (cls * list string));
  anon_idx : nat;
  dicts : list dict;
  cells : list value;
  models : list Model;
  stdout : list exn;
  shown : nat
}.

Definition set_solver (x : option Solver) (s : State) : State :=
  mkState x (schedq s) (curgraph s) (cursched s) (curschedidx s)
    (var_constructors s) (constTypes s) (anon_idx s) (dicts s) (cells s)
    (models s) (stdout s) (shown s).
Definition set_schedq (x : list schedule) (s : State) : State :=
  mkState (solver s) x (curgraph s) (cursched s) (curschedidx s)
    (var_constructors s) (constTypes s) (anon_idx s) (dicts s) (cells s)
    (models s) (stdout s) (shown s).
Definition set_curgraph (x : Graph) (s : State) : State :=
  mkState (solver s) (schedq s) x (cursched s) (curschedidx s)
    (var_constructors s) (constTypes s) (anon_idx s) (dicts s) (cells s)
    (models s) (stdout s) (shown s).
Definition set_cursched (x : schedule) (s : State) : State :=
  mkState (solver s) (schedq s) (curgraph s) x (curschedidx s)
    (var_constructors s) (constTypes s) (anon_idx s) (dicts s) (cells s)
    (models s) (stdout s) (shown s).
Definition set_curschedidx (x : nat) (s : State) : State :=
  mkState (solver s) (schedq s) (curgraph s) (cursched s) x
    (var_constructors s) (constTypes s) (anon_idx s) (dicts s) (cells s)
    (models s) (stdout s) (shown s).
Definition set_var_constructors (x : list (string * ctor)) (s : State) : State :=
  mkState (solver s) (schedq s) (curgraph s) (cursched s) (curschedidx s)
    x (constTypes s) (anon_idx s) (dicts s) (cells s)
    (models s) (stdout s) (shown s).
Definition set_constTypes (x : list (string * (cls * list string)))
    (s : State) : State :=
  mkState (solver s) (schedq s) (curgraph s) (cursched s) (curschedidx s)
    (var_constructors s) x (anon_idx s) (dicts s) (cells s)
    (models s) (stdout s) (shown s).
Definition set_anon_idx (x : nat) (s : State) : State :=
  mkState (solver s) (schedq s) (curgraph s) (cursched s) (curschedidx s)
    (var_constructors s) (constTypes s) x (dicts s) (cells s)
    (models s) (stdout s) (shown s).
Definition set_dicts (x : list dict) (s : State) : State :=
  mkState (solver s) (schedq s) (curgraph s) (cursched s) (curschedidx s)
    (var_constructors s) (constTypes s) (anon_idx s) x (cells s)
    (models s) (stdout s) (shown s).
Definition set_cells (x : list value) (s : State) : State :=
  mkState (solver s) (schedq s) (curgraph s) (cursched s) (curschedidx s)
    (var_constructors s) (constTypes s) (anon_idx s) (dicts s) x
    (models s) (stdout s) (shown s).
Definition set_models (x : list Model) (s : State) : State :=
  mkState (solver s) (schedq s) (curgraph s) (cursched s) (curschedidx s)
    (var_constructors s) (constTypes s) (anon_idx s) (dicts s) (cells s)
    x (stdout s) (shown s).
Definition set_stdout (x : list exn) (s : State) : State :=
  mkState (solver s) (schedq s) (curgraph s) (cursched s) (curschedidx s)
    (var_constructors s) (constTypes s) (anon_idx s) (dicts s) (cells s)
    (models s) x (shown s).
Definition set_shown (x : nat) (s : State) : State :=
  mkState (solver s) (schedq s) (curgraph s) (cursched s) (curschedidx s)
    (var_constructors s) (constTypes s) (anon_idx s) (dicts s) (cells s)
    (models s) (stdout s) x.

(** The state once the module is imported: the module-level initial
    values, and the entries [SInt.var('__dummy')], evaluated for
    [internal_vars], has left in the two name tables.  The graph, the
    schedule and its index are [None] until [symbolic_apply] and the loop
    assign them; they stand here as the empty graph, the empty schedule
    and 0. *)
Definition initial_State : State :=
  mkState None [] new_Graph [] 0
    [("__dummy", CtorVar SInt)] [("__dummy", (SInt, []))]
    0 [] [] [] [] 0.

(** ** The monad of effects: global state and exceptions *)

Inductive outcome (A : Type) :=
| Ret (a : A)
| Raise (e : exn).
Arguments Ret {A} a.
Arguments Raise {A} e.

Definition M (A : Type) : Type := State -> outcome A * State.

Definition ret {A} (a : A) : M A := fun s => (Ret a, s).
Definition raise {A} (e : exn) : M A := fun s => (Raise e, s).
Definition bind {A B} (m : M A) (k : A -> M B) : M B :=
  fun s =>
    match m s with
    | (Ret a, s') => k a s'
    | (Raise e, s') => (Raise e, s')
    end.
Definition gets {A} (f : State -> A) : M A := fun s => (Ret (f s), s).
Definition modify (f : State -> State) : M unit := fun s => (Ret tt, f s).

Notation "'let*' x ':=' m 'in' k" := (bind m (fun x => k))
  (at level 10, x name, m at level 200, k at level 200, only parsing).
Notation "m ';;;' k" := (bind m (fun _ => k))
  (at level 100, k at level 200, right associativity, only parsing).

(** Monadic map over a list, left to right. *)
Fixpoint mapM {A B} (f : A -> M B) (l : list A) : M (list B) :=
  match l with
  | [] => ret []
  | x :: l' => let* y := f x in let* ys := mapM f l' in ret (y :: ys)
  end.

(** ** Dictionaries and cells *)

Definition recursion_limit : nat := 1000.

Fixpoint dict_get (d : dict) (k : string) : option value :=
  match d with
  | [] => None
  | (k', v) :: d' => if String.eqb k' k then Some v else dict_get d' k
  end.

(** [d[k] = v] on the dictionary itself: an existing key keeps its place
    in the iteration order, a new key comes last. *)
Fixpoint dict_set (d : dict) (k : string) (v : value) : dict :=
  match d with
  | [] => [(k, v)]
  | (k', v') :: d' =>
      if String.eqb k' k then (k', v) :: d' else (k', v') :: dict_set d' k v
  end.

Definition new_dict (d : dict) : M value :=
  fun s => (Ret (VDict (length (dicts s))), set_dicts (dicts s ++ [d]) s).

Definition read_dict (l : nat) : M dict :=
  fun s =>
    match dicts s !! l with
    | Some d => (Ret d, s)
    | None => (Raise (RuntimeError "no such object"), s)
    end.

(** [compound[k]] *)
Definition getitem (compound : value) (k : string) : M value :=
  match compound with
  | VDict l =>
      let* d := read_dict l in
      match dict_get d k with
      | Some v => ret v
      | None => raise (KeyError k)
      end
  | _ => raise (TypeError "object is not subscriptable")
  end.

(** [compound[k] = v]: the dictionary object is updated in place. *)
Definition setitem (compound : value) (k : string) (v : value) : M unit :=
  match compound with
  | VDict l =>
      let* d := read_dict l in
      modify (fun s => set_dicts (<[l := dict_set d k v]> (dicts s)) s)
  | _ => raise (TypeError "object does not support item assignment")
  end.

Definition new_cell (init : value) : M nat :=
  fun s => (Ret (length (cells s)), set_cells (cells s ++ [init]) s).

Definition read_cell (i : nat) : M value :=
  fun s =>
    match cells s !! i with
    | Some v => (Ret v, s)
    | None => (Raise (RuntimeError "no such object"), s)
    end.

Definition write_cell (i : nat) (nval : value) : M unit :=
  modify (fun s => set_cells (<[i := nval]> (cells s)) s).

(** ** The part of z3py the engine calls

    z3py casts Python booleans and integers to literals of the sort an
    operation expects and raises where no cast exists. *)

Definition z3_cast (s : sort) (v : value) : option expr :=
  match v with
  | VZ3 e => if sort_eqb (sort_of e) s then Some e else None
  | VBool b =>
      match s with
      | BoolSort => Some (BoolVal b)
      | IntSort => Some (IntVal (if b then 1 else 0))
      | _ => None
      end
  | VInt n =>
      match s with
      | IntSort => Some (IntVal n)
      | _ => None
      end
  | _ => None
  end.

Definition z3_py2expr (v : value) : option expr :=
  match v with
  | VZ3 e => Some e
  | VBool b => Some (BoolVal b)
  | VInt n => Some (IntVal n)
  | _ => None
  end.

Definition z3_fail {A} : M A := raise (Z3Exception "sort mismatch").

Definition z3_bool (v : value) : M expr :=
  match z3_cast BoolSort v with
  | Some e => ret e
  | None => z3_fail
  end.

Definition z3_expr (v : value) : M expr :=
  match v with
  | VZ3 e => ret e
  | _ => z3_fail
  end.

Definition z3_Not (a : value) : M value :=
  let* e := z3_bool a in ret (VZ3 (Not e)).

Definition z3_And (args : list value) : M value :=
  let* es := mapM z3_bool args in ret (VZ3 (And es)).

Definition z3_Or (args : list value) : M value :=
  let* es := mapM z3_bool args in ret (VZ3 (Or es)).

Definition z3_Implies (a b : value) : M value :=
  let* ea := z3_bool a in
  let* eb := z3_bool b in
  ret (VZ3 (Implies ea eb)).

(** [z3.is_const]: an application without arguments. *)
Definition is_const (e : expr) : bool :=
  match e with
  | Const _ _ | IntVal _ | BoolVal _ | UVal _ _ | EnumVal _ _ _ => true
  | _ => false
  end.

(** The checks [_mk_quantifier] makes, in its order: the body is a
    boolean expression, the bound variables are constants and there is
    at least one, the patterns are expressions. *)
Definition quantifier_args (vars : list value) (body : value)
    (patterns : list value) : M (list expr * expr * list expr) :=
  let* b := match body with
            | VZ3 e =>
                if isinstance_ref e BoolRef then ret e
                else raise (Z3Exception "Z3 expression expected")
            | _ => raise (Z3Exception "Z3 expression expected")
            end in
  let* vs := match vars with
             | [] => raise (Z3Exception "Invalid bounded variable(s)")
             | _ =>
                 mapM (fun v => match v with
                                | VZ3 e =>
                                    if is_const e then ret e
                                    else raise (Z3Exception
                                                  "Invalid bounded variable(s)")
                                | _ => raise (Z3Exception
                                                "Invalid bounded variable(s)")
                                end) vars
             end in
  let* ps := mapM (fun p => match p with
                            | VZ3 e => ret e
                            | _ => raise (Z3Exception "Z3 patterns expected")
                            end) patterns in
  ret (vs, b, ps).

Definition z3_ForAll (vars : list value) (body : value)
    (patterns : list value) : M value :=
  let* a := quantifier_args vars body patterns in
  let '(vs, b, ps) := a in
  ret (VZ3 (ForAll vs b ps)).

Definition z3_Exists (vars : list value) (body : value)
    (patterns : list value) : M value :=
  let* a := quantifier_args vars body patterns in
  let '(vs, b, ps) := a in
  ret (VZ3 (Exists vs b ps)).

Definition z3_Select (a i : value) : M value :=
  match a with
  | VZ3 ea =>
      match sort_of ea with
      | ArraySort d _ =>
          match z3_cast d i with
          | Some ei => ret (VZ3 (Select ea ei))
          | None => z3_fail
          end
      | _ => z3_fail
      end
  | _ => z3_fail
  end.

Definition z3_Store (a i v : value) : M value :=
  match a with
  | VZ3 ea =>
      match sort_of ea with
      | ArraySort d r =>
          match z3_cast d i, z3_cast r v with
          | Some ei, Some ev => ret (VZ3 (Store ea ei ev))
          | _, _ => z3_fail
          end
      | _ => z3_fail
      end
  | _ => z3_fail
  end.

Definition z3_K (dom : sort) (v : value) : M value :=
  match z3_py2expr v with
  | Some e => ret (VZ3 (K dom e))
  | None => z3_fail
  end.

(** [a.__eq__(other)] of [z3.ExprRef] *)
Definition z3_eq (a : expr) (other : value) : M value :=
  match other with
  | VNone => ret (VBool false)
  | _ =>
      match z3_cast (sort_of a) other with
      | Some b => ret (VZ3 (Eq a b))
      | None => z3_fail
      end
  end.

(** ** Compounds *)

Fixpoint compound_map1 (depth : nat) (func : value -> M value)
    (compound : value) : M value :=
  match depth with
  | O => raise (RuntimeError "maximum recursion depth exceeded")
  | S depth' =>
      match compound with
      | VDict l =>
          let* d := read_dict l in
          let* d' := mapM (fun kv : string * value =>
                             let* v := compound_map1 depth' func (snd kv) in
                             ret (fst kv, v)) d in
          new_dict d'
      | _ => func compound
      end
  end.

Fixpoint compound_mapN (depth : nat) (func : value -> value -> M value)
    (c0 c1 : value) : M value :=
  match depth with
  | O => raise (RuntimeError "maximum recursion depth exceeded")
  | S depth' =>
      match c0 with
      | VDict l =>
          let* d := read_dict l in
          let* d' := mapM (fun kv : string * value =>
                             let* v0 := getitem c0 (fst kv) in
                             let* v1 := getitem c1 (fst kv) in
                             let* v := compound_mapN depth' func v0 v1 in
                             ret (fst kv, v)) d in
          new_dict d'
      | _ => func c0 c1
      end
  end.

(** [rec] of [flatten_compound], the leaves appended to [res]. *)
Fixpoint flatten_rec (depth : nat) (compound : value) (res : list value)
    : M (list value) :=
  match depth with
  | O => raise (RuntimeError "maximum recursion depth exceeded")
  | S depth' =>
      match compound with
      | VDict l =>
          let* d := read_dict l in
          (fix each (subs : list (string * value)) (res : list value) :=
             match subs with
             | [] => ret res
             | kv :: subs' =>
                 let* res' := flatten_rec depth' (snd kv) res in
                 each subs' res'
             end) d res
      | _ => ret (res ++ [compound])
      end
  end.

Definition flatten_compound (compound : value) : M (list value) :=
  flatten_rec recursion_limit compound [].

(** Structural equality of expressions, [a.eq(b)] in z3py. *)
Definition list_eqb {A} (eqb : A -> A -> bool) : list A -> list A -> bool :=
  fix go l1 l2 :=
    match l1, l2 with
    | [], [] => true
    | x :: l1', y :: l2' => eqb x y && go l1' l2'
    | _, _ => false
    end.

Fixpoint expr_eqb (a b : expr) : bool :=
  match a, b with
  | Const n s, Const m t => String.eqb n m && sort_eqb s t
  | IntVal n, IntVal m => Z.eqb n m
  | BoolVal x, BoolVal y => Bool.eqb x y
  | UVal s i, UVal t j => String.eqb s t && Nat.eqb i j
  | EnumVal n vs i, EnumVal m ws j =>
      String.eqb n m && bool_decide (vs = ws) && Nat.eqb i j
  | Not x, Not y => expr_eqb x y
  | And l, And l' => list_eqb expr_eqb l l'
  | Or l, Or l' => list_eqb expr_eqb l l'
  | Implies x y, Implies x' y' => expr_eqb x x' && expr_eqb y y'
  | Eq x y, Eq x' y' => expr_eqb x x' && expr_eqb y y'
  | Select x y, Select x' y' => expr_eqb x x' && expr_eqb y y'
  | Store x y z, Store x' y' z' =>
      expr_eqb x x' && expr_eqb y y' && expr_eqb z z'
  | K d x, K d' x' => sort_eqb d d' && expr_eqb x x'
  | ForAll vs x ps, ForAll vs' x' ps' =>
      list_eqb expr_eqb vs vs' && expr_eqb x x' && list_eqb expr_eqb ps ps'
  | Exists vs x ps, Exists vs' x' ps' =>
      list_eqb expr_eqb vs vs' && expr_eqb x x' && list_eqb expr_eqb ps ps'
  | _, _ => false
  end.

(** ** Lvalues: getters and setters

    An lvalue object holds a getter and a setter closure.  [HCell] is the
    pair made by [_new_lvalue] over a fresh one-element list, [HField] the
    pair made by [SStructBase.__getattr__], [HIndex] the pair made by
    [SMapBase.__getitem__]. *)

Fixpoint _getter (h : handle) : M value :=
  match h with
  | HCell i => read_cell i
  | HField (Lval _ hp _) name =>
      let* c := _getter hp in
      getitem c name
  | HIndex (Lval _ hp _) _ z3idx =>
      let* c := _getter hp in
      compound_map1 recursion_limit (fun z3val => z3_Select z3val z3idx) c
  end.

Definition _z3_value (v : value) : M value :=
  match v with
  | VSym _ e => ret (VZ3 e)
  | VLval o => _getter (lval_handle o)
  | _ => raise (AttributeError "_z3_value")
  end.

Definition unwrap (val : value) : M value :=
  if is_Symbolic val then _z3_value val else ret val.

Definition in_fields (c : cls) (name : string) : bool :=
  match fields_of c with
  | Some fs => bool_decide (name ∈ fs.*1)
  | None => false
  end.

(** The body of [SStructBase.__setattr__] for an object of class [c]
    whose getter is [self_getter] and setter [self_setter]. *)
Definition SStructBase_setattr_body (c : cls) (self_getter : M value)
    (self_setter : value -> M unit) (name : string) (val : value)
    : M unit :=
  if in_fields c name then
    let* cval := self_getter in
    let* uval := unwrap val in
    setitem cval name uval ;;;
    self_setter cval
  else raise (AttributeError name).

(** The body of [SMapBase.__setitem__]. *)
Definition SMapBase_setitem_body (self_getter : M value)
    (self_setter : value -> M unit) (idx val : value) : M unit :=
  let* z3idx := unwrap idx in
  let* cur := self_getter in
  let* uval := unwrap val in
  let* nval := compound_mapN recursion_limit
                 (fun z3map z3val => z3_Store z3map z3idx z3val) cur uval in
  self_setter nval.

Fixpoint _setter (h : handle) (nval : value) : M unit :=
  match h with
  | HCell i => write_cell i nval
  | HField (Lval c hp _) name =>
      SStructBase_setattr_body c (_getter hp) (_setter hp) name nval
  | HIndex (Lval _ hp _) idx _ =>
      SMapBase_setitem_body (_getter hp) (_setter hp) idx nval
  end.

Definition SStructBase_setattr (self : lval) (name : string) (val : value)
    : M unit :=
  SStructBase_setattr_body (lval_cls self) (_getter (lval_handle self))
    (_setter (lval_handle self)) name val.

Definition SMapBase_setitem (self : lval) (idx val : value) : M unit :=
  SMapBase_setitem_body (_getter (lval_handle self))
    (_setter (lval_handle self)) idx val.

(** ** Wrapping *)

Definition isinstance_pass (v : value) (p : pass_type) : bool :=
  match p, v with
  | PassInt, (VInt _ | VBool _) => true
  | PassBool, VBool _ => true
  | _, _ => false
  end.

(** [MetaZ3Wrapper._wrap]; [eval] stands for the method [model._eval]. *)
Definition _wrap_with (eval : nat -> value -> M value)
    (c : cls) (z3ref : value) (model : option nat) : M value :=
  match ref_type_of c with
  | None => raise (AttributeError "__ref_type__")
  | Some r =>
      let is_ref := match z3ref with
                    | VZ3 e => isinstance_ref e r
                    | _ => false
                    end in
      if is_ref then
        match z3ref with
        | VZ3 e =>
            match model with
            | Some m => eval m (VSym c e)
            | None => ret (VSym c e)
            end
        | _ => ret z3ref
        end
      else
        match pass_type_of c with
        | Some p =>
            if isinstance_pass z3ref p then ret z3ref
            else raise (TypeError "unexpected reference type")
        | None => raise (TypeError "unexpected reference type")
        end
  end.

Definition type_of (v : value) : option cls :=
  match v with
  | VSym c _ => Some c
  | VLval o => Some (lval_cls o)
  | _ => None
  end.

Definition read_model (m : nat) : M Model :=
  fun s =>
    match models s !! m with
    | Some mo => (Ret mo, s)
    | None => (Raise (RuntimeError "no such object"), s)
    end.

Definition as_long (e : expr) : Z :=
  match e with IntVal n => n | _ => 0%Z end.

Definition no_eval (m : nat) (obj : value) : M value :=
  raise (RuntimeError "no model").

(** [type(ex)._wrap(z3val, None)] *)
Definition wrap_as_type_of (ex : value) (z3val : expr) : M value :=
  match type_of ex with
  | Some c => _wrap_with no_eval c (VZ3 z3val) None
  | None => raise (AttributeError "_wrap")
  end.

Definition already_assigned (u : value) (aexpr : value) : M bool :=
  let* ua := unwrap aexpr in
  match u, ua with
  | VZ3 a, VZ3 b => ret (expr_eqb a b)
  | _, _ => raise (AttributeError "eq")
  end.

Fixpoint any_assigned (u : value) (l : list (value * value)) : M bool :=
  match l with
  | [] => ret false
  | (aexpr, _) :: l' =>
      let* b := already_assigned u aexpr in
      if b then ret true else any_assigned u l'
  end.

(** [Model._eval] *)
Definition Model_eval (self : nat) (ex : value) : M value :=
  let* mo := read_model self in
  let* u := unwrap ex in
  let* e := z3_expr u in
  let z3val := z3_model mo e in
  let* res :=
    if is_int_value z3val then ret (VInt (as_long z3val))
    else if is_true z3val then ret (VBool true)
    else if is_false z3val then ret (VBool false)
    else if is_uninterpreted_sort (sort_of z3val)
         then wrap_as_type_of ex z3val
    else raise (Exception "Expression is not a concrete value") in
  (if track mo then
     let* dup := any_assigned u (asignments mo) in
     if dup then ret tt
     else
       let* val := wrap_as_type_of ex z3val in
       modify (fun s =>
         set_models
           (<[self := mkModel (m_var_constructors mo) (z3_model mo)
                        (track mo) (asignments mo ++ [(ex, val)])]>
              (models s)) s)
   else ret tt) ;;;
  ret res.

Definition _wrap (c : cls) (z3ref : value) (model : option nat) : M value :=
  _wrap_with Model_eval c z3ref model.

(** [wrap]; floats are outside the value model. *)
Definition wrap (ref : value) : M value :=
  match ref with
  | VBool _ | VInt _ => ret ref
  | VZ3 e =>
      if isinstance_ref e ArithRef then
        if is_int e then _wrap SInt ref None else _wrap SArith ref None
      else if isinstance_ref e BoolRef then _wrap SBool ref None
      else _wrap SExpr ref None
  | _ => raise (TypeError "Not a bool, int, long, float, or z3.ExprRef")
  end.

Definition wraplist (reflist : list value) : M (list value) :=
  mapM wrap reflist.

(** ** Execution graph operations *)

Definition Graph_new_node : M nat :=
  fun s =>
    let g := curgraph s in
    (Ret (length (nodes g)),
     set_curgraph (mkGraph (nodes g ++ [new_GraphNode]) (edges g)) s).

Definition Graph_new_edge (n1 n2 : nat) (label : string) : M unit :=
  modify (fun s =>
    let g := curgraph s in
    set_curgraph (mkGraph (nodes g) (edges g ++ [(n1, n2, label)])) s).

Definition alter_node (f : GraphNode -> GraphNode) (n : nat) : M unit :=
  modify (fun s =>
    let g := curgraph s in
    set_curgraph (mkGraph (alter f n (nodes g)) (edges g)) s).

Definition set_label (n : nat) (parts : list label_part) : M unit :=
  alter_node (fun nd => mkGraphNode parts (_color nd)) n.

Definition set_color (n : nat) (color : string) : M unit :=
  alter_node (fun nd => mkGraphNode (_label nd) color) n.

(** [cursched[-1][1]] *)
Definition last_node : M nat :=
  let* sched := gets cursched in
  match last sched with
  | Some (_, n) => ret n
  | None => raise IndexError
  end.

Definition cursched_append (e : sched_entry) : M unit :=
  modify (fun s => set_cursched (cursched s ++ [e]) s).

(** ** The symbolic executor *)

Definition get_solver : M Solver :=
  let* sv := gets solver in
  match sv with
  | Some x => ret x
  | None =>
      raise (RuntimeError "Symbolic execution attempted outside symbolic_apply")
  end.

Definition queue_schedule (s : schedule) : M unit :=
  modify (fun st => set_schedq (schedq st ++ [s]) st).

Definition on_solver (f : Solver -> Solver) : M unit :=
  let* sv := get_solver in
  modify (set_solver (Some (f sv))).

Definition solver_push : M unit := on_solver push.
Definition solver_pop : M unit := on_solver pop.
Definition solver_add_expr (e : expr) : M unit := on_solver (add e).
Definition solver_add (v : value) : M unit :=
  let* e := z3_bool v in solver_add_expr e.
Definition solver_assertions : M (list expr) :=
  let* sv := get_solver in ret (assertions sv).

Section Engine.

(** The decision procedure: the answer of [check()] on a solver object,
    and the text [reason_unknown()] gives after it. *)
Variable z3_check : Solver -> check_result.
Variable z3_reason_unknown : Solver -> string.

(** [solver.check()] followed by [solver.reason_unknown()] *)
Definition solver_check : M (check_result * string) :=
  let* sv := get_solver in
  on_solver note_check ;;;
  ret (z3_check sv, z3_reason_unknown sv).

(** The retry in isolation: a fresh solver [s2] is given the assertions
    of the current one, then [s2.check()] and [s2.reason_unknown()]. *)
Definition isolated_check : M (check_result * string) :=
  let* asserts := solver_assertions in
  let s2 := add_all asserts new_Solver in
  ret (z3_check s2, z3_reason_unknown s2).

(** One direction of a branch: push, add, check, retry an unknown in
    isolation, pop. *)
Definition check_direction (t : expr) : M (check_result * string) :=
  solver_push ;;;
  solver_add_expr t ;;;
  let* r := solver_check in
  let* r' := match fst r with
             | unknown => isolated_check
             | _ => ret r
             end in
  solver_pop ;;;
  ret r'.

Definition extend_schedule (self : value) (v : expr) : M unit :=
  let* t := check_direction v in
  let* f := check_direction (Not v) in
  let canTrue := fst t in
  let canTrueReason := snd t in
  let canFalse := fst f in
  let canFalseReason := snd f in
  match canTrue, canFalse with
  | unsat, unsat => raise (RuntimeError "Branch contradiction")
  | sat, unsat =>
      let* n := last_node in cursched_append (Choice true, n)
  | unsat, sat =>
      let* n := last_node in cursched_append (Choice false, n)
  | _, _ =>
      let* gnode := last_node in
      set_label gnode [LValue self; LCaller] ;;;
      let* tnode := Graph_new_node in
      let* fnode := Graph_new_node in
      Graph_new_edge gnode tnode "T" ;;;
      Graph_new_edge gnode fnode "F" ;;;
      let* newsched := gets cursched in
      cursched_append
        (match canTrue with
         | sat => (Choice true, tnode)
         | _ => (Uncheckable v canTrueReason, tnode)
         end) ;;;
      queue_schedule
        (newsched ++
         [match canFalse with
          | sat => (Choice false, fnode)
          | _ => (Uncheckable (Not v) canFalseReason, fnode)
          end])
  end.

Definition follow_schedule (v : expr) : M bool :=
  let* sched := gets cursched in
  let* idx := gets curschedidx in
  match sched !! idx with
  | None => raise IndexError
  | Some (rv, _) =>
      match rv with
      | Choice true =>
          solver_add_expr v ;;;
          modify (set_curschedidx (idx + 1)) ;;;
          ret true
      | Choice false =>
          solver_add_expr (Not v) ;;;
          modify (set_curschedidx (idx + 1)) ;;;
          ret false
      | Uncheckable e reason => raise (UncheckableConstraintError e reason)
      | NoChoice =>
          (* the message is built with [%] applied to the entry, a pair,
             for a format with one conversion: the formatting raises *)
          raise (TypeError
                   "not all arguments converted during string formatting")
      end
  end.

(** [SBool.__nonzero__] *)
Definition SBool_nonzero (self : value) : M bool :=
  match self with
  | VSym _ v =>
      let* _ := get_solver in
      let* sched := gets cursched in
      let* idx := gets curschedidx in
      (if Nat.eqb (length sched) idx then extend_schedule self v
       else ret tt) ;;;
      follow_schedule v
  | _ => raise (AttributeError "_v")
  end.

(** Truth value of a Python object in a boolean context. *)
Definition truth (v : value) : M bool :=
  match v with
  | VNone => ret false
  | VNotImplemented => ret true
  | VBool b => ret b
  | VInt n => ret (negb (Z.eqb n 0))
  | VStr s => ret (negb (String.eqb s ""))
  | VTuple l => ret (negb (Nat.eqb (length l) 0))
  | VZ3 _ => raise (RuntimeError "Cannot __nonzero__")
  | VSym c _ => if issubclass c SBool then SBool_nonzero v else ret true
  | VLval _ => ret true
  | VDict l => let* d := read_dict l in ret (negb (Nat.eqb (length d) 0))
  end.

Fixpoint py_all (l : list value) : M bool :=
  match l with
  | [] => ret true
  | x :: l' => let* b := truth x in if b then py_all l' else ret false
  end.

Fixpoint py_any (l : list value) : M bool :=
  match l with
  | [] => ret false
  | x :: l' => let* b := truth x in if b then ret true else py_any l'
  end.

(** ** Constructors of logical terms *)

Definition symand (exprlist : list value) : M value :=
  if existsb is_Symbolic exprlist then
    let* us := mapM unwrap exprlist in
    let* r := z3_And us in
    wrap r
  else
    let* b := py_all exprlist in ret (VBool b).

Definition symor (exprlist : list value) : M value :=
  if existsb is_Symbolic exprlist then
    let* us := mapM unwrap exprlist in
    let* r := z3_Or us in
    wrap r
  else
    let* b := py_any exprlist in ret (VBool b).

Definition symnot (e : value) : M value :=
  if is_Symbolic e then
    let* u := unwrap e in
    let* r := z3_Not u in
    wrap r
  else
    let* b := truth e in ret (VBool (negb b)).

Definition implies (a b : value) : M value :=
  let* ua := unwrap a in
  let* ub := unwrap b in
  let* r := z3_Implies ua ub in
  wrap r.

(** A Python list or tuple is a [VTuple]. *)
Definition as_list (vars : value) : list value :=
  match vars with
  | VTuple l => l
  | _ => [vars]
  end.

Definition exists_ (vars : value) (e : value) (patterns : list value)
    : M value :=
  let vars := as_list vars in
  if negb (is_Symbolic e || is_ExprRef e) then ret e
  else
    let* uvs := mapM unwrap vars in
    let* ue := unwrap e in
    let* ps := mapM unwrap patterns in
    let* r := z3_Exists uvs ue ps in
    wrap r.

Definition forall_ (vars : value) (e : value) (patterns : list value)
    : M value :=
  let vars := as_list vars in
  if negb (is_Symbolic e || is_ExprRef e) then ret e
  else
    let* uvs := mapM unwrap vars in
    let* ue := unwrap e in
    let* ps := mapM unwrap patterns in
    let* r := z3_ForAll uvs ue ps in
    wrap r.

(** The block of [assume] that updates the schedule and the execution
    graph: at the end of the schedule a non-forking entry is appended. *)
Definition note_assumption (e : value) : M unit :=
  let* sched := gets cursched in
  let* idx := gets curschedidx in
  if Nat.eqb (length sched) idx then
    let* gnode := (if Nat.eqb (length sched) 0 then Graph_new_node
                   else last_node) in
    set_label gnode [LValue e; LCaller] ;;;
    let* nextnode := Graph_new_node in
    Graph_new_edge gnode nextnode "" ;;;
    cursched_append (NoChoice, nextnode)
  else ret tt.

(** The rest of [assume]: the entry at the index must be a non-forking
    one; the index advances, [e] is asserted and the path is checked. *)
Definition assert_assumption (e : value) : M unit :=
  let* sched := gets cursched in
  let* idx := gets curschedidx in
  match sched !! idx with
  | None => raise IndexError
  | Some (NoChoice, _) =>
      modify (set_curschedidx (idx + 1)) ;;;
      let* ue := unwrap e in
      solver_add ue ;;;
      let* r := solver_check in
      let* r' := match fst r with
                 | unknown => isolated_check
                 | _ => ret r
                 end in
      match fst r' with
      | sat => ret tt
      | unsat => raise UnsatisfiablePath
      | unknown =>
          (* the constructor of the error simplifies the expression it
             is given, which must be a Z3 expression *)
          let* ue := unwrap e in
          match ue with
          | VZ3 x => raise (UncheckableConstraintError x (snd r'))
          | _ => raise (Z3Exception "Z3 expression expected")
          end
      end
  | Some _ => raise AssertionError
  end.

(** [assume] *)
Definition assume (e : value) : M unit :=
  match e with
  | VBool true => ret tt
  | _ =>
      let* _ := get_solver in
      solver_push ;;;
      let* ne := symnot e in
      let* une := unwrap ne in
      solver_add une ;;;
      let* r := solver_check in
      solver_pop ;;;
      match fst r with
      | unsat => ret tt
      | _ =>
          note_assumption e ;;;
          assert_assumption e
      end
  end.

(** ** The exploration loop *)

(** [str_state]: [None] when the path is unconstrained. *)
Definition str_state : M (option (list expr)) :=
  let* asserts := solver_assertions in
  match asserts with
  | [] => ret None
  | _ => ret (Some asserts)
  end.

(** The body of the [try] of [__symbolic_apply_loop]. *)
Definition run_path (fn : M value) : M SymbolicApplyResult :=
  let* rv := fn in
  let* n := last_node in
  set_label n [LValue rv] ;;;
  let* asserts := solver_assertions in
  let* pc := wraplist (map VZ3 asserts) in
  let* vc := gets var_constructors in
  let* ct := gets constTypes in
  ret (mkSymbolicApplyResult rv pc vc ct).

(** The [except] clauses; the result is the exception that leaves the
    loop, if any. *)
Definition handle_exception (e : exn) : M (option exn) :=
  match e with
  | UnsatisfiablePath =>
      let* n := last_node in
      set_label n [LText "Unsatisfiable path"] ;;;
      set_color n "blue" ;;;
      ret None
  | UncheckableConstraintError _ _ =>
      let* n := last_node in
      set_label n [LText "Exception: "; LException e] ;;;
      set_color n "red" ;;;
      modify (fun s => set_stdout (stdout s ++ [e]) s) ;;;
      ret None
  | _ =>
      let* n := last_node in
      set_label n [LText "Exception: "; LException e] ;;;
      set_color n "red" ;;;
      let* st := str_state in
      modify (fun s => set_shown (S (shown s)) s) ;;;
      ret (Some (InSymbolicState e st))
  end.

Inductive loop_end :=
| Exhausted
| Escaped (e : exn)
| OutOfFuel.

(** The assignments that open an iteration of [__symbolic_apply_loop]:
    the popped schedule becomes current, the index is 1, the table of
    constant types is empty and the solver is a new one. *)
Definition start_path (sched : schedule) (s : State) : State :=
  set_solver (Some new_Solver)
    (set_constTypes [] (set_curschedidx 1 (set_cursched sched s))).

(** One iteration of the [while] of [__symbolic_apply_loop]; the schedule
    has been popped already.  The result is the yielded value, if any, and
    the exception that escapes, if any. *)
Definition loop_iteration (fn : M value) (sched : schedule) (s : State)
    : option SymbolicApplyResult * option exn * State :=
  match run_path fn (start_path sched s) with
  | (Ret sar, s2) => (Some sar, None, set_solver None s2)
  | (Raise e, s2) =>
      match handle_exception e s2 with
      | (Ret esc, s3) => (None, esc, set_solver None s3)
      | (Raise e', s3) => (None, Some e', set_solver None s3)
      end
  end.

(** [schedq.pop()]: the last element and the queue without it. *)
Definition schedq_pop (q : list schedule) : option (schedule * list schedule) :=
  match last q with
  | Some sched => Some (sched, removelast q)
  | None => None
  end.

(** [__symbolic_apply_loop]: the results yielded, in order, how the loop
    ended, and the final state.  [fuel] bounds the number of paths run. *)
Fixpoint symbolic_apply_loop (fuel : nat) (fn : M value) (s : State)
    : list SymbolicApplyResult * loop_end * State :=
  match schedq_pop (schedq s) with
  | None => ([], Exhausted, s)
  | Some (sched, rest) =>
      match fuel with
      | O => ([], OutOfFuel, s)
      | S fuel' =>
          match loop_iteration fn sched (set_schedq rest s) with
          | (_, Some e, s') => ([], Escaped e, s')
          | (osar, None, s') =>
              let '(sars, fin, s'') := symbolic_apply_loop fuel' fn s' in
              (match osar with
               | Some sar => sar :: sars
               | None => sars
               end, fin, s'')
          end
      end
  end.

(** [symbolic_apply], run until the generator is exhausted. *)
Definition symbolic_apply (fuel : nat) (fn : M value) (s : State)
    : list SymbolicApplyResult * loop_end * State :=
  let s0 := set_curgraph new_Graph s in
  match (let* n := Graph_new_node in queue_schedule [(NoChoice, n)]) s0 with
  | (Raise e, s1) => ([], Escaped e, s1)
  | (Ret _, s1) =>
      if negb (Nat.eqb (length (schedq s1)) 1) then
        ([], Escaped (Exception "Recursive symbolic_apply?"), s1)
      else
        let init_var_constructors := var_constructors s1 in
        let '(sars, fin, s2) := symbolic_apply_loop fuel fn s1 in
        (sars, fin,
         set_schedq [] (set_var_constructors init_var_constructors s2))
  end.

(** ** Symbolic variables and lvalue objects *)

Definition anon_name (base : string) : M string :=
  let* i := gets anon_idx in
  modify (set_anon_idx (S i)) ;;;
  ret (base +:+ pretty (S i)).

(** [d[k] = v] on the name tables. *)
Fixpoint table_set {A} (d : list (string * A)) (k : string) (v : A)
    : list (string * A) :=
  match d with
  | [] => [(k, v)]
  | (k', v') :: d' =>
      if String.eqb k' k then (k', v) :: d' else (k', v') :: table_set d' k v
  end.

Definition record_constructor (name : string) (c : ctor) : M unit :=
  modify (fun s => set_var_constructors
                     (table_set (var_constructors s) name c) s).

Definition record_constType (strname : string) (c : cls)
    (path : list string) : M unit :=
  modify (fun s => set_constTypes
                     (table_set (constTypes s) strname (c, path)) s).

(** [".".join(parts)] *)
Fixpoint join_dot (parts : list string) : string :=
  match parts with
  | [] => ""
  | [p] => p
  | p :: rest => p +:+ "." +:+ join_dot rest
  end.

Definition leaf_sort (c : cls) : M sort :=
  match _z3_sort c with
  | Some (SortLeaf z) => ret z
  | _ => raise (Z3Exception "Z3 sort expected")
  end.

Definition compound_sort (c : cls) : M csort :=
  match _z3_sort c with
  | Some s => ret s
  | None => raise (AttributeError "__z3_sort__")
  end.

(** [SymbolicConst.var] *)
Definition SymbolicConst_var (c : cls) (name : option string)
    (model : option nat) : M value :=
  let* name :=
    match name with
    | None => anon_name "anon"
    | Some n =>
        (match model with
         | None => record_constructor n (CtorVar c)
         | Some _ => ret tt
         end) ;;;
        ret n
    end in
  record_constType name c [] ;;;
  let* z := leaf_sort c in
  _wrap c (VZ3 (Const name z)) model.

(** [SymbolicConst._wrap_lvalue], [SMapBase._wrap_lvalue] and
    [SStructBase._wrap_lvalue], by the class of the new object; the
    getter and setter passed are those of [h]. *)
Definition _wrap_lvalue (c : cls) (h : handle) (model : option nat)
    : M value :=
  if is_SymbolicConst c then
    let* v := _getter h in
    _wrap c v model
  else if is_SStructBase c || is_SMapBase c then
    ret (VLval (Lval c h model))
  else raise (NotImplementedError "_wrap_lvalue is abstract").

Fixpoint table_get {A} (d : list (string * A)) (k : string) : option A :=
  match d with
  | [] => None
  | (k', v) :: d' => if String.eqb k' k then Some v else table_get d' k
  end.

Definition field_type (c : cls) (name : string) : option cls :=
  match fields_of c with
  | Some fs => table_get fs name
  | None => None
  end.

(** [SStructBase.__getattr__] *)
Definition SStructBase_getattr (self : lval) (name : string) : M value :=
  match field_type (lval_cls self) name with
  | None => raise (AttributeError name)
  | Some t => _wrap_lvalue t (HField self name) (lval_model self)
  end.

Definition map_types (c : cls) : option (cls * cls) :=
  match base_class c with
  | SMap i v => Some (i, v)
  | _ => None
  end.

(** [SMapBase.__getitem__] *)
Definition SMapBase_getitem (self : lval) (idx : value) : M value :=
  let* z3idx := unwrap idx in
  match map_types (lval_cls self) with
  | Some (_, valueType) =>
      _wrap_lvalue valueType (HIndex self idx z3idx) (lval_model self)
  | None => raise (AttributeError "_valueType")
  end.

(** [_declare_assumptions], by the class of the object: the base method
    does nothing, a struct projects every field, a map binds a fresh index
    under a quantifier. *)
Fixpoint _declare_assumptions (depth : nat) (obj : value)
    (assume : value -> M unit) : M unit :=
  match depth with
  | O => raise (RuntimeError "maximum recursion depth exceeded")
  | S depth' =>
      match obj with
      | VSym _ _ => ret tt
      | VLval self =>
          let c := lval_cls self in
          match base_class c with
          | SMap indexType _ =>
              if is_SymbolicConst indexType then
                let* x := SymbolicConst_var indexType None None in
                let* item := SMapBase_getitem self x in
                _declare_assumptions depth' item
                  (fun ex => let* q := forall_ x ex [] in assume q)
              else raise (TypeError "Map index may not be a compound type")
          | SStruct fs =>
              (fix each (fs : list (string * cls)) : M unit :=
                 match fs with
                 | [] => ret tt
                 | (fname, _) :: fs' =>
                     let* f := SStructBase_getattr self fname in
                     _declare_assumptions depth' f assume ;;;
                     each fs'
                 end) fs
          | _ => ret tt
          end
      | _ => raise (AttributeError "_declare_assumptions")
      end
  end.

(** [Symbolic._new_lvalue] *)
Definition _new_lvalue (c : cls) (init : value) (model : option nat)
    : M value :=
  let* i := new_cell init in
  let* obj := _wrap_lvalue c (HCell i) model in
  match model with
  | None => _declare_assumptions recursion_limit obj assume ;;; ret obj
  | Some _ => ret obj
  end.

(** [mkValue] of [Symbolic.var] and of [SStructBase.var].  In the latter
    [fields] is empty whenever [mkValue] runs, so its first test never
    holds; a missing name raises at the first leaf. *)
Fixpoint mkValue (c : cls) (name : option string) (path : list string)
    (s : csort) : M value :=
  match s with
  | SortDict d =>
      let* items :=
        (fix each (d : list (string * csort)) : M dict :=
           match d with
           | [] => ret []
           | (k, v) :: d' =>
               let* x := mkValue c name (path ++ [k]) v in
               let* xs := each d' in
               ret ((k, x) :: xs)
           end) d in
      new_dict items
  | SortLeaf z =>
      match name with
      | None => raise (ValueError "Name required for partially symbolic struct")
      | Some n =>
          let strname := join_dot (n :: path) in
          record_constType strname c path ;;;
          ret (VZ3 (Const strname z))
      end
  end.

(** [Symbolic.var] *)
Definition Symbolic_var (c : cls) (name : option string)
    (model : option nat) : M value :=
  let* name :=
    match name with
    | None => anon_name "anon"
    | Some n =>
        (match model with
         | None => record_constructor n (CtorVar c)
         | Some _ => ret tt
         end) ;;;
        ret n
    end in
  let* s := compound_sort c in
  let* init := mkValue c (Some name) [] s in
  _new_lvalue c init model.

(** [repr] of a [str], which the conversion [%r] applies: the quote is
    the single one unless the string holds a single and no double quote;
    the quote and the backslash are escaped, tab, newline and return are
    written with their letter, other bytes outside the printable range in
    hexadecimal. *)
Definition single_quote : Ascii.ascii := Ascii.ascii_of_nat 39.
Definition double_quote : Ascii.ascii := Ascii.ascii_of_nat 34.
Definition backslash : Ascii.ascii := Ascii.ascii_of_nat 92.

Definition hex_digit (n : nat) : Ascii.ascii :=
  if Nat.ltb n 10 then Ascii.ascii_of_nat (48 + n)%nat
  else Ascii.ascii_of_nat (87 + n)%nat.

Fixpoint string_has (c : Ascii.ascii) (s : string) : bool :=
  match s with
  | EmptyString => false
  | String x s' => Ascii.eqb x c || string_has c s'
  end.

Definition repr_char (quote c : Ascii.ascii) : string :=
  let n := Ascii.nat_of_ascii c in
  if Ascii.eqb c quote || Ascii.eqb c backslash then
    String backslash (String c EmptyString)
  else if Nat.eqb n 9 then String backslash "t"
  else if Nat.eqb n 10 then String backslash "n"
  else if Nat.eqb n 13 then String backslash "r"
  else if Nat.ltb n 32 || Nat.leb 127 n then
    String backslash
      (String (Ascii.ascii_of_nat 120) (String (hex_digit (Nat.div n 16))
                     (String (hex_digit (Nat.modulo n 16)) EmptyString)))
  else String c EmptyString.

Fixpoint repr_body (quote : Ascii.ascii) (s : string) : string :=
  match s with
  | EmptyString => EmptyString
  | String c s' => repr_char quote c +:+ repr_body quote s'
  end.

Definition py_repr (s : string) : string :=
  let quote := if string_has single_quote s
                  && negb (string_has double_quote s)
               then double_quote else single_quote in
  String quote (repr_body quote s +:+ String quote EmptyString).

(** [SStructBase.var]; [fields] is the dictionary of the keyword
    arguments, its items in the order the dictionary iterates, so that
    its head is the item of [fields.keys()[0]]. *)
Definition SStructBase_var (c : cls) (name : option string)
    (model : option nat) (fields : list (string * value)) : M value :=
  (match name, model with
   | Some n, None =>
       let* fieldsSnapshot :=
         mapM (fun kv : string * value =>
                 let* u := unwrap (snd kv) in ret (fst kv, u)) fields in
       record_constructor n (CtorStructVar c n fieldsSnapshot)
   | _, _ => ret tt
   end) ;;;
  match fields with
  | (k, _) :: _ =>
      raise (AttributeError ("Unknown struct field " +:+ py_repr k))
  | [] =>
      let* s := compound_sort c in
      let* init := mkValue c name [] s in
      _new_lvalue c init model
  end.

(** [cls.var(name)] by the class's method resolution. *)
Definition var (c : cls) (name : option string) : M value :=
  if is_SymbolicConst c then SymbolicConst_var c name None
  else if is_SStructBase c then SStructBase_var c name None []
  else Symbolic_var c name None.

(** [SMapBase.constVal] *)
Definition SMapBase_constVal (c : cls) (val : value) : M value :=
  match map_types c with
  | Some (indexType, _) =>
      let* indexSort := leaf_sort indexType in
      let* u := unwrap val in
      let* init := compound_map1 recursion_limit (z3_K indexSort) u in
      _new_lvalue c init None
  | None => raise (AttributeError "_indexType")
  end.

(** ** Equality *)

Definition as_int (v : value) : Z :=
  match v with
  | VBool b => if b then 1%Z else 0%Z
  | VInt n => n
  | _ => 0%Z
  end.

(** [a == b] between concrete Python values; booleans are integers.
    Dictionaries, which the engine never compares, are told apart by
    identity. *)
Fixpoint host_eqb (a b : value) : bool :=
  match a, b with
  | VNone, VNone => true
  | VNotImplemented, VNotImplemented => true
  | (VBool _ | VInt _), (VBool _ | VInt _) => Z.eqb (as_int a) (as_int b)
  | VStr s, VStr t => String.eqb s t
  | VTuple la, VTuple lb =>
      (fix go (la lb : list value) : bool :=
         match la, lb with
         | [], [] => true
         | x :: la', y :: lb' => host_eqb x y && go la' lb'
         | _, _ => false
         end) la lb
  | VDict l, VDict l' => Nat.eqb l l'
  | _, _ => false
  end.

(** The generated [SExpr.__eq__]: unwrap a symbolic argument through its
    [_v], call the method of the Z3 reference, wrap the result. *)
Definition SExpr_eq (v : expr) (o : value) : M value :=
  let* o' := match o with
             | VSym _ e => ret (VZ3 e)
             | VLval _ => raise (AttributeError "_v")
             | _ => ret o
             end in
  let* r := z3_eq v o' in
  wrap r.

(** [af == bf] where neither operand is a struct or a map. *)
Definition leaf_eq (af bf : value) : M value :=
  match af, bf with
  | VSym _ ea, _ => SExpr_eq ea bf
  | VZ3 ea, _ => z3_eq ea bf
  | _, VSym _ eb => SExpr_eq eb af
  | _, VZ3 eb => z3_eq eb af
  | _, _ => ret (VBool (host_eqb af bf))
  end.

Definition pointwise_eq (av bv : list value) : M (list value) :=
  mapM (fun p : value * value =>
          let* r := leaf_eq (fst p) (snd p) in wrap r) (zip av bv).

(** [SStructBase.__eq__] and [SMapBase.__eq__], which are the same code. *)
Definition compound_eq (self : lval) (o : value) : M value :=
  match o with
  | VLval other =>
      if issubclass (lval_cls other) (lval_cls self) then
        let* a := _getter (lval_handle self) in
        let* av := flatten_compound a in
        let* b := _getter (lval_handle other) in
        let* bv := flatten_compound b in
        let* eqs := pointwise_eq av bv in
        symand eqs
      else ret VNotImplemented
  | _ => ret VNotImplemented
  end.

(** [a == b]: the method of the left operand, then the reflected one. *)
Definition py_eq (a b : value) : M value :=
  match a, b with
  | VLval sa, VLval sb =>
      let* r := compound_eq sa b in
      match r with
      | VNotImplemented =>
          let* r' := compound_eq sb a in
          match r' with
          | VNotImplemented => ret (VBool false)
          | _ => ret r'
          end
      | _ => ret r
      end
  | _, _ => leaf_eq a b
  end.

(** [Symbolic.__ne__] *)
Definition Symbolic_ne (self o : value) : M value :=
  let* r := py_eq self o in
  match r with
  | VNotImplemented => ret VNotImplemented
  | _ => symnot r
  end.

(** [symeq] *)
Fixpoint symeq (a b : value) : M value :=
  match a, b with
  | VTuple la, VTuple lb =>
      if negb (Nat.eqb (length la) (length lb)) then ret (VBool false)
      else
        let* rs :=
          (fix each (la lb : list value) : M (list value) :=
             match la, lb with
             | aa :: la', bb :: lb' =>
                 let* r := symeq aa bb in
                 let* rs := each la' lb' in
                 ret (r :: rs)
             | _, _ => ret []
             end) la lb in
        symand rs
  | _, _ => py_eq a b
  end.

(** ** What a direction check computes

    The solver object after [check_direction] and the answer it gives,
    as functions of the solver object before. *)

Definition after_direction (sv : Solver) (t : expr) : Solver :=
  pop (note_check (add t (push sv))).

Definition with_retry (sv : Solver) : check_result * string :=
  match z3_check sv with
  | unknown =>
      let s2 := add_all (assertions sv) new_Solver in
      (z3_check s2, z3_reason_unknown s2)
  | r => (r, z3_reason_unknown sv)
  end.

Definition direction_answer (sv : Solver) (t : expr) : check_result * string :=
  with_retry (add t (push sv)).

(** ** Notions the properties are stated with *)

Definition checks_made (s : State) : option nat :=
  (fun sv => count_checks (calls sv)) <$> solver s.

(** What [assume(e)] gives the solver for a boolean [e], symbolic or
    concrete: the negation it checks first and the term it asserts. *)
Definition assumption_terms (e : value) : option (expr * expr) :=
  match e with
  | VSym _ v =>
      match sort_of v with
      | BoolSort => Some (Not v, v)
      | _ => None
      end
  | VBool b => Some (BoolVal (negb b), BoolVal b)
  | _ => None
  end.

(** What [assume(e)] raises when the path with [e] asserted stays
    unknown. *)
Definition uncheckable (e : value) (reason : string) : exn :=
  match e with
  | VSym _ v => UncheckableConstraintError v reason
  | _ => Z3Exception "Z3 expression expected"
  end.

(** The graph after a fork at node [gnode]. *)
Definition fork_graph (g : Graph) (gnode : nat) (self : value) : Graph :=
  mkGraph
    (alter (fun nd => mkGraphNode [LValue self; LCaller] (_color nd)) gnode
       (nodes g) ++ [new_GraphNode; new_GraphNode])
    (edges g ++ [(gnode, length (nodes g), "T");
                 (gnode, S (length (nodes g)), "F")]).

(** The entries a fork records: on the current schedule and on the clone. *)
Definition current_entry (v : expr) (t : check_result * string) (tnode : nat)
    : sched_entry :=
  match fst t with
  | sat => (Choice true, tnode)
  | _ => (Uncheckable v (snd t), tnode)
  end.

Definition clone_entry (v : expr) (f : check_result * string) (fnode : nat)
    : sched_entry :=
  match fst f with
  | sat => (Choice false, fnode)
  | _ => (Uncheckable (Not v) (snd f), fnode)
  end.

Definition solver_view (s : State) : option (list expr * list nat) :=
  (fun sv => (assertions sv, scopes sv)) <$> solver s.

Definition path_state (sv : Solver) : option (list expr) :=
  match assertions sv with
  | [] => None
  | l => Some l
  end.

(** The values [wrap] accepts: concrete booleans and integers, and Z3
    expressions. *)
Definition wrappable (ref : value) : bool :=
  match ref with
  | VBool _ | VInt _ | VZ3 _ => true
  | _ => false
  end.

(** Concrete host values: [None], booleans, integers, strings, and tuples
    of such. *)
Fixpoint concrete (v : value) : bool :=
  match v with
  | VNone | VBool _ | VInt _ | VStr _ => true
  | VTuple l =>
      (fix all (l : list value) : bool :=
         match l with
         | [] => true
         | x :: l' => concrete x && all l'
         end) l
  | _ => false
  end.

(** Host truth of a concrete value. *)
Definition truthy (v : value) : bool :=
  match v with
  | VBool b => b
  | VInt n => negb (Z.eqb n 0)
  | VStr s => negb (String.eqb s "")
  | VTuple l => negb (Nat.eqb (length l) 0)
  | _ => false
  end.

(** Host equality as [symeq] computes it: tuples of equal length are
    compared element by element. *)
Fixpoint symeq_host (a b : value) : bool :=
  match a, b with
  | VTuple la, VTuple lb =>
      if negb (Nat.eqb (length la) (length lb)) then false
      else
        forallb truthy
          ((fix each (la lb : list value) : list value :=
              match la, lb with
              | aa :: la', bb :: lb' =>
                  VBool (symeq_host aa bb) :: each la' lb'
              | _, _ => []
              end) la lb)
  | _, _ => host_eqb a b
  end.

Definition symbolic_entry (p : value * value) : Prop :=
  exists c e, fst p = VSym c e.

Definition struct_S : cls := SStruct [("a", SInt)].
Definition struct_T : cls := SStruct [("f", struct_S)].
Definition map_M : cls := SMap SInt struct_S.

Definition as_lval (v : value) : M lval :=
  match v with
  | VLval o => ret o
  | _ => raise (TypeError "not a struct or map")
  end.

(** [y.f.a] *)
Definition read_f_a (y : lval) : M value :=
  let* f := SStructBase_getattr y "f" in
  let* fo := as_lval f in
  SStructBase_getattr fo "a".

(** [x = S.var('x'); y = T.var('y'); y.f = x], then [y.f.a] is read
    before and after [x.a = 5]. *)
Definition write_through_source : M (value * value) :=
  let* x := var struct_S (Some "x") in
  let* y := var struct_T (Some "y") in
  let* xo := as_lval x in
  let* yo := as_lval y in
  SStructBase_setattr yo "f" x ;;;
  let* before := read_f_a yo in
  SStructBase_setattr xo "a" (VInt 5) ;;;
  let* after := read_f_a yo in
  ret (before, after).

(** The same assignment, then [x.a] is read before and after
    [y.f.a = 7]. *)
Definition write_through_target : M (value * value) :=
  let* x := var struct_S (Some "x") in
  let* y := var struct_T (Some "y") in
  let* xo := as_lval x in
  let* yo := as_lval y in
  SStructBase_setattr yo "f" x ;;;
  let* before := SStructBase_getattr xo "a" in
  let* f := SStructBase_getattr yo "f" in
  let* fo := as_lval f in
  SStructBase_setattr fo "a" (VInt 7) ;;;
  let* after := SStructBase_getattr xo "a" in
  ret (before, after).

(** [x = S.var('x'); m = M.var('m'); m[1] = x], then [m[1].a] is read
    before and after [x.a = 5]. *)
Definition write_into_map : M (value * value) :=
  let* x := var struct_S (Some "x") in
  let* m := var map_M (Some "m") in
  let* xo := as_lval x in
  let* mo := as_lval m in
  SMapBase_setitem mo (VInt 1) x ;;;
  let* e := SMapBase_getitem mo (VInt 1) in
  let* eo := as_lval e in
  let* before := SStructBase_getattr eo "a" in
  SStructBase_setattr xo "a" (VInt 5) ;;;
  let* e' := SMapBase_getitem mo (VInt 1) in
  let* eo' := as_lval e' in
  let* after := SStructBase_getattr eo' "a" in
  ret (before, after).

(** ** Example inputs *)

Definition always_sat (sv : Solver) : check_result := sat.
Definition no_reason (sv : Solver) : string := "".

(** A decision procedure that answers by the last assertion: [on_term]
    when it is a term, [on_negation] when it is a negation. *)
Definition by_last (on_term on_negation : check_result) (sv : Solver)
    : check_result :=
  match last (assertions sv) with
  | Some (Not _) => on_negation
  | Some _ => on_term
  | None => sat
  end.

(** A decision procedure that finds a path unsat when the literal
    [False] is among its assertions, and sat otherwise. *)
Definition refutes_false (sv : Solver) : check_result :=
  if existsb is_false (assertions sv) then unsat else sat.

Definition b_term : expr := Const "b" BoolSort.

Definition one_node_graph : Graph := mkGraph [new_GraphNode] [].

(** The first path of an exploration: only the root entry is scheduled. *)
Definition root_state : State :=
  start_path [(NoChoice, 0)] (set_curgraph one_node_graph initial_State).

(** A path replaying a schedule with one recorded True. *)
Definition replay_state : State :=
  start_path [(NoChoice, 0); (Choice true, 1)]
    (set_curgraph (mkGraph [new_GraphNode; new_GraphNode] []) initial_State).

(** The state [symbolic_apply] hands to the loop. *)
Definition primed_state : State :=
  set_schedq [[(NoChoice, 0)]] (set_curgraph one_node_graph initial_State).

(** [if b: return wrap("oops") else: return 2] *)
Definition branch_then_bad_wrap : M value :=
  let* b := SBool_nonzero (VSym SBool b_term) in
  if b then wrap (VStr "oops") else ret (VInt 2).

(** [assume(False)], after which the function would return [None]. *)
Definition assume_false : M value :=
  assume (VBool false) ;;;
  ret VNone.

Definition struct_P : cls := SStruct [("a", SInt); ("b", SBool)].

(** After [x = P.var('x'); y = P.var('y')]. *)
Definition two_structs : State :=
  snd ((var struct_P (Some "x") ;;; var struct_P (Some "y")) initial_State).

Definition sort_U : cls := SUninterpreted "U".

(** A model that evaluates everything to the value [U!val!0]. *)
Definition const_model : Model := mkModel [] (fun _ => UVal "U" 0) false [].

(** ** Notions for the further properties *)

(** Values that are not struct or map objects: [unwrap] of these reads
    no state. *)
Definition is_lvalue (v : value) : bool :=
  match v with VLval _ => true | _ => false end.

Definition unwrapped (v : value) : value :=
  match v with
  | VSym _ e => VZ3 e
  | _ => v
  end.

(** A compound sort with at least one Z3 sort in it. *)
Fixpoint has_leaf (s : csort) : bool :=
  match s with
  | SortLeaf _ => true
  | SortDict d =>
      (fix any (d : list (string * csort)) : bool :=
         match d with
         | [] => false
         | (_, v) :: d' => has_leaf v || any d'
         end) d
  end.

(** The graph after the node [n] was labelled with the return value. *)
Definition returned_graph (g : Graph) (n : nat) (rv : value) : Graph :=
  mkGraph (alter (fun nd => mkGraphNode [LValue rv] (_color nd)) n (nodes g))
          (edges g).

(** [if v: return r1 else: return r2] *)
Definition branch_on (v : expr) (r1 r2 : value) : M value :=
  let* b := SBool_nonzero (VSym SBool v) in
  ret (if b then r1 else r2).

(** [assume(v); return r] *)
Definition assume_then (v : expr) (r : value) : M value :=
  assume (VSym SBool v) ;;;
  ret r.

(** A computation that leaves every dictionary and cell of the store as
    it is; it may add dictionaries at the end of the store. *)
Definition allocates_only {A} (m : M A) : Prop :=
  forall s r s', m s = (r, s') ->
    (exists new, dicts s' = dicts s ++ new) /\ cells s' = cells s.

(** Whether an expression equal to [e] is among the recorded
    assignments. *)
Definition recorded (e : expr) (l : list (value * value)) : bool :=
  existsb (fun p => match fst p with
                    | VSym _ a => expr_eqb e a
                    | _ => false
                    end) l.

(** The model values [_eval] turns into a result. *)
Definition evaluates (z3val : expr) : bool :=
  is_int_value z3val || is_true z3val || is_false z3val
  || is_uninterpreted_sort (sort_of z3val).

(** What [_eval] returns for a model value it accepts. *)
Definition projected (c : cls) (z3val : expr) : value :=
  if is_int_value z3val then VInt (as_long z3val)
  else if is_true z3val then VBool true
  else if is_false z3val then VBool false
  else VSym c z3val.

(** ** Resolving the type of a constant *)

(** A pseudo-Symbolic type: a class, or for a Z3 array the pair of the
    pseudo-types of its index and of its value. *)
Inductive pseudo_type :=
| PType (c : cls)
| PArray (index value : pseudo_type).

(** [rec] of [SymbolicApplyResult.symbolic_type]; [const] is the name of
    the constant, for the message. *)
Fixpoint symbolic_type_rec (depth : nat) (const : string)
    (outer_type : cls) (path : list string) : outcome pseudo_type :=
  match depth with
  | O => Raise (RuntimeError "maximum recursion depth exceeded")
  | S depth' =>
      match is_SStructBase outer_type, path with
      | true, p0 :: rest =>
          match field_type outer_type p0 with
          | Some t => symbolic_type_rec depth' const t rest
          | None => Raise (KeyError p0)
          end
      | _, _ =>
          if is_SMapBase outer_type then
            match map_types outer_type with
            | Some (indexType, valueType) =>
                match symbolic_type_rec depth' const indexType [] with
                | Ret ri =>
                    match symbolic_type_rec depth' const valueType path with
                    | Ret rv => Ret (PArray ri rv)
                    | Raise e => Raise e
                    end
                | Raise e => Raise e
                end
            | None => Raise (AttributeError "_indexType")
            end
          else if is_SymbolicConst outer_type
                  && match path with [] => true | _ => false end
          then Ret (PType outer_type)
          else Raise (Exception ("Failed to resolve type of " +:+ const))
      end
  end.

(** [SymbolicApplyResult.symbolic_type], on the name of the constant. *)
Definition symbolic_type (self : SymbolicApplyResult) (const : string)
    : outcome pseudo_type :=
  match table_get (sar_const_types self) const with
  | Some (outer_type, path) =>
      symbolic_type_rec recursion_limit const outer_type path
  | None => Raise (KeyError const)
  end.

(** The nesting depth of a class. *)
Fixpoint cls_height (c : cls) : nat :=
  match c with
  | SConstMap i v | SMap i v => S (Nat.max (cls_height i) (cls_height v))
  | SStruct fs =>
      S (list_max (map (fun kt : string * cls => cls_height (snd kt)) fs))
  | SSynonym _ b => S (cls_height b)
  | _ => 0
  end.

(** The compound sort reached by following field names. *)
Fixpoint csort_at (s : csort) (path : list string) : option csort :=
  match path with
  | [] => Some s
  | k :: path' =>
      match s with
      | SortDict d =>
          match table_get d k with
          | Some s' => csort_at s' path'
          | None => None
          end
      | SortLeaf _ => None
      end
  end.

(** The Z3 sort a pseudo-type stands for. *)
Fixpoint pseudo_sort (t : pseudo_type) : option sort :=
  match t with
  | PType c =>
      match _z3_sort c with
      | Some (SortLeaf z) => Some z
      | _ => None
      end
  | PArray i v =>
      match pseudo_sort i, pseudo_sort v with
      | Some si, Some sv => Some (ArraySort si sv)
      | _, _ => None
      end
  end.

(** ** Example inputs for the further properties *)

(** [const_model] with assignment tracking on. *)
Definition tracking_model : Model :=
  mkModel [] (fun _ => UVal "U" 0) true [].

Definition int_map : cls := SMap SInt SInt.

(** After [m = M.var('m')] for [M = tmap(SInt, SInt)]. *)
Definition one_map : State :=
  snd (Symbolic_var int_map (Some "m") None initial_State).

(** A result that records the constant [y.f.a] of a variable [y] of
    class [struct_T]. *)
Definition typed_result : SymbolicApplyResult :=
  mkSymbolicApplyResult VNone [] [] [("y.f.a", (struct_T, ["f"; "a"]))].

(** ** Notions for writes through a map element *)

(** A Z3 array whose index sort is [dom]. *)
Definition array_over (dom : sort) (v : value) : Prop :=
  exists a rng, v = VZ3 a /\ sort_of a = ArraySort dom rng.

(** The element at [ei] of a leaf of a map's compound. *)
Definition select_at (ei : expr) (v : value) : value :=
  match v with
  | VZ3 a => VZ3 (Select a ei)
  | _ => v
  end.

(** The leaf [kv] of a map's compound after the field [name] of the
    element at [ei] was set to [ev]: every field's array is stored into,
    the other fields with their own former element. *)
Definition store_at (name : string) (ei ev : expr) (kv : string * value)
    : string * value :=
  (fst kv,
   match snd kv with
   | VZ3 a => VZ3 (Store a ei (if String.eqb (fst kv) name then ev
                               else Select a ei))
   | v => v
   end).

(** After [m = M.var('m')] for [M = tmap(SInt, S)], [S] the struct with
    the one field [a]. *)
Definition struct_map : State :=
  snd (Symbolic_var map_M (Some "m") None initial_State).

(** A struct with a map in its field [m], and the state after
    [w = W.var('w')]. *)
Definition struct_W : cls := SStruct [("m", int_map)].

Definition map_holder : State :=
  snd (var struct_W (Some "w") initial_State).

(** ** Compounds in the store

    The compound a value denotes in a store of dictionaries, as a tree:
    a leaf is a value that is not a dictionary, a node a dictionary with
    its items in the order the dictionary iterates. *)
#[warnings="-register-all"]
Inductive tree :=
| Leaf (v : value)
| Node (items : list (string * tree)).

Definition is_dict (v : value) : bool :=
  match v with VDict _ => true | _ => false end.

#[warnings="-register-all"]
Inductive compound (ds : list dict) : tree -> value -> Prop :=
| compound_leaf v :
    is_dict v = false -> compound ds (Leaf v) v
| compound_node l (d : dict) ts :
    ds !! l = Some d ->
    Forall2 (fun (kt : string * tree) (kv : string * value) =>
               fst kt = fst kv /\ compound ds (snd kt) (snd kv)) ts d ->
    compound ds (Node ts) (VDict l).

(** The leaves of a compound, left to right. *)
Fixpoint leaves (t : tree) : list value :=
  match t with
  | Leaf v => [v]
  | Node ts => flat_map (fun kt : string * tree => leaves (snd kt)) ts
  end.

Fixpoint tree_height (t : tree) : nat :=
  match t with
  | Leaf _ => 0
  | Node ts =>
      S (list_max (map (fun kt : string * tree => tree_height (snd kt)) ts))
  end.

(** The element at [z3idx] of a compound of arrays. *)
Definition select_leaf (z3idx v : value) : option value :=
  match v with
  | VZ3 a =>
      match sort_of a with
      | ArraySort d _ =>
          match z3_cast d z3idx with
          | Some ei => Some (VZ3 (Select a ei))
          | None => None
          end
      | _ => None
      end
  | _ => None
  end.

Fixpoint tree_select (z3idx : value) (t : tree) : option tree :=
  match t with
  | Leaf v => option_map Leaf (select_leaf z3idx v)
  | Node ts =>
      option_map Node
        ((fix go (ts : list (string * tree)) : option (list (string * tree)) :=
            match ts with
            | [] => Some []
            | (k, t') :: ts' =>
                match tree_select z3idx t', go ts' with
                | Some r, Some rs => Some ((k, r) :: rs)
                | _, _ => None
                end
            end) ts)
  end.

(** The compound an lvalue's getter reads in a state: the contents of a
    cell, a field of the parent's compound, or the elements at an index
    of the parent's compound of arrays (within the recursion limit). *)
Inductive handle_holds (s : State) : handle -> tree -> Prop :=
| holds_cell i v t :
    cells s !! i = Some v ->
    compound (dicts s) t v ->
    handle_holds s (HCell i) t
| holds_field c hp m name ts t :
    handle_holds s hp (Node ts) ->
    table_get ts name = Some t ->
    handle_holds s (HField (Lval c hp m) name) t
| holds_index c hp m idx z3idx t0 t :
    handle_holds s hp t0 ->
    tree_select z3idx t0 = Some t ->
    tree_height t0 < recursion_limit ->
    handle_holds s (HIndex (Lval c hp m) idx z3idx) t.

(** ** Equality of compounds, as the specification words it

    The equality of two leaves: a term over the two when one of them is
    a Z3 term (the other cast to its sort; a concrete left operand leaves
    the comparison to the term on the right, which comes first then), a
    boolean when both are concrete. *)
Definition leaf_equality (af bf : value) : option value :=
  match af, bf with
  | VZ3 x, (VZ3 _ | VBool _ | VInt _) =>
      option_map (fun y => VSym SBool (Eq x y)) (z3_cast (sort_of x) bf)
  | (VBool _ | VInt _), VZ3 y =>
      option_map (fun x => VSym SBool (Eq y x)) (z3_cast (sort_of y) af)
  | (VBool _ | VInt _), (VBool _ | VInt _) =>
      Some (VBool (Z.eqb (as_int af) (as_int bf)))
  | _, _ => None
  end.

(** The equalities of the leaves taken in pairs, as far as both lists
    go. *)
Fixpoint pointwise (la lb : list value) : option (list value) :=
  match la, lb with
  | af :: la', bf :: lb' =>
      match leaf_equality af bf, pointwise la' lb' with
      | Some r, Some rs => Some (r :: rs)
      | _, _ => None
      end
  | _, _ => Some []
  end.

Definition bool_term (v : value) : expr :=
  match v with
  | VSym _ e => e
  | VBool b => BoolVal b
  | _ => BoolVal false
  end.

(** The conjunction of equalities: the term [And] over all of them when
    one at least is a term, their conjunction as booleans otherwise. *)
Definition conjunction (eqs : list value) : value :=
  if existsb is_Symbolic eqs then VSym SBool (And (map bool_term eqs))
  else VBool (forallb truthy eqs).

Definition negation (v : value) : value :=
  match v with
  | VSym _ e => VSym SBool (Not e)
  | VBool b => VBool (negb b)
  | _ => v
  end.

(** A struct with a struct in its field [p], and the state after
    [x = N.var('x'); y = N.var('y'); x.n = 5]. *)
Definition struct_N : cls := SStruct [("p", struct_P); ("n", SInt)].

Definition nested_structs : State :=
  snd ((var struct_N (Some "x") ;;;
        var struct_N (Some "y") ;;;
        SStructBase_setattr (Lval struct_N (HCell 0) None) "n" (VInt 5))
         initial_State).

(** After [x = S.var('x'); y = S.var('y'); z = S.var('z')] and
    [x.a = 5; y.a = 5; z.a = 6]. *)
Definition concrete_structs : State :=
  snd ((var struct_S (Some "x") ;;;
        var struct_S (Some "y") ;;;
        var struct_S (Some "z") ;;;
        SStructBase_setattr (Lval struct_S (HCell 0) None) "a" (VInt 5) ;;;
        SStructBase_setattr (Lval struct_S (HCell 1) None) "a" (VInt 5) ;;;
        SStructBase_setattr (Lval struct_S (HCell 2) None) "a" (VInt 6))
         initial_State).

(** * Properties *)

Lemma State_eq (s1 s2 : State) :
  solver s1 = solver s2 ->
  schedq s1 = schedq s2 ->
  curgraph s1 = curgraph s2 ->
  cursched s1 = cursched s2 ->
  curschedidx s1 = curschedidx s2 ->
  var_constructors s1 = var_constructors s2 ->
  constTypes s1 = constTypes s2 ->
  anon_idx s1 = anon_idx s2 ->
  dicts s1 = dicts s2 ->
  cells s1 = cells s2 ->
  models s1 = models s2 ->
  stdout s1 = stdout s2 ->
  shown s1 = shown s2 ->
  s1 = s2.
Proof.
  destruct s1, s2; simpl; intros; subst; reflexivity.
Qed.

Lemma pop_push_add sv t :
  assertions (after_direction sv t) = assertions sv
  /\ scopes (after_direction sv t) = scopes sv.
Proof.
  unfold after_direction, pop, note_check, add, push; simpl.
  split; [|reflexivity].
  by rewrite take_app_length.
Qed.

Lemma check_direction_spec t s sv :
  solver s = Some sv ->
  check_direction t s
  = (Ret (direction_answer sv t), set_solver (Some (after_direction sv t)) s).
Proof.
  intros Hs.
  unfold check_direction, solver_push, solver_add_expr, solver_check,
    solver_pop, on_solver, get_solver, isolated_check, solver_assertions,
    get_solver, bind, gets, modify, ret, direction_answer, with_retry,
    after_direction.
  rewrite Hs; simpl.
  destruct (z3_check (add t (push sv))); reflexivity.
Qed.

(** ** Replay *)

Lemma count_checks_add e ops :
  count_checks (ops ++ [OpAdd e]) = count_checks ops.
Proof.
  unfold count_checks.
  rewrite List.filter_app; simpl. by rewrite app_nil_r.
Qed.

(** C4: while the schedule index is below the schedule length, observing
    a symbolic boolean makes no solver check: it asserts the term for a
    recorded True, its negation for a recorded False, advances the index
    by one and returns the recorded boolean; a recorded uncheckable marker
    is raised at once.  An entry recorded by [assume] is none of these:
    the code means to raise RuntimeError, but formatting its message
    fails, and what is raised is TypeError.  Schedule and queue are left
    as they are. *)
Theorem C4_replay_follows_schedule c v s sv rv n :
  solver s = Some sv ->
  curschedidx s < length (cursched s) ->
  cursched s !! curschedidx s = Some (rv, n) ->
  match rv with
  | Choice b =>
      SBool_nonzero (VSym c v) s
      = (Ret b,
         set_curschedidx (curschedidx s + 1)
           (set_solver (Some (add (if b then v else Not v) sv)) s))
  | Uncheckable e reason =>
      SBool_nonzero (VSym c v) s
      = (Raise (UncheckableConstraintError e reason), s)
  | NoChoice =>
      SBool_nonzero (VSym c v) s
      = (Raise (TypeError
                  "not all arguments converted during string formatting"), s)
  end
  /\ (forall r s', SBool_nonzero (VSym c v) s = (r, s') ->
        (checks_made s' = checks_made s
         /\ cursched s' = cursched s /\ schedq s' = schedq s)).
Proof.
  intros Hs Hlt Hentry.
  assert (Hne : Nat.eqb (length (cursched s)) (curschedidx s) = false)
    by (apply Nat.eqb_neq; lia).
  assert (Hrun :
    SBool_nonzero (VSym c v) s = follow_schedule v s).
  { unfold SBool_nonzero, get_solver, bind, gets, ret.
    rewrite Hs; simpl. by rewrite Hne. }
  rewrite Hrun.
  unfold follow_schedule, bind, gets, ret, solver_add_expr, on_solver,
    get_solver, bind, gets, modify, raise, ret.
  rewrite Hentry.
  split.
  - destruct rv as [[|]| |e reason]; simpl; rewrite ?Hs; reflexivity.
  - intros r s' Heq. unfold checks_made.
    destruct rv as [[|]| |e reason]; simpl in Heq; rewrite ?Hs in Heq;
      inversion Heq; subst; simpl;
      rewrite ?Hs; simpl; rewrite ?count_checks_add; done.
Qed.

(** ** Extension of the schedule *)

Lemma bind_Ret {A B} (m : M A) (k : A -> M B) s a s' :
  m s = (Ret a, s') -> bind m k s = k a s'.
Proof. unfold bind. by intros ->. Qed.

Lemma bind_Raise {A B} (m : M A) (k : A -> M B) s e s' :
  m s = (Raise e, s') -> bind m k s = (Raise e, s').
Proof. unfold bind. by intros ->. Qed.

Lemma last_node_spec s ch n :
  last (cursched s) = Some (ch, n) -> last_node s = (Ret n, s).
Proof.
  intros H. unfold last_node, bind, gets, ret. by rewrite H.
Qed.

Lemma extend_schedule_spec self v s sv ch gnode :
  solver s = Some sv ->
  last (cursched s) = Some (ch, gnode) ->
  let sv1 := after_direction sv v in
  let sv2 := after_direction sv1 (Not v) in
  let t := direction_answer sv v in
  let f := direction_answer sv1 (Not v) in
  let s2 := set_solver (Some sv2) s in
  let tnode := length (nodes (curgraph s)) in
  extend_schedule self v s =
  match fst t, fst f with
  | unsat, unsat => (Raise (RuntimeError "Branch contradiction"), s2)
  | sat, unsat =>
      (Ret tt, set_cursched (cursched s ++ [(Choice true, gnode)]) s2)
  | unsat, sat =>
      (Ret tt, set_cursched (cursched s ++ [(Choice false, gnode)]) s2)
  | _, _ =>
      (Ret tt,
       set_schedq (schedq s ++ [cursched s ++ [clone_entry v f (S tnode)]])
         (set_cursched (cursched s ++ [current_entry v t tnode])
            (set_curgraph (fork_graph (curgraph s) gnode self) s2)))
  end.
Proof.
  intros Hs Hlast sv1 sv2 t f s2 tnode.
  unfold extend_schedule.
  rewrite (bind_Ret _ _ _ _ _ (check_direction_spec v s sv Hs)).
  rewrite (bind_Ret _ _ _ _ _
             (check_direction_spec (Not v)
                (set_solver (Some sv1) s) sv1 eq_refl)).
  fold t f. unfold current_entry, clone_entry.
  assert (Hl : last_node (set_solver (Some sv2)
                 (set_solver (Some sv1) s)) = (Ret gnode, s2))
    by (unfold last_node, bind, gets, ret; simpl; by rewrite Hlast).
  destruct (fst t), (fst f);
    try (rewrite (bind_Ret _ _ _ _ _ Hl)); try reflexivity.
  all: unfold fork_graph, tnode, s2, set_label, alter_node, Graph_new_node,
         Graph_new_edge, cursched_append, queue_schedule, bind, gets, modify,
         ret; simpl; rewrite ?length_app, ?length_alter; simpl;
       rewrite <- ?app_assoc; simpl;
       rewrite ?Nat.add_1_r;
       (f_equal; apply State_eq; reflexivity).
Qed.

Lemma follow_schedule_spec v s sv rv n :
  solver s = Some sv ->
  cursched s !! curschedidx s = Some (rv, n) ->
  follow_schedule v s =
  match rv with
  | Choice b =>
      (Ret b,
       set_curschedidx (curschedidx s + 1)
         (set_solver (Some (add (if b then v else Not v) sv)) s))
  | Uncheckable e reason => (Raise (UncheckableConstraintError e reason), s)
  | NoChoice =>
      (Raise (TypeError
                "not all arguments converted during string formatting"), s)
  end.
Proof.
  intros Hs Hentry.
  unfold follow_schedule, bind, gets, ret, solver_add_expr, on_solver,
    get_solver, bind, gets, modify, raise, ret.
  rewrite Hentry.
  destruct rv as [[|]| |e reason]; simpl; rewrite ?Hs; reflexivity.
Qed.

Lemma nonzero_at_end c v s sv :
  solver s = Some sv ->
  length (cursched s) = curschedidx s ->
  SBool_nonzero (VSym c v) s
  = bind (extend_schedule (VSym c v) v) (fun _ => follow_schedule v) s.
Proof.
  intros Hs Hlen.
  unfold SBool_nonzero.
  unfold get_solver at 1. unfold bind at 1 2 3, gets, ret.
  rewrite Hs; simpl. unfold bind at 1, gets; simpl.
  unfold bind at 1. simpl.
  by rewrite Hlen, Nat.eqb_refl.
Qed.

(** C1: at the end of the schedule both directions are checked, an
    unknown answer being retried in a fresh solver holding the same
    assertions.  Both unsat: the branch-contradiction error.  One sat and
    the other unsat: that choice is appended to the current schedule and
    nothing is enqueued.  Both sat, or one sat and the other unknown: the
    current schedule records the True direction (True when it is sat, its
    marker otherwise), and a clone of the schedule up to this point, with
    the False direction appended (False when it is sat, its marker
    otherwise), is put at the end of the queue. *)
Theorem C1_extension_case_analysis c v s sv ch gnode :
  solver s = Some sv ->
  length (cursched s) = curschedidx s ->
  last (cursched s) = Some (ch, gnode) ->
  let sv1 := after_direction sv v in
  let sv2 := after_direction sv1 (Not v) in
  let t := direction_answer sv v in
  let f := direction_answer sv1 (Not v) in
  let tnode := length (nodes (curgraph s)) in
  let fnode := S tnode in
  let r := fst (SBool_nonzero (VSym c v) s) in
  let s' := snd (SBool_nonzero (VSym c v) s) in
  match fst t, fst f with
  | unsat, unsat =>
      r = Raise (RuntimeError "Branch contradiction")
      /\ cursched s' = cursched s /\ schedq s' = schedq s
  | sat, unsat =>
      r = Ret true
      /\ cursched s' = cursched s ++ [(Choice true, gnode)]
      /\ schedq s' = schedq s
      /\ curschedidx s' = curschedidx s + 1
      /\ solver s' = Some (add v sv2)
  | unsat, sat =>
      r = Ret false
      /\ cursched s' = cursched s ++ [(Choice false, gnode)]
      /\ schedq s' = schedq s
      /\ curschedidx s' = curschedidx s + 1
      /\ solver s' = Some (add (Not v) sv2)
  | sat, sat =>
      r = Ret true
      /\ cursched s' = cursched s ++ [(Choice true, tnode)]
      /\ schedq s' = schedq s ++ [cursched s ++ [(Choice false, fnode)]]
      /\ curschedidx s' = curschedidx s + 1
      /\ solver s' = Some (add v sv2)
  | sat, unknown =>
      r = Ret true
      /\ cursched s' = cursched s ++ [(Choice true, tnode)]
      /\ schedq s'
         = schedq s ++ [cursched s ++ [(Uncheckable (Not v) (snd f), fnode)]]
      /\ curschedidx s' = curschedidx s + 1
      /\ solver s' = Some (add v sv2)
  | unknown, sat =>
      r = Raise (UncheckableConstraintError v (snd t))
      /\ cursched s' = cursched s ++ [(Uncheckable v (snd t), tnode)]
      /\ schedq s' = schedq s ++ [cursched s ++ [(Choice false, fnode)]]
  | _, _ => True
  end.
Proof.
  intros Hs Hlen Hlast sv1 sv2 t f tnode fnode r s'.
  subst r s'.
  assert (Hrun : SBool_nonzero (VSym c v) s
            = match extend_schedule (VSym c v) v s with
              | (Ret _, s1) => follow_schedule v s1
              | (Raise e, s1) => (Raise e, s1)
              end)
    by (rewrite (nonzero_at_end c v s sv Hs Hlen); reflexivity).
  rewrite Hrun. clear Hrun.
  pose proof (extend_schedule_spec (VSym c v) v s sv ch gnode Hs Hlast) as He.
  cbv zeta in He. fold sv1 sv2 t f tnode in He.
  rewrite He. clear He.
  unfold clone_entry, current_entry.
  destruct (fst t) eqn:Ht, (fst f) eqn:Hf; try exact I; try (simpl; done);
    (erewrite (follow_schedule_spec v)
       by first [reflexivity
                | simpl; rewrite <- Hlen; by apply list_lookup_middle]);
    simpl; rewrite ?Hlen; done.
Qed.

(** C9 (as amended): when one direction checks unknown, also after the
    retry in isolation, and the other unsat, the engine still forks.  The
    current schedule receives the marker of the True direction and the
    clone put on the queue that of the False direction, so the current
    path raises the uncheckable-constraint error at this decision point
    and the clone raises it when it is replayed up to there.  The
    direction found unsat is the clone's when it is False and the current
    path's when it is True; it is not pruned in either case. *)
Theorem C9_unknown_unsat_still_forks c v s sv ch gnode :
  solver s = Some sv ->
  length (cursched s) = curschedidx s ->
  last (cursched s) = Some (ch, gnode) ->
  let sv1 := after_direction sv v in
  let t := direction_answer sv v in
  let f := direction_answer sv1 (Not v) in
  let tnode := length (nodes (curgraph s)) in
  let fnode := S tnode in
  let r := fst (SBool_nonzero (VSym c v) s) in
  let s' := snd (SBool_nonzero (VSym c v) s) in
  let clone := cursched s ++ [(Uncheckable (Not v) (snd f), fnode)] in
  (fst t = unknown /\ fst f = unsat) \/ (fst t = unsat /\ fst f = unknown) ->
  r = Raise (UncheckableConstraintError v (snd t))
  /\ cursched s' = cursched s ++ [(Uncheckable v (snd t), tnode)]
  /\ schedq s' = schedq s ++ [clone]
  /\ (forall c' v' st svx,
        solver st = Some svx ->
        cursched st = clone ->
        curschedidx st = length (cursched s) ->
        SBool_nonzero (VSym c' v') st
        = (Raise (UncheckableConstraintError (Not v) (snd f)), st)).
Proof.
  intros Hs Hlen Hlast sv1 t f tnode fnode r s' clone Hcase.
  assert (Hrun : r = Raise (UncheckableConstraintError v (snd t))
            /\ cursched s' = cursched s ++ [(Uncheckable v (snd t), tnode)]
            /\ schedq s' = schedq s ++ [clone]).
  { subst r s'.
    assert (Hrun : SBool_nonzero (VSym c v) s
              = match extend_schedule (VSym c v) v s with
                | (Ret _, s1) => follow_schedule v s1
                | (Raise e, s1) => (Raise e, s1)
                end)
      by (rewrite (nonzero_at_end c v s sv Hs Hlen); reflexivity).
    rewrite Hrun. clear Hrun.
    pose proof (extend_schedule_spec (VSym c v) v s sv ch gnode Hs Hlast)
      as He.
    cbv zeta in He. fold sv1 t f tnode in He.
    rewrite He. clear He.
    unfold clone_entry, current_entry.
    destruct Hcase as [[Ht Hf]|[Ht Hf]]; rewrite Ht, Hf;
      (erewrite (follow_schedule_spec v)
         by first [reflexivity
                  | simpl; rewrite <- Hlen; by apply list_lookup_middle]);
      simpl; done. }
  destruct Hrun as (Hr & Hc & Hq).
  repeat split; try assumption.
  intros c' v' st svx Hst Hsched Hidx.
  assert (Hne : Nat.eqb (length (cursched st)) (curschedidx st) = false).
  { apply Nat.eqb_neq. rewrite Hsched, Hidx. unfold clone.
    rewrite length_app; simpl; lia. }
  assert (Hfollow : SBool_nonzero (VSym c' v') st = follow_schedule v' st).
  { unfold SBool_nonzero, get_solver, bind, gets, ret.
    rewrite Hst; simpl. by rewrite Hne. }
  rewrite Hfollow.
  assert (Hlk : cursched st !! curschedidx st
                = Some (Uncheckable (Not v) (snd f), fnode))
    by (rewrite Hsched, Hidx; unfold clone; by apply list_lookup_middle).
  by rewrite (follow_schedule_spec v' st svx _ _ Hst Hlk).
Qed.

(** ** The schedule queue *)

Lemma loop_pops_last fn s rest sched fuel :
  schedq s = rest ++ [sched] ->
  symbolic_apply_loop (S fuel) fn s
  = match loop_iteration fn sched (set_schedq rest s) with
    | (_, Some e, s') => ([], Escaped e, s')
    | (osar, None, s') =>
        let '(sars, fin, s'') := symbolic_apply_loop fuel fn s' in
        (match osar with
         | Some sar => sar :: sars
         | None => sars
         end, fin, s'')
    end.
Proof.
  intros Hq.
  assert (Hpop : schedq_pop (schedq s) = Some (sched, rest))
    by (unfold schedq_pop; by rewrite Hq, last_snoc, removelast_last).
  change (symbolic_apply_loop (S fuel) fn s)
    with (match schedq_pop (schedq s) with
          | None => ([], Exhausted, s)
          | Some (sched, rest) =>
              match loop_iteration fn sched (set_schedq rest s) with
              | (_, Some e, s') => ([], Escaped e, s')
              | (osar, None, s') =>
                  let '(sars, fin, s'') := symbolic_apply_loop fuel fn s' in
                  (match osar with
                   | Some sar => sar :: sars
                   | None => sars
                   end, fin, s'')
              end
          end).
  by rewrite Hpop.
Qed.


(** C10: [queue_schedule] appends at the end of [schedq] and the loop
    takes its next schedule from that same end, so of two schedules
    enqueued one after the other the later one is run first. *)
Theorem C10_schedq_is_a_stack (a b : schedule) (fn : M value) (s : State)
    (fuel : nat) :
  let s2 := snd ((queue_schedule a ;;; queue_schedule b) s) in
  schedq s2 = schedq s ++ [a; b]
  /\ schedq_pop (schedq s2) = Some (b, schedq s ++ [a])
  /\ symbolic_apply_loop (S fuel) fn s2
     = match loop_iteration fn b (set_schedq (schedq s ++ [a]) s2) with
       | (_, Some e, s') => ([], Escaped e, s')
       | (osar, None, s') =>
           let '(sars, fin, s'') := symbolic_apply_loop fuel fn s' in
           (match osar with
            | Some sar => sar :: sars
            | None => sars
            end, fin, s'')
       end.
Proof.
  intros s2.
  assert (Hq : schedq s2 = schedq s ++ [a; b]).
  { unfold s2, queue_schedule, bind, modify; simpl.
    by rewrite <- app_assoc. }
  assert (Hpop : schedq_pop (schedq s2) = Some (b, schedq s ++ [a])).
  { rewrite Hq. unfold schedq_pop.
    replace (schedq s ++ [a; b]) with ((schedq s ++ [a]) ++ [b])
      by (by rewrite <- app_assoc).
    by rewrite last_snoc, removelast_last. }
  repeat split; try assumption.
  apply loop_pops_last. rewrite Hq. by rewrite <- app_assoc.
Qed.

(** ** Assumptions *)

Lemma get_solver_spec s sv :
  solver s = Some sv -> get_solver s = (Ret sv, s).
Proof. intros H. unfold get_solver, bind, gets, ret. by rewrite H. Qed.

Lemma on_solver_spec f s sv :
  solver s = Some sv ->
  on_solver f s = (Ret tt, set_solver (Some (f sv)) s).
Proof.
  intros H. unfold on_solver.
  by rewrite (bind_Ret _ _ _ _ _ (get_solver_spec s sv H)).
Qed.

Lemma solver_check_spec s sv :
  solver s = Some sv ->
  solver_check s
  = (Ret (z3_check sv, z3_reason_unknown sv),
     set_solver (Some (note_check sv)) s).
Proof.
  intros H. unfold solver_check.
  rewrite (bind_Ret _ _ _ _ _ (get_solver_spec s sv H)).
  by rewrite (bind_Ret _ _ _ _ _ (on_solver_spec note_check s sv H)).
Qed.

Lemma isolated_check_spec s sv :
  solver s = Some sv ->
  isolated_check s
  = (Ret (z3_check (add_all (assertions sv) new_Solver),
          z3_reason_unknown (add_all (assertions sv) new_Solver)), s).
Proof.
  intros H. unfold isolated_check, solver_assertions.
  unfold bind. rewrite (get_solver_spec s sv H).
  reflexivity.
Qed.

Lemma note_assumption_at_end e s ch gnode :
  last (cursched s) = Some (ch, gnode) ->
  length (cursched s) = curschedidx s ->
  note_assumption e s
  = (Ret tt,
     set_cursched
       (cursched s
        ++ [(NoChoice,
              length (alter (fun nd => mkGraphNode [LValue e; LCaller]
                                         (_color nd))
                        gnode (nodes (curgraph s))))])
       (set_curgraph
          (mkGraph
             (alter (fun nd => mkGraphNode [LValue e; LCaller] (_color nd))
                gnode (nodes (curgraph s)) ++ [new_GraphNode])
             (edges (curgraph s)
              ++ [(gnode,
                    length (alter (fun nd => mkGraphNode [LValue e; LCaller]
                                               (_color nd))
                              gnode (nodes (curgraph s))),
                    "")]))
          s)).
Proof.
  intros Hlast Hlen.
  assert (Hnz : Nat.eqb (length (cursched s)) 0 = false).
  { apply Nat.eqb_neq. intros H0.
    apply length_zero_iff_nil in H0. rewrite H0 in Hlast. discriminate. }
  unfold note_assumption.
  unfold bind at 1, gets at 1. unfold bind at 1, gets at 1.
  rewrite Hlen, Nat.eqb_refl. rewrite <- Hlen, Hnz.
  rewrite (bind_Ret _ _ _ _ _ (last_node_spec s ch gnode Hlast)).
  unfold set_label, alter_node, Graph_new_node, Graph_new_edge,
    cursched_append, bind, modify; simpl.
  reflexivity.
Qed.

Lemma note_assumption_replay e s :
  curschedidx s < length (cursched s) ->
  note_assumption e s = (Ret tt, s).
Proof.
  intros Hlt.
  assert (Hne : Nat.eqb (length (cursched s)) (curschedidx s) = false)
    by (apply Nat.eqb_neq; lia).
  unfold note_assumption, bind, gets. by rewrite Hne.
Qed.

Lemma assumption_steps e ne pe :
  assumption_terms e = Some (ne, pe) ->
  exists nv uv,
    (forall st, symnot e st = (Ret nv, st))
    /\ (forall st, (let* une := unwrap nv in solver_add une) st
                   = solver_add_expr ne st)
    /\ (forall st, unwrap e st = (Ret uv, st))
    /\ (forall st, solver_add uv st = solver_add_expr pe st)
    /\ (forall reason st,
          match uv with
          | VZ3 x => raise (A:=unit) (UncheckableConstraintError x reason)
          | _ => raise (Z3Exception "Z3 expression expected")
          end st = (Raise (uncheckable e reason), st)).
Proof.
  destruct e as [| |b| | | | |c v| |]; try discriminate; cbn [assumption_terms].
  - intros [= <- <-]. exists (VBool (negb b)), (VBool b).
    repeat split; reflexivity.
  - destruct (sort_of v) eqn:Hsort; try discriminate.
    intros [= <- <-]. exists (VSym SBool (Not v)), (VZ3 v).
    split; [|split; [|split; [|split]]]; intros; try reflexivity.
    + unfold symnot, unwrap, z3_Not, z3_bool, z3_cast, wrap, _wrap,
        _wrap_with, bind, ret; simpl. by rewrite Hsort.
    + unfold solver_add, z3_bool, z3_cast. by rewrite Hsort.
Qed.

Lemma assert_assumption_spec e ne pe s sv n :
  solver s = Some sv ->
  assumption_terms e = Some (ne, pe) ->
  cursched s !! curschedidx s = Some (NoChoice, n) ->
  exists s',
    assert_assumption e s
    = (match fst (with_retry (add pe sv)) with
       | sat => Ret tt
       | unsat => Raise UnsatisfiablePath
       | unknown => Raise (uncheckable e (snd (with_retry (add pe sv))))
       end, s')
    /\ solver s' = Some (note_check (add pe sv))
    /\ schedq s' = schedq s
    /\ curschedidx s' = curschedidx s + 1
    /\ cursched s' = cursched s.
Proof.
  intros Hs Hterms Hlk.
  destruct (assumption_steps e ne pe Hterms)
    as (nv & uv & _ & _ & Hunwrap & Hadd & Herr).
  unfold assert_assumption.
  unfold bind at 1, gets at 1. unfold bind at 1, gets at 1.
  rewrite Hlk.
  unfold bind at 1, modify at 1.
  set (s1 := set_curschedidx (curschedidx s + 1) s).
  rewrite (bind_Ret _ _ _ _ _ (Hunwrap s1)).
  assert (Hadd1 : solver_add uv s1
                  = (Ret tt, set_solver (Some (add pe sv)) s1)).
  { rewrite Hadd. unfold solver_add_expr. by apply on_solver_spec. }
  rewrite (bind_Ret _ _ _ _ _ Hadd1).
  rewrite (bind_Ret _ _ _ _ _
             (solver_check_spec (set_solver (Some (add pe sv)) s1)
                (add pe sv) eq_refl)).
  cbn [fst snd]. unfold with_retry.
  destruct (z3_check (add pe sv)) eqn:Hc; cbn [fst snd].
  - eexists. split; [reflexivity|]. by repeat split.
  - eexists. split; [reflexivity|]. by repeat split.
  - rewrite (bind_Ret _ _ _ _ _
               (isolated_check_spec
                  (set_solver (Some (note_check (add pe sv)))
                     (set_solver (Some (add pe sv)) s1))
                  (note_check (add pe sv)) eq_refl)).
    change (assertions (note_check (add pe sv)))
      with (assertions (add pe sv)).
    cbn [fst snd].
    destruct (z3_check (add_all (assertions (add pe sv)) new_Solver)) eqn:Hc2.
    + eexists. split; [reflexivity|]. by repeat split.
    + eexists. split; [reflexivity|]. by repeat split.
    + rewrite (bind_Ret _ _ _ _ _ (Hunwrap _)), Herr.
      eexists. split; [reflexivity|]. by repeat split.
Qed.

Lemma symnot_SBool c v s :
  sort_of v = BoolSort ->
  symnot (VSym c v) s = (Ret (VSym SBool (Not v)), s).
Proof.
  intros Hsort.
  unfold symnot, unwrap, z3_Not, z3_bool, z3_cast, wrap, _wrap, _wrap_with,
    bind, ret; simpl.
  by rewrite Hsort.
Qed.

Lemma assume_spec_gen e ne pe s sv ch gnode :
  solver s = Some sv ->
  assumption_terms e = Some (ne, pe) ->
  e <> VBool true ->
  last (cursched s) = Some (ch, gnode) ->
  (curschedidx s = length (cursched s)
   \/ exists n, cursched s !! curschedidx s = Some (NoChoice, n)) ->
  let sv1 := after_direction sv ne in
  let r := fst (assume e s) in
  let s' := snd (assume e s) in
  match z3_check (add ne (push sv)) with
  | unsat =>
      r = Ret tt
      /\ cursched s' = cursched s
      /\ curschedidx s' = curschedidx s
      /\ schedq s' = schedq s
      /\ solver_view s' = solver_view s
  | _ =>
      cursched s'
      = (if Nat.eqb (length (cursched s)) (curschedidx s)
         then cursched s ++ [(NoChoice, length (nodes (curgraph s)))]
         else cursched s)
      /\ curschedidx s' = curschedidx s + 1
      /\ schedq s' = schedq s
      /\ solver_view s' = Some (assertions sv ++ [pe], scopes sv)
      /\ r = match fst (with_retry (add pe sv1)) with
             | sat => Ret tt
             | unsat => Raise UnsatisfiablePath
             | unknown =>
                 Raise (uncheckable e (snd (with_retry (add pe sv1))))
             end
  end.
Proof.
  intros Hs Hterms Hnt Hlast Hidx sv1 r s'. subst r s'.
  destruct (pop_push_add sv ne) as [Ha Hsc]. fold sv1 in Ha, Hsc.
  destruct (assumption_steps e ne pe Hterms)
    as (nv & uv & Hnot & Hnadd & _).
  assert (Hhead :
    assume e s
    = match z3_check (add ne (push sv)) with
      | unsat => (Ret tt, set_solver (Some sv1) s)
      | _ => bind (note_assumption e) (fun _ => assert_assumption e)
               (set_solver (Some sv1) s)
      end).
  { assert (Hbody :
      (let* _ := get_solver in
       solver_push ;;;
       let* ne' := symnot e in
       let* une := unwrap ne' in
       solver_add une ;;;
       let* r := solver_check in
       solver_pop ;;;
       match fst r with
       | unsat => ret tt
       | _ => note_assumption e ;;; assert_assumption e
       end) s
      = match z3_check (add ne (push sv)) with
        | unsat => (Ret tt, set_solver (Some sv1) s)
        | _ => bind (note_assumption e) (fun _ => assert_assumption e)
                 (set_solver (Some sv1) s)
        end).
    { rewrite (bind_Ret _ _ s sv s (get_solver_spec s sv Hs)).
      rewrite (bind_Ret _ _ s tt _ (on_solver_spec push s sv Hs)).
      rewrite (bind_Ret _ _ _ _ _ (Hnot _)).
      set (sp := set_solver (Some (push sv)) s).
      assert (Hstep : forall (k : M unit),
                (let* une := unwrap nv in solver_add une ;;; k) sp
                = k (set_solver (Some (add ne (push sv))) s)).
      { intros k.
        pose proof (Hnadd sp) as Hn. unfold bind in Hn |- *.
        destruct (unwrap nv sp) as [[une|x] sq] eqn:Hu.
        - rewrite Hn. unfold solver_add_expr.
          by rewrite (on_solver_spec (add ne) sp (push sv) eq_refl).
        - unfold solver_add_expr in Hn.
          rewrite (on_solver_spec (add ne) sp (push sv) eq_refl) in Hn.
          discriminate. }
      rewrite Hstep.
      rewrite (bind_Ret _ _ _ _ _
                 (solver_check_spec
                    (set_solver (Some (add ne (push sv))) s) _ eq_refl)).
      rewrite (bind_Ret _ _ _ tt (set_solver (Some sv1) s)) by reflexivity.
      cbn [fst].
      by destruct (z3_check (add ne (push sv))). }
    destruct e as [| |[|]| | | | | | |]; try exact Hbody.
    by destruct Hnt. }
  rewrite Hhead. clear Hhead.
  clearbody sv1.
  set (s1 := set_solver (Some sv1) s).
  assert (Hview1 : solver_view s1 = solver_view s).
  { unfold solver_view, s1; simpl. rewrite Hs; simpl. by rewrite Ha, Hsc. }
  assert (Hnote : exists s2,
            note_assumption e s1 = (Ret tt, s2)
            /\ solver s2 = Some sv1
            /\ schedq s2 = schedq s
            /\ curschedidx s2 = curschedidx s
            /\ cursched s2
               = (if Nat.eqb (length (cursched s)) (curschedidx s)
                  then cursched s ++ [(NoChoice, length (nodes (curgraph s)))]
                  else cursched s)
            /\ exists n, cursched s2 !! curschedidx s2 = Some (NoChoice, n)).
  { destruct Hidx as [Hend | [n Hn]].
    - eexists. split.
      + apply (note_assumption_at_end e s1 ch gnode);
          [exact Hlast | by symmetry].
      + simpl. rewrite Hend, Nat.eqb_refl, length_alter.
        repeat split; try reflexivity.
        eexists. by apply list_lookup_middle.
    - assert (Hlt : curschedidx s < length (cursched s))
        by (eapply lookup_lt_Some; eassumption).
      assert (Hne : Nat.eqb (length (cursched s)) (curschedidx s) = false)
        by (apply Nat.eqb_neq; lia).
      exists s1. split.
      + apply note_assumption_replay. simpl. lia.
      + rewrite Hne. repeat split; try reflexivity. by exists n. }
  destruct Hnote as (s2 & Hn & Hsol2 & Hq2 & Hi2 & Hc2 & n & Hlk).
  pose proof (assert_assumption_spec e ne pe s2 sv1 n Hsol2 Hterms Hlk)
    as (s3 & Hassert & Hsol3 & Hq3 & Hi3 & Hc3).
  assert (Hrest :
    let r := fst (bind (note_assumption e)
                    (fun _ => assert_assumption e) s1) in
    let s' := snd (bind (note_assumption e)
                     (fun _ => assert_assumption e) s1) in
    cursched s'
      = (if Nat.eqb (length (cursched s)) (curschedidx s)
         then cursched s ++ [(NoChoice, length (nodes (curgraph s)))]
         else cursched s)
      /\ curschedidx s' = curschedidx s + 1
      /\ schedq s' = schedq s
      /\ solver_view s' = Some (assertions sv ++ [pe], scopes sv)
      /\ r = match fst (with_retry (add pe sv1)) with
             | sat => Ret tt
             | unsat => Raise UnsatisfiablePath
             | unknown =>
                 Raise (uncheckable e (snd (with_retry (add pe sv1))))
             end).
  { rewrite (bind_Ret _ _ _ _ _ Hn), Hassert. simpl.
    rewrite Hc3, Hi3, Hq3, Hc2, Hi2, Hq2.
    repeat split; try reflexivity.
    unfold solver_view. rewrite Hsol3. simpl. by rewrite Ha, Hsc. }
  destruct (z3_check (add ne (push sv))) eqn:Hfirst.
  - exact Hrest.
  - simpl. repeat split; try reflexivity. exact Hview1.
  - exact Hrest.
Qed.

Lemma assume_spec c v s sv ch gnode :
  solver s = Some sv ->
  sort_of v = BoolSort ->
  last (cursched s) = Some (ch, gnode) ->
  (curschedidx s = length (cursched s)
   \/ exists n, cursched s !! curschedidx s = Some (NoChoice, n)) ->
  let sv1 := after_direction sv (Not v) in
  let r := fst (assume (VSym c v) s) in
  let s' := snd (assume (VSym c v) s) in
  match z3_check (add (Not v) (push sv)) with
  | unsat =>
      r = Ret tt
      /\ cursched s' = cursched s
      /\ curschedidx s' = curschedidx s
      /\ schedq s' = schedq s
      /\ solver_view s' = solver_view s
  | _ =>
      cursched s'
      = (if Nat.eqb (length (cursched s)) (curschedidx s)
         then cursched s ++ [(NoChoice, length (nodes (curgraph s)))]
         else cursched s)
      /\ curschedidx s' = curschedidx s + 1
      /\ schedq s' = schedq s
      /\ solver_view s' = Some (assertions sv ++ [v], scopes sv)
      /\ r = match fst (with_retry (add v sv1)) with
             | sat => Ret tt
             | unsat => Raise UnsatisfiablePath
             | unknown =>
                 Raise (UncheckableConstraintError v
                          (snd (with_retry (add v sv1))))
             end
  end.
Proof.
  intros Hs Hsort Hlast Hidx.
  assert (Hterms : assumption_terms (VSym c v) = Some (Not v, v))
    by (cbn; by rewrite Hsort).
  exact (assume_spec_gen (VSym c v) (Not v) v s sv ch gnode Hs Hterms
           ltac:(discriminate) Hlast Hidx).
Qed.

(** ** Paths that end in an exception *)

Lemma str_state_spec s sv :
  solver s = Some sv -> str_state s = (Ret (path_state sv), s).
Proof.
  intros H. unfold str_state, solver_assertions, path_state.
  unfold bind. rewrite (get_solver_spec s sv H).
  unfold ret. by destruct (assertions sv).
Qed.

Lemma loop_iteration_raise fn sched st e st2 ch n sv :
  run_path fn (start_path sched st) = (Raise e, st2) ->
  last (cursched st2) = Some (ch, n) ->
  solver st2 = Some sv ->
  exists st3,
    schedq st3 = schedq st2 /\ solver st3 = None /\
    match e with
    | UnsatisfiablePath =>
        loop_iteration fn sched st = (None, None, st3)
        /\ stdout st3 = stdout st2 /\ shown st3 = shown st2
    | UncheckableConstraintError _ _ =>
        loop_iteration fn sched st = (None, None, st3)
        /\ stdout st3 = stdout st2 ++ [e] /\ shown st3 = shown st2
    | _ =>
        loop_iteration fn sched st
        = (None, Some (InSymbolicState e (path_state sv)), st3)
        /\ stdout st3 = stdout st2 /\ shown st3 = S (shown st2)
    end.
Proof.
  intros Hrun Hlast Hsv.
  unfold loop_iteration. rewrite Hrun.
  destruct e;
    unfold handle_exception;
    rewrite (bind_Ret _ _ _ _ _ (last_node_spec st2 ch n Hlast));
    unfold set_label, set_color, alter_node;
    unfold bind at 1, modify at 1; unfold bind at 1, modify at 1;
    try (erewrite (bind_Ret _ _ _ _ _ (str_state_spec _ sv _)));
    (eexists; split; [|split]; cycle 2;
       [split; [reflexivity|]; split; reflexivity | reflexivity | reflexivity]).
  Unshelve. all: exact Hsv.
Qed.


Lemma run_path_raises fn st x st2 :
  fn st = (Raise x, st2) -> run_path fn st = (Raise x, st2).
Proof. intros H. unfold run_path. by rewrite (bind_Raise _ _ _ _ _ H). Qed.

Lemma loop_iteration_discards fn sched st x st2 ch n :
  fn (start_path sched st) = (Raise x, st2) ->
  last (cursched st2) = Some (ch, n) ->
  x = UnsatisfiablePath
  \/ (exists t reason, x = UncheckableConstraintError t reason) ->
  exists st3,
    loop_iteration fn sched st = (None, None, st3)
    /\ schedq st3 = schedq st2
    /\ solver st3 = None
    /\ stdout st3 = match x with
                    | UnsatisfiablePath => stdout st2
                    | _ => stdout st2 ++ [x]
                    end.
Proof.
  intros Hfn Hlast Hx.
  unfold loop_iteration. rewrite (run_path_raises _ _ _ _ Hfn).
  destruct Hx as [-> | (t & reason & ->)];
    unfold handle_exception;
    rewrite (bind_Ret _ _ _ _ _ (last_node_spec st2 ch n Hlast));
    unfold set_label, set_color, alter_node;
    unfold bind at 1, modify at 1; unfold bind at 1, modify at 1;
    (eexists; split; [reflexivity|]; by repeat split).
Qed.

(** C3: [assume(e)] for a boolean [e], symbolic or a Python boolean
    other than the constant [True], which returns at once.  It first
    checks the negation of [e]; when that is unsat it returns with the
    assertions, the schedule and the index as they were.  Otherwise, at
    the end of the schedule it appends a non-forking entry
    [(None, node)]; it advances the index, asserts [e] and checks again,
    an unknown answer being retried in a fresh solver: unsat raises
    UnsatisfiablePath, unknown raises the uncheckable-constraint error,
    sat returns.  When the function run on a schedule raises either
    error, that path yields no result and the loop goes on with the
    schedules left; only the uncheckable-constraint error is printed. *)
Theorem C3_assume_and_discarded_paths e ne pe s sv ch gnode :
  solver s = Some sv ->
  assumption_terms e = Some (ne, pe) ->
  e <> VBool true ->
  last (cursched s) = Some (ch, gnode) ->
  (curschedidx s = length (cursched s)
   \/ exists n, cursched s !! curschedidx s = Some (NoChoice, n)) ->
  let sv1 := after_direction sv ne in
  let r := fst (assume e s) in
  let s' := snd (assume e s) in
  match z3_check (add ne (push sv)) with
  | unsat =>
      r = Ret tt
      /\ cursched s' = cursched s
      /\ curschedidx s' = curschedidx s
      /\ schedq s' = schedq s
      /\ solver_view s' = solver_view s
  | _ =>
      cursched s'
      = (if Nat.eqb (length (cursched s)) (curschedidx s)
         then cursched s ++ [(NoChoice, length (nodes (curgraph s)))]
         else cursched s)
      /\ curschedidx s' = curschedidx s + 1
      /\ schedq s' = schedq s
      /\ solver_view s' = Some (assertions sv ++ [pe], scopes sv)
      /\ r = match fst (with_retry (add pe sv1)) with
             | sat => Ret tt
             | unsat => Raise UnsatisfiablePath
             | unknown =>
                 Raise (uncheckable e (snd (with_retry (add pe sv1))))
             end
  end
  /\ assume (VBool true) s = (Ret tt, s)
  /\ (forall fn st rest sched fuel x st2 ch' n',
        schedq st = rest ++ [sched] ->
        fn (start_path sched (set_schedq rest st)) = (Raise x, st2) ->
        last (cursched st2) = Some (ch', n') ->
        x = UnsatisfiablePath
        \/ (exists t reason, x = UncheckableConstraintError t reason) ->
        exists st3,
          symbolic_apply_loop (S fuel) fn st = symbolic_apply_loop fuel fn st3
          /\ loop_iteration fn sched (set_schedq rest st) = (None, None, st3)
          /\ schedq st3 = schedq st2
          /\ solver st3 = None
          /\ stdout st3 = match x with
                          | UnsatisfiablePath => stdout st2
                          | _ => stdout st2 ++ [x]
                          end).
Proof.
  intros Hs Hterms Hnt Hlast Hidx sv1 r s'.
  split; [|split].
  - exact (assume_spec_gen e ne pe s sv ch gnode Hs Hterms Hnt Hlast Hidx).
  - reflexivity.
  - intros fn st rest sched fuel x st2 ch' n' Hq Hfn Hl Hx.
    destruct (loop_iteration_discards fn sched (set_schedq rest st) x st2
                ch' n' Hfn Hl Hx) as (st3 & Hit & Hq3 & Hsol & Hout).
    exists st3.
    rewrite (loop_pops_last fn st rest sched fuel Hq), Hit.
    repeat split; try assumption.
    by destruct (symbolic_apply_loop fuel fn st3) as [[sars fin] s''].
Qed.

(** ** The wrapping boundary *)

(** C6 (as amended): a value [wrap] cannot coerce raises TypeError.  A
    path ending in TypeError is handled as any other exception: it is
    annotated with the path state, the graph is shown, and it is raised
    again out of the loop, which ends the exploration; the schedules still
    queued are not run and no further result is yielded. *)
Theorem C6_type_error_ends_exploration (ref : value) (s0 : State) :
  wrappable ref = false ->
  wrap ref s0
  = (Raise (TypeError "Not a bool, int, long, float, or z3.ExprRef"), s0)
  /\ (forall fn st rest sched fuel msg st2 ch n sv,
        schedq st = rest ++ [sched] ->
        run_path fn (start_path sched (set_schedq rest st))
        = (Raise (TypeError msg), st2) ->
        last (cursched st2) = Some (ch, n) ->
        solver st2 = Some sv ->
        exists st3,
          symbolic_apply_loop (S fuel) fn st
          = ([], Escaped (InSymbolicState (TypeError msg) (path_state sv)),
             st3)
          /\ schedq st3 = schedq st2
          /\ shown st3 = S (shown st2)).
Proof.
  intros Hw. split.
  - destruct ref; try discriminate; reflexivity.
  - intros fn st rest sched fuel msg st2 ch n sv Hq Hrun Hl Hsv.
    destruct (loop_iteration_raise fn sched (set_schedq rest st)
                (TypeError msg) st2 ch n sv Hrun Hl Hsv)
      as (st3 & Hq3 & _ & Hit & _ & Hshown).
    exists st3.
    rewrite (loop_pops_last fn st rest sched fuel Hq), Hit.
    by repeat split.
Qed.

(** ** Logical helpers on concrete operands *)

Lemma concrete_not_Symbolic v : concrete v = true -> is_Symbolic v = false.
Proof. by destruct v. Qed.

Lemma concrete_not_ExprRef v : concrete v = true -> is_ExprRef v = false.
Proof. by destruct v. Qed.

Lemma truth_concrete v s :
  concrete v = true -> truth v s = (Ret (truthy v), s).
Proof. by destruct v. Qed.

Lemma concrete_list_not_Symbolic l :
  forallb concrete l = true -> existsb is_Symbolic l = false.
Proof.
  induction l as [|x l IH]; simpl; [done|].
  intros [Hx Hl]%andb_true_iff.
  by rewrite (concrete_not_Symbolic x Hx), IH.
Qed.

Lemma py_all_concrete l s :
  forallb concrete l = true -> py_all l s = (Ret (forallb truthy l), s).
Proof.
  induction l as [|x l IH]; simpl; [done|].
  intros [Hx Hl]%andb_true_iff.
  unfold bind. rewrite (truth_concrete x s Hx).
  destruct (truthy x); simpl; [by apply IH | done].
Qed.

Lemma py_any_concrete l s :
  forallb concrete l = true -> py_any l s = (Ret (existsb truthy l), s).
Proof.
  induction l as [|x l IH]; simpl; [done|].
  intros [Hx Hl]%andb_true_iff.
  unfold bind. rewrite (truth_concrete x s Hx).
  destruct (truthy x); simpl; [done | by apply IH].
Qed.

Lemma symand_concrete l s :
  forallb concrete l = true ->
  symand l s = (Ret (VBool (forallb truthy l)), s).
Proof.
  intros H. unfold symand.
  rewrite (concrete_list_not_Symbolic l H).
  unfold bind. by rewrite (py_all_concrete l s H).
Qed.

Lemma symand_bools (bs : list bool) s :
  symand (map VBool bs) s = (Ret (VBool (forallb id bs)), s).
Proof.
  rewrite symand_concrete.
  - do 3 f_equal. induction bs as [|b bs IH]; simpl; [done|].
    by rewrite IH.
  - induction bs as [|b bs IH]; simpl; done.
Qed.

Lemma symeq_concrete :
  forall a b s,
    concrete a = true -> concrete b = true ->
    symeq a b s = (Ret (VBool (symeq_host a b)), s).
Proof.
  fix IH 1. intros a b s Ha Hb.
  destruct a as [| | | | |la| | | |]; try discriminate;
    destruct b as [| | | | |lb| | | |]; try discriminate; try reflexivity.
  simpl. destruct (negb (length la =? length lb)%nat); [reflexivity|].
  simpl in Ha, Hb.
  set (each := fix each (la lb : list value) : M (list value) :=
         match la, lb with
         | aa :: la', bb :: lb' =>
             let* r := symeq aa bb in
             let* rs := each la' lb' in
             ret (r :: rs)
         | _, _ => ret []
         end).
  set (peach := fix each (la lb : list value) : list value :=
         match la, lb with
         | aa :: la', bb :: lb' =>
             VBool (symeq_host aa bb) :: each la' lb'
         | _, _ => []
         end).
  assert (Heach : each la lb s = (Ret (peach la lb), s)
                  /\ forallb concrete (peach la lb) = true).
  { revert lb Hb. induction la as [|x la IHla]; intros lb Hb.
    - by destruct lb.
    - destruct lb as [|y lb]; [done|].
      apply andb_true_iff in Ha as [Hx Hla].
      apply andb_true_iff in Hb as [Hy Hlb].
      destruct (IHla Hla lb Hlb) as [He Hc].
      split.
      + simpl. unfold bind at 1. rewrite (IH x y s Hx Hy).
        unfold bind at 1. by rewrite He.
      + simpl. exact Hc. }
  destruct Heach as [He Hc].
  unfold bind at 1. rewrite He.
  by apply symand_concrete.
Qed.

Lemma wrap_Implies ea eb s :
  wrap (VZ3 (Implies ea eb)) s = (Ret (VSym SBool (Implies ea eb)), s).
Proof. reflexivity. Qed.

Lemma implies_is_symbolic x y s r s' :
  implies x y s = (Ret r, s') ->
  exists ex ey, r = VSym SBool (Implies ex ey).
Proof.
  unfold implies, z3_Implies, z3_bool.
  unfold bind.
  destruct (unwrap x s) as [[ux|e] s1]; [|discriminate].
  destruct (unwrap y s1) as [[uy|e] s2]; [|discriminate].
  destruct (z3_cast BoolSort ux) as [ex|]; simpl; [|discriminate].
  destruct (z3_cast BoolSort uy) as [ey|]; simpl; [|discriminate].
  intros [= <- <-]. by exists ex, ey.
Qed.

(** C5 (as amended): and, or, not, equal, forall and exists accept mixed
    symbolic and concrete operands, and on concrete host operands they
    compute by host logic and return a concrete host value, the state
    being untouched.  [implies] accepts mixed operands as well but never
    gives a host value: whatever it returns is a symbolic boolean over an
    implication term, also for two concrete booleans. *)
Theorem C5_helpers_on_concrete_operands (l : list value)
    (a b e vars : value) (patterns : list value) (s : State) :
  forallb concrete l = true ->
  concrete a = true ->
  concrete b = true ->
  concrete e = true ->
  symand l s = (Ret (VBool (forallb truthy l)), s)
  /\ symor l s = (Ret (VBool (existsb truthy l)), s)
  /\ symnot e s = (Ret (VBool (negb (truthy e))), s)
  /\ symeq a b s = (Ret (VBool (symeq_host a b)), s)
  /\ forall_ vars e patterns s = (Ret e, s)
  /\ exists_ vars e patterns s = (Ret e, s)
  /\ (forall x y r s',
        implies x y s = (Ret r, s') ->
        exists ex ey, r = VSym SBool (Implies ex ey))
  /\ (forall p q,
        implies (VBool p) (VBool q) s
        = (Ret (VSym SBool (Implies (BoolVal p) (BoolVal q))), s))
  /\ (forall c v p,
        sort_of v = BoolSort ->
        symand [VSym c v; VBool p] s
        = (Ret (VSym SBool (And [v; BoolVal p])), s)
        /\ symor [VBool p; VSym c v] s
           = (Ret (VSym SBool (Or [BoolVal p; v])), s)
        /\ implies (VSym c v) (VBool p) s
           = (Ret (VSym SBool (Implies v (BoolVal p))), s)
        /\ symeq (VSym c v) (VBool p) s
           = (Ret (VSym SBool (Eq v (BoolVal p))), s)).
Proof.
  intros Hl Ha Hb He.
  repeat split.
  - by apply symand_concrete.
  - unfold symor. rewrite (concrete_list_not_Symbolic l Hl).
    unfold bind. by rewrite (py_any_concrete l s Hl).
  - unfold symnot. rewrite (concrete_not_Symbolic e He).
    unfold bind. by rewrite (truth_concrete e s He).
  - by apply symeq_concrete.
  - unfold forall_.
    by rewrite (concrete_not_Symbolic e He), (concrete_not_ExprRef e He).
  - unfold exists_.
    by rewrite (concrete_not_Symbolic e He), (concrete_not_ExprRef e He).
  - intros x y r s'. apply implies_is_symbolic.
  - unfold symand, unwrap, z3_And, z3_bool, z3_cast, bind, ret; simpl.
    by rewrite H.
  - unfold symor, unwrap, z3_Or, z3_bool, z3_cast, bind, ret; simpl.
    by rewrite H.
  - unfold implies, unwrap, z3_Implies, z3_bool, z3_cast, bind, ret; simpl.
    by rewrite H.
  - unfold symeq, py_eq, leaf_eq, SExpr_eq, z3_eq, z3_cast, bind, ret; simpl.
    by rewrite H.
Qed.

(** ** Model projection *)

Lemma any_assigned_symbolic e l s :
  Forall symbolic_entry l ->
  exists d, any_assigned (VZ3 e) l s = (Ret d, s).
Proof.
  induction 1 as [|[aexpr val] l (c & a & Hx) Hl IH]; simpl.
  - by eexists.
  - simpl in Hx; subst aexpr.
    unfold bind, already_assigned, unwrap, bind, ret; simpl.
    destruct (expr_eqb e a); [by eexists | exact IH].
Qed.

Lemma sort_eqb_refl z : sort_eqb z z = true.
Proof.
  induction z; simpl; rewrite ?String.eqb_refl; try done.
  - by rewrite bool_decide_eq_true_2.
  - by rewrite IHz1, IHz2.
Qed.

(** C8: [Model._eval] evaluates the expression in the solver model (the
    model's evaluation completes it) and returns a Python integer for an
    integer literal, [True] or [False] for a boolean literal, the value
    wrapped in the expression's own type for a value of an uninterpreted
    sort, and raises for anything else, an enumeration constant for one.
    Wrapped values keep the model value they wrap, so distinct ones stay
    apart, and their equality is the equality term over the two.  With
    assignment tracking the result is the same. *)
Theorem C8_model_eval_leaf c e s m mo r0 :
  models s !! m = Some mo ->
  ref_type_of c = Some r0 ->
  isinstance_ref (z3_model mo e) r0 = true ->
  Forall symbolic_entry (asignments mo) ->
  let z3val := z3_model mo e in
  let expected :=
    match z3val with
    | IntVal n => Ret (VInt n)
    | BoolVal b => Ret (VBool b)
    | _ =>
        if is_uninterpreted_sort (sort_of z3val) then Ret (VSym c z3val)
        else Raise (Exception "Expression is not a concrete value")
    end in
  fst (Model_eval m (VSym c e) s) = expected
  /\ (track mo = false -> Model_eval m (VSym c e) s = (expected, s))
  /\ (forall n vs i, z3val = EnumVal n vs i ->
        Model_eval m (VSym c e) s
        = (Raise (Exception "Expression is not a concrete value"), s))
  /\ (forall z1 z2 : expr, z1 <> z2 -> VSym c z1 <> VSym c z2)
  /\ (forall z1 z2 st, sort_of z1 = sort_of z2 ->
        leaf_eq (VSym c z1) (VSym c z2) st
        = (Ret (VSym SBool (Eq z1 z2)), st)).
Proof.
  intros Hm Href Hinst Hsym z3val expected.
  assert (Hwrap : forall st,
            wrap_as_type_of (VSym c e) z3val st = (Ret (VSym c z3val), st)).
  { intros st. unfold wrap_as_type_of, _wrap_with; simpl.
    rewrite Href. fold z3val in Hinst. by rewrite Hinst. }
  assert (Hres : forall st,
    (if is_int_value z3val then ret (VInt (as_long z3val))
     else if is_true z3val then ret (VBool true)
     else if is_false z3val then ret (VBool false)
     else if is_uninterpreted_sort (sort_of z3val)
          then wrap_as_type_of (VSym c e) z3val
     else raise (Exception "Expression is not a concrete value")) st
    = (expected, st)).
  { intros st. subst expected.
    destruct z3val eqn:Hz; simpl;
      first
        [ reflexivity
        | apply Hwrap
        | match goal with
          | |- context [is_uninterpreted_sort ?x] =>
              destruct (is_uninterpreted_sort x); [apply Hwrap | reflexivity]
          end
        | match goal with
          | b : bool |- _ => destruct b; reflexivity
          end ]. }
  set (tracking (res : value) :=
         @bind unit value
           (if track mo then
              let* dup := any_assigned (VZ3 e) (asignments mo) in
              if dup then ret tt
              else
                let* val := wrap_as_type_of (VSym c e) z3val in
                modify (fun s =>
                  set_models
                    (<[m := mkModel (m_var_constructors mo) (z3_model mo)
                              (track mo)
                              (asignments mo ++ [(VSym c e, val)])]>
                       (models s)) s)
            else ret tt)
           (fun _ => ret res) : M value).
  assert (Hrun :
    Model_eval m (VSym c e) s
    = match expected with
      | Ret res => tracking res s
      | Raise x => (Raise x, s)
      end).
  { unfold Model_eval.
    rewrite (bind_Ret _ _ _ mo s) by (unfold read_model; by rewrite Hm).
    rewrite (bind_Ret _ _ _ (VZ3 e) s) by reflexivity.
    rewrite (bind_Ret _ _ _ e s) by reflexivity.
    cbv zeta. fold z3val.
    destruct expected as [res|x] eqn:Hexp.
    - by rewrite (bind_Ret _ _ _ res s (Hres s)).
    - by rewrite (bind_Raise _ _ _ x s (Hres s)). }
  assert (Htrack : forall res, fst (tracking res s) = Ret res).
  { intros res. unfold tracking.
    destruct (track mo); [|reflexivity].
    destruct (any_assigned_symbolic e (asignments mo) s Hsym) as [d Hd].
    unfold bind at 1. unfold bind at 1. rewrite Hd.
    destruct d; [reflexivity|].
    unfold bind at 1. by rewrite Hwrap. }
  repeat split.
  - rewrite Hrun. destruct expected as [res|x]; [apply Htrack | reflexivity].
  - intros Ht. rewrite Hrun. unfold tracking. rewrite Ht.
    by destruct expected.
  - intros n vs i Hz. rewrite Hrun. subst expected. by rewrite Hz.
  - intros z1 z2 Hne [=]. by apply Hne.
  - intros z1 z2 st Hsort.
    unfold leaf_eq, SExpr_eq, z3_eq, z3_cast, bind, ret; simpl.
    by rewrite Hsort, sort_eqb_refl.
Qed.

(** ** Assignment of mutable values *)

(** C2: the struct field write does not copy.  [__setattr__] stores into
    the dictionary the getter returns, and [unwrap] of a struct is that
    very dictionary, so after [y.f = x] the field of [y] and [x] are one
    object: [x.a = 5] changes what [y.f.a] reads, and [y.f.a = 7] changes
    what [x.a] reads.  A map index write builds a new compound and is not
    affected. *)
Theorem C2_struct_field_write_aliases :
  fst (write_through_source initial_State)
  = Ret (VSym SInt (Const "x.a" IntSort), VInt 5)
  /\ fst (write_through_target initial_State)
     = Ret (VSym SInt (Const "x.a" IntSort), VInt 7)
  /\ (exists before,
        fst (write_into_map initial_State) = Ret (before, before)).
Proof.
  split; [|split].
  - vm_compute. reflexivity.
  - vm_compute. reflexivity.
  - eexists. vm_compute. reflexivity.
Qed.

Lemma table_get_set {A} (d : list (string * A)) k (v : A) :
  table_get (table_set d k v) k = Some v.
Proof.
  induction d as [|[k' v'] d IH]; simpl.
  - by rewrite String.eqb_refl.
  - destruct (String.eqb k' k) eqn:Hk; simpl; rewrite Hk; [done | exact IH].
Qed.

(** ** Outside an exploration *)

(** X1: with no solver active, observing a symbolic boolean raises the
    RuntimeError of [get_solver], and so does [assume] of anything but
    the constant [True]; [assume(True)] returns even then.  The state is
    not touched. *)
Theorem X1_no_solver_no_execution (c : cls) (v : expr) (e : value)
    (s : State) :
  solver s = None ->
  e <> VBool true ->
  SBool_nonzero (VSym c v) s
  = (Raise (RuntimeError
              "Symbolic execution attempted outside symbolic_apply"), s)
  /\ assume e s
     = (Raise (RuntimeError
                 "Symbolic execution attempted outside symbolic_apply"), s)
  /\ assume (VBool true) s = (Ret tt, s).
Proof.
  intros Hs He.
  assert (Hg : get_solver s
               = (Raise (RuntimeError
                    "Symbolic execution attempted outside symbolic_apply"),
                  s))
    by (unfold get_solver, bind, gets; by rewrite Hs).
  repeat split.
  - unfold SBool_nonzero. by rewrite (bind_Raise _ _ _ _ _ Hg).
  - destruct e as [| |[|]| | | | | | |]; try done;
      unfold assume; by rewrite (bind_Raise _ _ _ _ _ Hg).
Qed.

Lemma unwrap_plain v s :
  is_lvalue v = false -> unwrap v s = (Ret (unwrapped v), s).
Proof. by destruct v. Qed.

(** ** Struct variables *)

Lemma dict_get_map (g : value -> value) d k :
  dict_get (map (fun kv : string * value => (fst kv, g (snd kv))) d) k
  = g <$> dict_get d k.
Proof.
  induction d as [|[k0 v0] d IH]; [reflexivity|].
  cbn [map dict_get fst snd]. by destruct (String.eqb k0 k).
Qed.

(** X2: [SStructBase.var] tests [fields] before [mkValue] has consumed
    any of them, so a call that passes a field value raises
    AttributeError, whatever the fields.  The message names, in the
    notation of [repr], the first key of the keyword dictionary in its
    iteration order, which need not be the first keyword of the call.
    When a name is given and there is no model, the constructor has been
    recorded by then, with a snapshot that maps every keyword to its
    unwrapped value. *)
Theorem X2_struct_var_rejects_field_values (c : cls) (name : option string)
    (model : option nat) (k : string) (val : value)
    (rest : list (string * value)) (s : State) :
  forallb (fun kv => negb (is_lvalue (snd kv))) ((k, val) :: rest) = true ->
  fst (SStructBase_var c name model ((k, val) :: rest) s)
  = Raise (AttributeError ("Unknown struct field " +:+ py_repr k))
  /\ (string_has single_quote k = false ->
      string_has backslash k = false ->
      (forall x, string_has x k = true ->
                 32 <= Ascii.nat_of_ascii x < 127) ->
      py_repr k = String single_quote (k +:+ String single_quote ""))
  /\ (forall n, name = Some n -> model = None ->
        exists snap,
          table_get
            (var_constructors
               (snd (SStructBase_var c name model ((k, val) :: rest) s))) n
          = Some (CtorStructVar c n snap)
          /\ snap.*1 = ((k, val) :: rest).*1
          /\ forall k', dict_get snap k'
                        = unwrapped <$> dict_get ((k, val) :: rest) k').
Proof.
  intros Hall.
  assert (Hsnap : forall st,
            mapM (fun kv : string * value =>
                    let* u := unwrap (snd kv) in ret (fst kv, u))
              ((k, val) :: rest) st
            = (Ret (map (fun kv => (fst kv, unwrapped (snd kv)))
                      ((k, val) :: rest)), st)).
  { intros st. revert Hall.
    generalize ((k, val) :: rest) as l.
    induction l as [|[k' v'] l IH]; [reflexivity|].
    cbn [forallb map mapM fst snd].
    intros [Hv%negb_true_iff Hl]%andb_true_iff.
    rewrite (bind_Ret _ _ st (k', unwrapped v') st)
      by (by rewrite (bind_Ret _ _ _ _ _ (unwrap_plain v' st Hv))).
    by rewrite (bind_Ret _ _ _ _ _ (IH Hl)). }
  set (snap := map (fun kv => (fst kv, unwrapped (snd kv)))
                 ((k, val) :: rest)) in *.
  split; [|split].
  - unfold SStructBase_var.
    destruct name as [n|], model as [m|]; try reflexivity.
    rewrite (bind_Ret _ _ s tt
               (set_var_constructors
                  (table_set (var_constructors s) n
                     (CtorStructVar c n snap)) s)).
    + reflexivity.
    + by rewrite (bind_Ret _ _ _ _ _ (Hsnap s)).
  - intros Hq Hb Hprint. unfold py_repr. rewrite Hq. cbn [andb].
    f_equal.
    assert (Hbody : forall t,
              (forall x, string_has x t = true -> string_has x k = true) ->
              repr_body single_quote t = t).
    { induction t as [|x t IH]; intros Hsub; [reflexivity|].
      cbn [repr_body].
      assert (Hx : string_has x k = true).
      { apply Hsub. cbn. by rewrite Ascii.eqb_refl. }
      assert (Hchar : repr_char single_quote x = String x "").
      { unfold repr_char.
        assert (Ascii.eqb x single_quote = false) as ->.
        { apply Ascii.eqb_neq. intros ->. congruence. }
        assert (Ascii.eqb x backslash = false) as ->.
        { apply Ascii.eqb_neq. intros ->. congruence. }
        specialize (Hprint x Hx). cbn [orb].
        destruct (Nat.eqb_spec (Ascii.nat_of_ascii x) 9); [lia|].
        destruct (Nat.eqb_spec (Ascii.nat_of_ascii x) 10); [lia|].
        destruct (Nat.eqb_spec (Ascii.nat_of_ascii x) 13); [lia|].
        destruct (Nat.ltb_spec (Ascii.nat_of_ascii x) 32); [lia|].
        destruct (Nat.leb_spec 127 (Ascii.nat_of_ascii x)); [lia|].
        reflexivity. }
      rewrite Hchar. cbn. f_equal. apply IH.
      intros y Hy. apply Hsub. cbn. by rewrite Hy, orb_true_r. }
    by rewrite Hbody.
  - intros n' -> ->. exists snap.
    split; [|split].
    + unfold SStructBase_var.
      rewrite (bind_Ret _ _ s tt
                 (set_var_constructors
                    (table_set (var_constructors s) n'
                       (CtorStructVar c n' snap)) s))
        by (by rewrite (bind_Ret _ _ _ _ _ (Hsnap s))).
      cbn. apply table_get_set.
    + unfold snap. generalize ((k, val) :: rest) as l.
      induction l as [|[k' v'] l IH]; [reflexivity|]. cbn. by f_equal.
    + intros k'. unfold snap. apply dict_get_map.
Qed.

Lemma mkValue_anonymous :
  forall (sort : csort) (c : cls) (path : list string) (st : State),
  exists st' x,
    mkValue c None path sort st
    = (if has_leaf sort
       then Raise (ValueError "Name required for partially symbolic struct")
       else Ret x, st').
Proof.
  fix IH 1. intros sort c path st.
  destruct sort as [z|d].
  - exists st, VNone. reflexivity.
  - cbn [mkValue has_leaf].
    set (each := fix each (d : list (string * csort)) : M dict :=
           match d with
           | [] => ret []
           | (k, v) :: d' =>
               let* x := mkValue c None (path ++ [k]) v in
               let* xs := each d' in
               ret ((k, x) :: xs)
           end).
    set (any := fix any (d : list (string * csort)) : bool :=
           match d with
           | [] => false
           | (_, v) :: d' => has_leaf v || any d'
           end).
    assert (Heach : forall st0, exists st' items,
              each d st0
              = (if any d
                 then Raise (ValueError
                        "Name required for partially symbolic struct")
                 else Ret items, st')).
    { induction d as [|[k v] d IHd]; intros st0.
      - exists st0, []. reflexivity.
      - cbn [each any].
        destruct (IH v c (path ++ [k]) st0) as (st1 & x & Hv).
        destruct (has_leaf v).
        + exists st1, []. by rewrite (bind_Raise _ _ _ _ _ Hv).
        + rewrite (bind_Ret _ _ _ _ _ Hv).
          destruct (IHd st1) as (st2 & items & Hd).
          cbn [orb]. destruct (any d).
          * exists st2, []. by rewrite (bind_Raise _ _ _ _ _ Hd).
          * exists st2, ((k, x) :: items).
            by rewrite (bind_Ret _ _ _ _ _ Hd). }
    destruct (Heach st) as (st' & items & He).
    destruct (any d).
    + exists st', VNone. by rewrite (bind_Raise _ _ _ _ _ He).
    + rewrite (bind_Ret _ _ _ _ _ He).
      eexists _, _. reflexivity.
Qed.

(** X3: a struct variable without a name cannot be made as soon as the
    struct's compound sort holds a Z3 sort: [mkValue] raises ValueError
    at the first leaf it reaches. *)
Theorem X3_anonymous_struct_var (c : cls) (model : option nat)
    (sort : csort) (s : State) :
  _z3_sort c = Some sort ->
  has_leaf sort = true ->
  fst (SStructBase_var c None model [] s)
  = Raise (ValueError "Name required for partially symbolic struct").
Proof.
  intros Hsort Hleaf.
  unfold SStructBase_var.
  rewrite (bind_Ret _ _ s tt s) by (by destruct model).
  rewrite (bind_Ret _ _ s sort s)
    by (unfold compound_sort; by rewrite Hsort).
  destruct (mkValue_anonymous sort c [] s) as (st' & x & Hmk).
  rewrite Hleaf in Hmk.
  by rewrite (bind_Raise _ _ _ _ _ Hmk).
Qed.

(** ** Entering and leaving an exploration *)

(** X4: [symbolic_apply] called while a schedule is queued raises
    "Recursive symbolic_apply?" before the function is run and yields
    nothing.  The [raise] stands before the [try], so the queue is not
    reset: it now holds one schedule more, and the graph is a new one. *)
Theorem X4_recursive_symbolic_apply (fuel : nat) (fn : M value) (s : State) :
  schedq s <> [] ->
  let res := symbolic_apply fuel fn s in
  fst res = ([], Escaped (Exception "Recursive symbolic_apply?"))
  /\ schedq (snd res) = schedq s ++ [[(NoChoice, 0)]]
  /\ curgraph (snd res) = mkGraph [new_GraphNode] [].
Proof.
  intros Hq. unfold symbolic_apply.
  cbn [Graph_new_node queue_schedule bind modify].
  cbn -[Nat.eqb].
  destruct (schedq s) as [|a q]; [done|].
  rewrite length_app. cbn [length].
  replace (S (length q) + 1 =? 1)%nat with false
    by (symmetry; apply Nat.eqb_neq; lia).
  cbn. done.
Qed.

(** X5: however an exploration that was entered ends (exhausted, out of
    fuel, or by an exception escaping), it leaves the queue empty, no
    solver active, and [var_constructors] as it was before. *)
Theorem X5_symbolic_apply_unwinds (fuel : nat) (fn : M value) (s : State) :
  schedq s = [] ->
  solver s = None ->
  let final := snd (symbolic_apply fuel fn s) in
  schedq final = []
  /\ var_constructors final = var_constructors s
  /\ solver final = None.
Proof.
  intros Hq Hs.
  assert (Hloop : forall fuel st,
            solver st = None ->
            solver (snd (symbolic_apply_loop fuel fn st)) = None).
  { clear. induction fuel as [|fuel IH]; intros st Hst.
    - simpl. by destruct (schedq_pop (schedq st)) as [[sched rest]|].
    - simpl. destruct (schedq_pop (schedq st)) as [[sched rest]|]; [|done].
      unfold loop_iteration.
      destruct (run_path fn (start_path sched (set_schedq rest st)))
        as [[sar|e] s2].
      + specialize (IH (set_solver None s2) eq_refl).
        by destruct (symbolic_apply_loop fuel fn (set_solver None s2))
          as [[sars fin] s3].
      + destruct (handle_exception e s2) as [[[esc|]|e'] s3]; try done.
        specialize (IH (set_solver None s3) eq_refl).
        by destruct (symbolic_apply_loop fuel fn (set_solver None s3))
          as [[sars fin] s4]. }
  unfold symbolic_apply.
  cbn [Graph_new_node queue_schedule bind modify].
  cbn -[Nat.eqb symbolic_apply_loop]. rewrite Hq. cbn -[symbolic_apply_loop].
  match goal with
  | |- context [symbolic_apply_loop fuel fn ?st] =>
      specialize (Hloop fuel st Hs);
      destruct (symbolic_apply_loop fuel fn st) as [[sars fin] s2]
  end.
  cbn. cbn in Hloop. by rewrite Hloop.
Qed.

(** ** The schedule and the path condition *)

Lemma assertions_after_direction sv t :
  assertions (after_direction sv t) = assertions sv.
Proof. apply pop_push_add. Qed.

(** X6: observing a symbolic boolean never rewrites the schedule or the
    queue: each grows at its end, by one entry at most.  The index stays
    within the schedule.  When a boolean is returned, it is the choice
    recorded at the index before the call, the index has advanced by one,
    and the solver's assertions have grown by exactly the term, for True,
    or its negation, for False. *)
Theorem X6_observation_extends_schedule c v s sv ch gnode :
  solver s = Some sv ->
  last (cursched s) = Some (ch, gnode) ->
  curschedidx s <= length (cursched s) ->
  let r := fst (SBool_nonzero (VSym c v) s) in
  let s' := snd (SBool_nonzero (VSym c v) s) in
  (exists ext, cursched s' = cursched s ++ ext /\ length ext <= 1)
  /\ (exists q, schedq s' = schedq s ++ q /\ length q <= 1)
  /\ curschedidx s' <= length (cursched s')
  /\ (forall b, r = Ret b ->
        curschedidx s' = curschedidx s + 1
        /\ (exists n, cursched s' !! curschedidx s = Some (Choice b, n))
        /\ (assertions <$> solver s')
           = Some (assertions sv ++ [if b then v else Not v])).
Proof.
  intros Hs Hlast Hle r s'. subst r s'.
  destruct (decide (curschedidx s = length (cursched s))) as [Hend|Hne].
  - (* extension *)
    symmetry in Hend.
    assert (Hrun : SBool_nonzero (VSym c v) s
              = match extend_schedule (VSym c v) v s with
                | (Ret _, s1) => follow_schedule v s1
                | (Raise e, s1) => (Raise e, s1)
                end)
      by (rewrite (nonzero_at_end c v s sv Hs Hend); reflexivity).
    rewrite Hrun. clear Hrun.
    pose proof (extend_schedule_spec (VSym c v) v s sv ch gnode Hs Hlast)
      as He.
    cbv zeta in He. rewrite He. clear He.
    pose proof (assertions_after_direction sv v) as Ha1.
    pose proof (assertions_after_direction (after_direction sv v) (Not v))
      as Ha2.
    rewrite Ha1 in Ha2.
    set (sv2 := after_direction (after_direction sv v) (Not v)) in *.
    clearbody sv2.
    unfold clone_entry, current_entry.
    destruct (fst (direction_answer sv v)),
             (fst (direction_answer (after_direction sv v) (Not v)));
      try (erewrite (follow_schedule_spec v)
             by first [reflexivity
                      | simpl; rewrite <- Hend;
                        by apply list_lookup_middle]);
      cbn [fst snd cursched schedq curschedidx solver set_solver
             set_cursched set_schedq set_curschedidx set_curgraph];
      (split; [eexists; split;
                 [first [reflexivity | symmetry; apply app_nil_r]
                 | simpl; lia]|]);
      (split; [eexists; split;
                 [first [reflexivity | symmetry; apply app_nil_r]
                 | simpl; lia]|]);
      (split; [rewrite ?length_app; simpl; lia|]);
      intros b [= <-];
      (split; [reflexivity|]);
      (split; [eexists; rewrite <- Hend; by apply list_lookup_middle|]);
      cbn [fmap option_fmap option_map add assertions];
      by rewrite Ha2.
  - (* replay *)
    assert (Hlt : curschedidx s < length (cursched s)) by lia.
    assert (Hneb : Nat.eqb (length (cursched s)) (curschedidx s) = false)
      by (apply Nat.eqb_neq; lia).
    assert (Hrun : SBool_nonzero (VSym c v) s = follow_schedule v s).
    { unfold SBool_nonzero, get_solver, bind, gets, ret.
      rewrite Hs; simpl. by rewrite Hneb. }
    rewrite Hrun. clear Hrun.
    destruct (lookup_lt_is_Some_2 (cursched s) (curschedidx s) Hlt)
      as [[rv n] Hlk].
    rewrite (follow_schedule_spec v s sv rv n Hs Hlk).
    destruct rv as [b0| |e reason];
      cbn [fst snd cursched schedq curschedidx solver set_solver
             set_curschedidx];
      (split; [exists []; split; [symmetry; apply app_nil_r | simpl; lia]|]);
      (split; [exists []; split; [symmetry; apply app_nil_r | simpl; lia]|]);
      (split; [lia|]);
      intros b [= <-].
    split; [reflexivity|]. split; [by exists n|]. reflexivity.
Qed.

(** ** Paths that return *)

Lemma wraplist_bool (es : list expr) s :
  Forall (fun e => sort_of e = BoolSort) es ->
  wraplist (map VZ3 es) s = (Ret (map (VSym SBool) es), s).
Proof.
  unfold wraplist.
  induction 1 as [|e es He Hes IH]; [reflexivity|].
  cbn [map mapM].
  rewrite (bind_Ret _ _ s (VSym SBool e) s).
  - by rewrite (bind_Ret _ _ _ _ _ IH).
  - unfold wrap, isinstance_ref, ref_of_sort. rewrite He. cbn.
    unfold _wrap, _wrap_with. cbn. unfold isinstance_ref, ref_of_sort.
    by rewrite He.
Qed.

Lemma run_path_returns fn st rv st1 ch n sv :
  fn st = (Ret rv, st1) ->
  last (cursched st1) = Some (ch, n) ->
  solver st1 = Some sv ->
  Forall (fun e => sort_of e = BoolSort) (assertions sv) ->
  run_path fn st
  = (Ret (mkSymbolicApplyResult rv (map (VSym SBool) (assertions sv))
            (var_constructors st1) (constTypes st1)),
     set_curgraph (returned_graph (curgraph st1) n rv) st1).
Proof.
  intros Hfn Hlast Hsv Hbool.
  unfold run_path.
  rewrite (bind_Ret _ _ _ _ _ Hfn).
  rewrite (bind_Ret _ _ _ _ _ (last_node_spec st1 ch n Hlast)).
  unfold set_label, alter_node. unfold bind at 1, modify at 1.
  set (st2 := set_curgraph _ st1).
  assert (Hsv2 : solver st2 = Some sv) by exact Hsv.
  rewrite (bind_Ret _ _ st2 (assertions sv) st2)
    by (unfold solver_assertions;
        by rewrite (bind_Ret _ _ _ _ _ (get_solver_spec st2 sv Hsv2))).
  rewrite (bind_Ret _ _ _ _ _ (wraplist_bool (assertions sv) st2 Hbool)).
  reflexivity.
Qed.

Lemma loop_iteration_returns fn sched st sar st2 :
  run_path fn (start_path sched st) = (Ret sar, st2) ->
  loop_iteration fn sched st = (Some sar, None, set_solver None st2).
Proof. intros H. unfold loop_iteration. by rewrite H. Qed.

Lemma loop_iteration_yields fn sched st rv st1 ch n sv :
  fn (start_path sched st) = (Ret rv, st1) ->
  last (cursched st1) = Some (ch, n) ->
  solver st1 = Some sv ->
  Forall (fun e => sort_of e = BoolSort) (assertions sv) ->
  loop_iteration fn sched st
  = (Some (mkSymbolicApplyResult rv (map (VSym SBool) (assertions sv))
             (var_constructors st1) (constTypes st1)),
     None,
     set_solver None
       (set_curgraph (returned_graph (curgraph st1) n rv) st1)).
Proof.
  intros Hfn Hlast Hsv Hbool.
  apply loop_iteration_returns.
  by apply (run_path_returns fn _ rv st1 ch n sv).
Qed.

(** X7: a path on which the function returns yields one result: the
    returned value, the solver's assertions wrapped as symbolic booleans
    in the order they were asserted, and the name tables as they are
    at that moment.  The last node of the schedule is labelled with the
    value, and the solver is dropped. *)
Theorem X7_returning_path_yields_its_condition fn sched st rv st1 ch n sv :
  fn (start_path sched st) = (Ret rv, st1) ->
  last (cursched st1) = Some (ch, n) ->
  solver st1 = Some sv ->
  Forall (fun e => sort_of e = BoolSort) (assertions sv) ->
  loop_iteration fn sched st
  = (Some (mkSymbolicApplyResult rv (map (VSym SBool) (assertions sv))
             (var_constructors st1) (constTypes st1)),
     None,
     set_solver None
       (set_curgraph (returned_graph (curgraph st1) n rv) st1)).
Proof. apply loop_iteration_yields. Qed.

(** ** Whole explorations *)

Lemma nonzero_replay c v st sv rv n :
  solver st = Some sv ->
  cursched st !! curschedidx st = Some (rv, n) ->
  SBool_nonzero (VSym c v) st = follow_schedule v st.
Proof.
  intros Hs Hlk.
  assert (Hlt : curschedidx st < length (cursched st))
    by (eapply lookup_lt_Some; eassumption).
  assert (Hneb : Nat.eqb (length (cursched st)) (curschedidx st) = false)
    by (apply Nat.eqb_neq; lia).
  unfold SBool_nonzero, get_solver, bind, gets, ret.
  rewrite Hs; simpl. by rewrite Hneb.
Qed.

Lemma nonzero_forks_both_sat c v st sv ch gnode :
  solver st = Some sv ->
  length (cursched st) = curschedidx st ->
  last (cursched st) = Some (ch, gnode) ->
  fst (direction_answer sv v) = sat ->
  fst (direction_answer (after_direction sv v) (Not v)) = sat ->
  let sv2 := after_direction (after_direction sv v) (Not v) in
  let tnode := length (nodes (curgraph st)) in
  let forked :=
    set_schedq (schedq st ++ [cursched st ++ [(Choice false, S tnode)]])
      (set_cursched (cursched st ++ [(Choice true, tnode)])
         (set_curgraph (fork_graph (curgraph st) gnode (VSym c v))
            (set_solver (Some sv2) st))) in
  SBool_nonzero (VSym c v) st
  = (Ret true,
     set_curschedidx (curschedidx st + 1)
       (set_solver (Some (add v sv2)) forked)).
Proof.
  intros Hs Hlen Hlast Ht Hf sv2 tnode forked.
  assert (Hrun : SBool_nonzero (VSym c v) st
            = match extend_schedule (VSym c v) v st with
              | (Ret _, s1) => follow_schedule v s1
              | (Raise e, s1) => (Raise e, s1)
              end)
    by (rewrite (nonzero_at_end c v st sv Hs Hlen); reflexivity).
  rewrite Hrun. clear Hrun.
  pose proof (extend_schedule_spec (VSym c v) v st sv ch gnode Hs Hlast)
    as He.
  cbv zeta in He. rewrite He, Ht, Hf. clear He.
  unfold clone_entry, current_entry. rewrite Ht, Hf.
  cbv beta iota.
  change (follow_schedule v forked
          = (Ret true,
             set_curschedidx (curschedidx st + 1)
               (set_solver (Some (add v sv2)) forked))).
  assert (Hlk : cursched forked !! curschedidx forked
                = Some (Choice true, tnode))
    by (simpl; rewrite <- Hlen; by apply list_lookup_middle).
  by rewrite (follow_schedule_spec v forked sv2 _ _ eq_refl Hlk).
Qed.

(** X8: exploring [if v: return r1 else: return r2] when the solver finds
    both [v] and its negation satisfiable yields exactly two results, the
    True branch first: [r1] under the path condition [v], then [r2] under
    [Not v]; then the queue is empty and the exploration is over. *)
Theorem X8_two_feasible_directions (v : expr) (r1 r2 : value) (s : State)
    (fuel : nat) :
  sort_of v = BoolSort ->
  fst (direction_answer new_Solver v) = sat ->
  fst (direction_answer (after_direction new_Solver v) (Not v)) = sat ->
  schedq s = [] ->
  2 <= fuel ->
  let res := fst (symbolic_apply fuel (branch_on v r1 r2) s) in
  snd res = Exhausted
  /\ map sar_value (fst res) = [r1; r2]
  /\ map path_condition_list (fst res)
     = [[VSym SBool v]; [VSym SBool (Not v)]].
Proof.
  intros Hsort Ht Hf Hq Hfuel.
  destruct fuel as [|[|fuel]]; try lia. clear Hfuel.
  set (fn := branch_on v r1 r2).
  unfold symbolic_apply.
  set (s1 := set_schedq (schedq s ++ [[(NoChoice, 0)]])
               (set_curgraph (mkGraph [new_GraphNode] [])
                  (set_curgraph new_Graph s))).
  change ((let* n := Graph_new_node in queue_schedule [(NoChoice, n)])
            (set_curgraph new_Graph s))
    with (@Ret unit tt, s1).
  cbv iota.
  assert (Hq1 : schedq s1 = [] ++ [[(NoChoice, 0)]])
    by (unfold s1; simpl; by rewrite Hq).
  replace (negb (length (schedq s1) =? 1)%nat) with false
    by (by rewrite Hq1).
  cbv iota.
  (* first path *)
  rewrite (loop_pops_last fn s1 [] [(NoChoice, 0)] (S fuel) Hq1).
  set (st0 := start_path [(NoChoice, 0)] (set_schedq [] s1)).
  pose proof (nonzero_forks_both_sat SBool v st0 new_Solver NoChoice 0
                eq_refl eq_refl eq_refl Ht Hf) as Hnz.
  cbv zeta in Hnz.
  set (sv2 := after_direction (after_direction new_Solver v) (Not v)) in *.
  assert (Ha2 : assertions sv2 = []) by reflexivity.
  set (x1 := set_curschedidx (curschedidx st0 + 1) _) in Hnz.
  assert (Hfn1 : fn st0 = (Ret r1, x1))
    by (unfold fn, branch_on; by rewrite (bind_Ret _ _ _ _ _ Hnz)).
  assert (Hit1 := loop_iteration_yields fn [(NoChoice, 0)] (set_schedq [] s1) r1 x1
                    (Choice true) 1 (add v sv2) Hfn1 eq_refl eq_refl).
  rewrite Hit1; clear Hit1.
  2: { change (assertions (add v sv2)) with [v].
       repeat constructor. exact Hsort. }
  set (y1 := set_solver None _).
  (* second path *)
  assert (Hq2 : schedq y1 = [] ++ [[(NoChoice, 0); (Choice false, 2)]])
    by reflexivity.
  rewrite (loop_pops_last fn y1 [] _ fuel Hq2).
  set (st2 := start_path [(NoChoice, 0); (Choice false, 2)]
                (set_schedq [] y1)).
  assert (Hnz2 : SBool_nonzero (VSym SBool v) st2
                 = (Ret false,
                    set_curschedidx (curschedidx st2 + 1)
                      (set_solver (Some (add (Not v) new_Solver)) st2))).
  { rewrite (nonzero_replay SBool v st2 new_Solver (Choice false) 2
               eq_refl eq_refl).
    by rewrite (follow_schedule_spec v st2 new_Solver (Choice false) 2
                  eq_refl eq_refl). }
  set (x2 := set_curschedidx (curschedidx st2 + 1) _) in Hnz2.
  assert (Hfn2 : fn st2 = (Ret r2, x2))
    by (unfold fn, branch_on; by rewrite (bind_Ret _ _ _ _ _ Hnz2)).
  assert (Hit2 := loop_iteration_yields fn [(NoChoice, 0); (Choice false, 2)]
                    (set_schedq [] y1) r2 x2 (Choice false) 2
                    (add (Not v) new_Solver) Hfn2 eq_refl eq_refl).
  rewrite Hit2; clear Hit2.
  2: { repeat constructor. }
  set (y2 := set_solver None _).
  assert (Hend : symbolic_apply_loop fuel fn y2 = ([], Exhausted, y2))
    by (by destruct fuel).
  rewrite Hend.
  cbn [fst snd map sar_value path_condition_list].
  change (assertions (add v sv2)) with [v].
  change (assertions (add (Not v) new_Solver)) with [Not v].
  done.
Qed.

Lemma solver_of_view st l sc :
  solver_view st = Some (l, sc) ->
  exists svx, solver st = Some svx /\ assertions svx = l.
Proof.
  unfold solver_view. destruct (solver st) as [svx|]; [|discriminate].
  intros [= <- _]. by exists svx.
Qed.

(** X9: exploring [assume(v); return r].  When the solver finds the
    negation of [v] unsat, the assumption is a no-op and the one result
    has an empty path condition.  Otherwise [v] is asserted: if the path
    is then sat the one result has path condition [v]; if it is unsat, or
    stays unknown after the retry, no result is yielded at all.  Either
    way the exploration ends with the queue exhausted. *)
Theorem X9_assume_then_return (v : expr) (r : value) (s : State)
    (fuel : nat) :
  sort_of v = BoolSort ->
  schedq s = [] ->
  1 <= fuel ->
  let res := fst (symbolic_apply fuel (assume_then v r) s) in
  let sv1 := after_direction new_Solver (Not v) in
  snd res = Exhausted
  /\ match z3_check (add (Not v) (push new_Solver)) with
     | unsat =>
         map sar_value (fst res) = [r]
         /\ map path_condition_list (fst res) = [[]]
     | _ =>
         match fst (with_retry (add v sv1)) with
         | sat =>
             map sar_value (fst res) = [r]
             /\ map path_condition_list (fst res) = [[VSym SBool v]]
         | _ => fst res = []
         end
     end.
Proof.
  intros Hsort Hq Hfuel.
  destruct fuel as [|fuel]; try lia. clear Hfuel.
  set (fn := assume_then v r).
  unfold symbolic_apply.
  set (s1 := set_schedq (schedq s ++ [[(NoChoice, 0)]])
               (set_curgraph (mkGraph [new_GraphNode] [])
                  (set_curgraph new_Graph s))).
  change ((let* n := Graph_new_node in queue_schedule [(NoChoice, n)])
            (set_curgraph new_Graph s))
    with (@Ret unit tt, s1).
  cbv iota.
  assert (Hq1 : schedq s1 = [] ++ [[(NoChoice, 0)]])
    by (unfold s1; simpl; by rewrite Hq).
  replace (negb (length (schedq s1) =? 1)%nat) with false
    by (by rewrite Hq1).
  cbv iota.
  rewrite (loop_pops_last fn s1 [] [(NoChoice, 0)] fuel Hq1).
  set (st0 := start_path [(NoChoice, 0)] (set_schedq [] s1)).
  pose proof (assume_spec SBool v st0 new_Solver NoChoice 0
                eq_refl Hsort eq_refl (or_introl eq_refl)) as Hsp.
  cbv zeta in Hsp.
  destruct (assume (VSym SBool v) st0) as [o st1] eqn:Has.
  cbn [fst snd] in Hsp.
  assert (Hdone : forall st, schedq st = [] ->
            symbolic_apply_loop fuel fn st = ([], Exhausted, st))
    by (intros st Hst; destruct fuel; simpl; by rewrite Hst).
  assert (Hret : forall l sc,
            o = Ret tt ->
            solver_view st1 = Some (l, sc) ->
            (exists ch n, last (cursched st1) = Some (ch, n)) ->
            schedq st1 = [] ->
            Forall (fun e => sort_of e = BoolSort) l ->
            exists yl,
              loop_iteration fn [(NoChoice, 0)] (set_schedq [] s1)
              = (Some (mkSymbolicApplyResult r (map (VSym SBool) l)
                         (var_constructors st1) (constTypes st1)),
                 None, yl)
              /\ schedq yl = []).
  { intros l sc -> Hview (ch & n & Hl) Hq2 Hbool.
    destruct (solver_of_view st1 l sc Hview) as (svx & Hsv & Hax).
    subst l.
    assert (Hfn : fn (start_path [(NoChoice, 0)] (set_schedq [] s1))
                  = (Ret r, st1))
      by (unfold fn, assume_then; fold st0;
          by rewrite (bind_Ret _ _ _ _ _ Has)).
    eexists. split.
    - by apply (loop_iteration_yields fn _ _ r st1 ch n svx).
    - exact Hq2. }
  assert (Hdrop : forall e,
            o = Raise e ->
            (e = UnsatisfiablePath
             \/ exists x reason, e = UncheckableConstraintError x reason) ->
            (exists svx, solver st1 = Some svx) ->
            (exists ch n, last (cursched st1) = Some (ch, n)) ->
            schedq st1 = [] ->
            exists yl,
              loop_iteration fn [(NoChoice, 0)] (set_schedq [] s1)
              = (None, None, yl)
              /\ schedq yl = []).
  { intros e -> He (svx & Hsv) (ch & n & Hl) Hq2.
    assert (Hrp : run_path fn (start_path [(NoChoice, 0)]
                                 (set_schedq [] s1))
                  = (Raise e, st1)).
    { unfold run_path, fn, assume_then. fold st0.
      rewrite (bind_Raise _ _ st0 e st1); [reflexivity|].
      by rewrite (bind_Raise _ _ _ _ _ Has). }
    destruct (loop_iteration_raise fn _ _ e st1 ch n svx Hrp Hl Hsv)
      as (yl & Hyq & _ & Hcase).
    exists yl. split; [|by rewrite Hyq].
    destruct He as [-> | (x & reason & ->)]; by destruct Hcase. }
  destruct (z3_check (add (Not v) (push new_Solver))) eqn:Hfirst.
  - destruct Hsp as (Hc & Hi & Hsq & Hview & Hr).
    destruct (fst (with_retry (add v (after_direction new_Solver (Not v)))))
      eqn:Hsecond.
    + destruct (Hret [v] [] Hr Hview) as (yl & Hit & Hyq);
        [rewrite Hc; by eexists _, _ | by rewrite Hsq
        | repeat constructor; exact Hsort |].
      rewrite Hit, (Hdone yl Hyq). done.
    + destruct (Hdrop _ Hr (or_introl eq_refl)) as (yl & Hit & Hyq);
        [destruct (solver_of_view _ _ _ Hview) as (svx & Hsv & _);
           by exists svx
        | rewrite Hc; by eexists _, _ | by rewrite Hsq |].
      rewrite Hit, (Hdone yl Hyq). done.
    + destruct (Hdrop _ Hr (or_intror (ex_intro _ _ (ex_intro _ _ eq_refl))))
        as (yl & Hit & Hyq);
        [destruct (solver_of_view _ _ _ Hview) as (svx & Hsv & _);
           by exists svx
        | rewrite Hc; by eexists _, _ | by rewrite Hsq |].
      rewrite Hit, (Hdone yl Hyq). done.
  - destruct Hsp as (Hr & Hc & Hi & Hsq & Hview).
    destruct (Hret [] [] Hr Hview) as (yl & Hit & Hyq);
      [rewrite Hc; by eexists _, _ | by rewrite Hsq | constructor |].
    rewrite Hit, (Hdone yl Hyq). done.
  - destruct Hsp as (Hc & Hi & Hsq & Hview & Hr).
    destruct (fst (with_retry (add v (after_direction new_Solver (Not v)))))
      eqn:Hsecond.
    + destruct (Hret [v] [] Hr Hview) as (yl & Hit & Hyq);
        [rewrite Hc; by eexists _, _ | by rewrite Hsq
        | repeat constructor; exact Hsort |].
      rewrite Hit, (Hdone yl Hyq). done.
    + destruct (Hdrop _ Hr (or_introl eq_refl)) as (yl & Hit & Hyq);
        [destruct (solver_of_view _ _ _ Hview) as (svx & Hsv & _);
           by exists svx
        | rewrite Hc; by eexists _, _ | by rewrite Hsq |].
      rewrite Hit, (Hdone yl Hyq). done.
    + destruct (Hdrop _ Hr (or_intror (ex_intro _ _ (ex_intro _ _ eq_refl))))
        as (yl & Hit & Hyq);
        [destruct (solver_of_view _ _ _ Hview) as (svx & Hsv & _);
           by exists svx
        | rewrite Hc; by eexists _, _ | by rewrite Hsq |].
      rewrite Hit, (Hdone yl Hyq). done.
Qed.

(** ** Struct fields *)

Lemma dict_get_set_eq d k v : dict_get (dict_set d k v) k = Some v.
Proof.
  induction d as [|[k' v'] d IH]; simpl.
  - by rewrite String.eqb_refl.
  - destruct (String.eqb k' k) eqn:Hk; simpl; rewrite Hk; [done | exact IH].
Qed.

Lemma dict_get_set_ne d k k' v :
  k <> k' -> dict_get (dict_set d k v) k' = dict_get d k'.
Proof.
  intros Hne. induction d as [|[k0 v0] d IH]; simpl.
  - destruct (String.eqb k k') eqn:Hk; [|done].
    apply String.eqb_eq in Hk. contradiction.
  - destruct (String.eqb k0 k) eqn:Hk; simpl.
    + apply String.eqb_eq in Hk. subst k0.
      destruct (String.eqb k k') eqn:Hk'; [|done].
      apply String.eqb_eq in Hk'. contradiction.
    + destruct (String.eqb k0 k'); [done | exact IH].
Qed.

Lemma table_get_in_fields c fs name (t : cls) :
  fields_of c = Some fs ->
  table_get fs name = Some t ->
  in_fields c name = true.
Proof.
  intros Hfs Hget. unfold in_fields. rewrite Hfs.
  apply bool_decide_eq_true_2.
  clear Hfs. induction fs as [|[k t'] fs IH]; [discriminate|].
  simpl in Hget. destruct (String.eqb k name) eqn:Hk.
  - apply String.eqb_eq in Hk. subst k. simpl. by left.
  - simpl. right. by apply IH.
Qed.

Lemma setattr_root c i l d name val s :
  in_fields c name = true ->
  is_lvalue val = false ->
  cells s !! i = Some (VDict l) ->
  dicts s !! l = Some d ->
  SStructBase_setattr (Lval c (HCell i) None) name val s
  = (Ret tt,
     set_cells (<[i := VDict l]> (cells s))
       (set_dicts (<[l := dict_set d name (unwrapped val)]> (dicts s)) s)).
Proof.
  intros Hin Hval Hcell Hdict.
  unfold SStructBase_setattr, SStructBase_setattr_body.
  cbn [lval_cls lval_handle _getter _setter]. rewrite Hin.
  rewrite (bind_Ret _ _ s (VDict l) s)
    by (unfold read_cell; by rewrite Hcell).
  rewrite (bind_Ret _ _ _ _ _ (unwrap_plain val s Hval)).
  rewrite (bind_Ret _ _ s tt
             (set_dicts (<[l := dict_set d name (unwrapped val)]> (dicts s))
                s)).
  - reflexivity.
  - unfold setitem.
    rewrite (bind_Ret _ _ s d s) by (unfold read_dict; by rewrite Hdict).
    reflexivity.
Qed.

Lemma getattr_root_const c fs i l d name t s :
  fields_of c = Some fs ->
  table_get fs name = Some t ->
  is_SymbolicConst t = true ->
  cells s !! i = Some (VDict l) ->
  dicts s !! l = Some d ->
  SStructBase_getattr (Lval c (HCell i) None) name s
  = match dict_get d name with
    | Some v => _wrap t v None s
    | None => (Raise (KeyError name), s)
    end.
Proof.
  intros Hfs Hget Hconst Hcell Hdict.
  unfold SStructBase_getattr, field_type.
  cbn [lval_cls lval_model]. rewrite Hfs, Hget.
  unfold _wrap_lvalue. rewrite Hconst.
  assert (Hg : _getter (HField (Lval c (HCell i) None) name) s
               = match dict_get d name with
                 | Some v => (Ret v, s)
                 | None => (Raise (KeyError name), s)
                 end).
  { cbn [_getter].
    rewrite (bind_Ret _ _ s (VDict l) s)
      by (unfold read_cell; by rewrite Hcell).
    unfold getitem.
    rewrite (bind_Ret _ _ s d s) by (unfold read_dict; by rewrite Hdict).
    by destruct (dict_get d name). }
  destruct (dict_get d name) as [v|].
  - by rewrite (bind_Ret _ _ _ _ _ Hg).
  - by rewrite (bind_Raise _ _ _ _ _ Hg).
Qed.

Lemma wrap_None_stateless c v s s' :
  fst (_wrap c v None s) = fst (_wrap c v None s').
Proof.
  unfold _wrap, _wrap_with.
  destruct (ref_type_of c) as [r|]; [|reflexivity].
  destruct v; try (destruct (pass_type_of c) as [[]|]; reflexivity).
  cbn. destruct (isinstance_ref e r); [reflexivity|].
  by destruct (pass_type_of c) as [[]|].
Qed.

(** X10: on a struct variable, a field that was written reads back as the
    written value, unwrapped and wrapped again at the field's type (a
    TypeError when it is not of that type), and the other constant fields
    read as before the write. *)
Theorem X10_struct_field_write_then_read c fs i l d name t val s :
  fields_of c = Some fs ->
  table_get fs name = Some t ->
  is_SymbolicConst t = true ->
  is_lvalue val = false ->
  cells s !! i = Some (VDict l) ->
  dicts s !! l = Some d ->
  let self := Lval c (HCell i) None in
  let s' := snd (SStructBase_setattr self name val s) in
  fst (SStructBase_setattr self name val s) = Ret tt
  /\ SStructBase_getattr self name s' = _wrap t (unwrapped val) None s'
  /\ (forall name' t',
        name' <> name ->
        table_get fs name' = Some t' ->
        is_SymbolicConst t' = true ->
        fst (SStructBase_getattr self name' s')
        = fst (SStructBase_getattr self name' s)).
Proof.
  intros Hfs Hget Hconst Hval Hcell Hdict self s'.
  assert (Hin : in_fields c name = true)
    by (by eapply table_get_in_fields).
  subst self s'.
  rewrite (setattr_root c i l d name val s Hin Hval Hcell Hdict).
  cbn [fst snd].
  set (s1 := set_cells _ _).
  assert (Hcell1 : cells s1 !! i = Some (VDict l)).
  { unfold s1; cbn [cells set_cells].
    apply list_lookup_insert_eq. by eapply lookup_lt_Some. }
  assert (Hdict1 : dicts s1 !! l
                   = Some (dict_set d name (unwrapped val))).
  { unfold s1; cbn [dicts set_cells set_dicts].
    apply list_lookup_insert_eq. by eapply lookup_lt_Some. }
  split; [reflexivity|]. split.
  - rewrite (getattr_root_const c fs i l _ name t s1
               Hfs Hget Hconst Hcell1 Hdict1).
    by rewrite dict_get_set_eq.
  - intros name' t' Hne Hget' Hconst'.
    rewrite (getattr_root_const c fs i l _ name' t' s1
               Hfs Hget' Hconst' Hcell1 Hdict1).
    rewrite (getattr_root_const c fs i l d name' t' s
               Hfs Hget' Hconst' Hcell Hdict).
    rewrite dict_get_set_ne by done.
    destruct (dict_get d name') as [v|]; [|reflexivity].
    apply wrap_None_stateless.
Qed.

(** ** Compounds are built, not updated *)

Lemma ao_ret {A} (a : A) : allocates_only (ret a).
Proof. intros s r s' [= _ <-]. split; [exists []; by rewrite app_nil_r | done]. Qed.

Lemma ao_raise {A} e : allocates_only (@raise A e).
Proof. intros s r s' [= _ <-]. split; [exists []; by rewrite app_nil_r | done]. Qed.

Lemma ao_bind {A B} (m : M A) (k : A -> M B) :
  allocates_only m -> (forall a, allocates_only (k a)) ->
  allocates_only (bind m k).
Proof.
  intros Hm Hk s r s'. unfold bind.
  destruct (m s) as [[a|e] s1] eqn:Hms.
  - intros Hks. destruct (Hm _ _ _ Hms) as [[n1 Hd1] Hc1].
    destruct (Hk a _ _ _ Hks) as [[n2 Hd2] Hc2].
    split; [|congruence].
    exists (n1 ++ n2). by rewrite Hd2, Hd1, app_assoc.
  - intros [= <- <-]. exact (Hm _ _ _ Hms).
Qed.

Lemma ao_mapM {A B} (f : A -> M B) (l : list A) :
  (forall x, In x l -> allocates_only (f x)) -> allocates_only (mapM f l).
Proof.
  induction l as [|x l IH]; intros Hf; cbn [mapM].
  - apply ao_ret.
  - apply ao_bind; [apply Hf; by left|]. intros y.
    apply ao_bind; [apply IH; intros z Hz; apply Hf; by right|].
    intros ys. apply ao_ret.
Qed.

Lemma ao_read_dict l : allocates_only (read_dict l).
Proof.
  intros s r s'. unfold read_dict.
  destruct (dicts s !! l); intros [= _ <-];
    (split; [exists []; by rewrite app_nil_r | done]).
Qed.

Lemma ao_new_dict d : allocates_only (new_dict d).
Proof. intros s r s' [= _ <-]. split; [by exists [d] | done]. Qed.

Lemma ao_read_cell i : allocates_only (read_cell i).
Proof.
  intros s r s'. unfold read_cell.
  destruct (cells s !! i); intros [= _ <-];
    (split; [exists []; by rewrite app_nil_r | done]).
Qed.

Lemma ao_getitem c k : allocates_only (getitem c k).
Proof.
  destruct c; try apply ao_raise.
  cbn [getitem]. apply ao_bind; [apply ao_read_dict|].
  intros d. destruct (dict_get d k); [apply ao_ret | apply ao_raise].
Qed.

Lemma ao_z3_Select a i : allocates_only (z3_Select a i).
Proof.
  unfold z3_Select, z3_fail.
  destruct a; try apply ao_raise.
  destruct (sort_of e); try apply ao_raise.
  destruct (z3_cast _ i); [apply ao_ret | apply ao_raise].
Qed.

Lemma ao_z3_Store a i v : allocates_only (z3_Store a i v).
Proof.
  unfold z3_Store, z3_fail.
  destruct a; try apply ao_raise.
  destruct (sort_of e); try apply ao_raise.
  destruct (z3_cast _ i); [|apply ao_raise].
  destruct (z3_cast _ v); [apply ao_ret | apply ao_raise].
Qed.

Lemma ao_compound_map1 depth func c :
  (forall v, allocates_only (func v)) ->
  allocates_only (compound_map1 depth func c).
Proof.
  intros Hf. revert c.
  induction depth as [|depth IH]; intros c; cbn [compound_map1].
  - apply ao_raise.
  - destruct c; try apply Hf.
    apply ao_bind; [apply ao_read_dict|]. intros d.
    apply ao_bind; [|intros; apply ao_new_dict].
    apply ao_mapM. intros kv _.
    apply ao_bind; [apply IH | intros; apply ao_ret].
Qed.

Lemma ao_compound_mapN depth func c0 c1 :
  (forall v w, allocates_only (func v w)) ->
  allocates_only (compound_mapN depth func c0 c1).
Proof.
  intros Hf. revert c0 c1.
  induction depth as [|depth IH]; intros c0 c1; cbn [compound_mapN].
  - apply ao_raise.
  - destruct c0; try apply Hf.
    apply ao_bind; [apply ao_read_dict|]. intros d.
    apply ao_bind; [|intros; apply ao_new_dict].
    apply ao_mapM. intros kv _.
    apply ao_bind; [apply ao_getitem|]. intros v0.
    apply ao_bind; [apply ao_getitem|]. intros v1.
    apply ao_bind; [apply IH | intros; apply ao_ret].
Qed.

Lemma ao_getter : forall h, allocates_only (_getter h).
Proof.
  fix IH 1. intros [i|[c hp m] name|[c hp m] idx z3idx]; cbn [_getter].
  - apply ao_read_cell.
  - apply ao_bind; [apply IH | intros; apply ao_getitem].
  - apply ao_bind; [apply IH|]. intros c'.
    apply ao_compound_map1. intros v. apply ao_z3_Select.
Qed.

Lemma ao_unwrap v : allocates_only (unwrap v).
Proof.
  unfold unwrap. destruct v; cbn; try apply ao_ret.
  apply ao_getter.
Qed.

Lemma ao_build_store (h : handle) idx val :
  allocates_only
    (let* z3idx := unwrap idx in
     let* cur := _getter h in
     let* uval := unwrap val in
     compound_mapN recursion_limit
       (fun z3map z3val => z3_Store z3map z3idx z3val) cur uval).
Proof.
  apply ao_bind; [apply ao_unwrap|]. intros z3idx.
  apply ao_bind; [apply ao_getter|]. intros cur.
  apply ao_bind; [apply ao_unwrap|]. intros uval.
  apply ao_compound_mapN. intros; apply ao_z3_Store.
Qed.

Lemma setitem_body_split (getter : M value) (setter : value -> M unit)
    idx val s :
  SMapBase_setitem_body getter setter idx val s
  = (let* nval :=
       (let* z3idx := unwrap idx in
        let* cur := getter in
        let* uval := unwrap val in
        compound_mapN recursion_limit
          (fun z3map z3val => z3_Store z3map z3idx z3val) cur uval) in
     setter nval) s.
Proof.
  unfold SMapBase_setitem_body, bind.
  destruct (unwrap idx s) as [[z|e] s1]; [|reflexivity].
  destruct (getter s1) as [[cur|e] s2]; [|reflexivity].
  destruct (unwrap val s2) as [[u|e] s3]; reflexivity.
Qed.

(** What [compound_map] returns over [Store]: a dictionary it has just
    made, or a Z3 term. *)
Lemma store_result depth z3idx c0 c1 s r s' :
  compound_mapN depth (fun z3map z3val => z3_Store z3map z3idx z3val) c0 c1 s
  = (Ret r, s') ->
  (exists n, r = VDict n /\ length (dicts s) <= n) \/ (exists e, r = VZ3 e).
Proof.
  destruct depth as [|depth]; [discriminate|].
  cbn [compound_mapN].
  destruct c0;
    try (unfold z3_Store, z3_fail; discriminate).
  - (* a Z3 array *)
    unfold z3_Store, z3_fail.
    destruct (sort_of e); try discriminate.
    destruct (z3_cast _ z3idx); [|discriminate].
    destruct (z3_cast _ c1); [|discriminate].
    intros [= <- _]. right. by eexists.
  - (* a dictionary *)
    unfold bind at 1.
    destruct (read_dict l s) as [[d|x] s1] eqn:Hr; [|discriminate].
    destruct (ao_read_dict l _ _ _ Hr) as [[n1 Hd1] _].
    unfold bind at 1.
    match goal with
    | |- context [mapM ?f d s1] =>
        destruct (mapM f d s1) as [[d'|x] s2] eqn:Hm; [|discriminate];
        assert (Hao : allocates_only (mapM f d))
    end.
    { apply ao_mapM. intros kv _.
      apply ao_bind; [apply ao_getitem|]. intros v0.
      apply ao_bind; [apply ao_getitem|]. intros v1.
      apply ao_bind; [|intros; apply ao_ret].
      apply ao_compound_mapN. intros; apply ao_z3_Store. }
    destruct (Hao _ _ _ Hm) as [[n2 Hd2] _].
    intros [= <- _]. left. eexists. split; [reflexivity|].
    rewrite Hd2, Hd1, !length_app. lia.
Qed.

(** X11: a map index write builds a new compound and never changes the
    map's former one.  Where the new compound is put depends on where the
    map lives.  For a map variable, in its own cell, nothing else
    changes, however the write ends: every dictionary that was in the
    store is still there unchanged, and no other cell has changed.  For a
    map that is a field of a struct variable, the setter is the struct's
    [__setattr__]: the new compound is stored into the struct's
    dictionary in place, so that dictionary does change (and with it what
    every holder of it reads); all other dictionaries and all cells are
    as before, and a write that raises changes no dictionary at all. *)
Theorem X11_map_write_builds_new_compound (c cs : cls) (i l : nat)
    (d : dict) (name : string) (idx val : value) (s : State) :
  (* a map variable *)
  (forall j,
     let s' := snd (SMapBase_setitem (Lval c (HCell j) None) idx val s) in
     (exists new, dicts s' = dicts s ++ new)
     /\ (forall j', j' <> j -> cells s' !! j' = cells s !! j')
     /\ (forall l' d', dicts s !! l' = Some d' -> dicts s' !! l' = Some d'))
  (* a map held in the field [name] of the struct variable of cell [i] *)
  /\ (cells s !! i = Some (VDict l) ->
      dicts s !! l = Some d ->
      in_fields cs name = true ->
      let self := Lval c (HField (Lval cs (HCell i) None) name) None in
      let r := fst (SMapBase_setitem self idx val s) in
      let s' := snd (SMapBase_setitem self idx val s) in
      cells s' = cells s
      /\ length (dicts s) <= length (dicts s')
      /\ (forall l' d', l' <> l ->
            dicts s !! l' = Some d' -> dicts s' !! l' = Some d')
      /\ match r with
         | Ret _ =>
             exists nval,
               dicts s' !! l = Some (dict_set d name nval)
               /\ ((exists n, nval = VDict n /\ length (dicts s) <= n)
                   \/ exists e, nval = VZ3 e)
         | Raise _ => dicts s' !! l = Some d
         end).
Proof.
  split.
  - intros j s'.
    assert (Hmain : (exists new, dicts s' = dicts s ++ new)
                    /\ forall j', j' <> j -> cells s' !! j' = cells s !! j').
    { subst s'. unfold SMapBase_setitem. cbn [lval_handle].
      rewrite setitem_body_split. cbn [_setter].
      match goal with
      | |- context [bind ?b ?k s] =>
          destruct (b s) as [[nval|e] s1] eqn:Hb
      end;
        destruct (ao_build_store (HCell j) idx val _ _ _ Hb) as [Hd Hc].
      - rewrite (bind_Ret _ _ _ _ _ Hb).
        split; [exact Hd|]. intros j' Hj.
        cbn [write_cell modify snd cells set_cells]. rewrite Hc.
        by apply list_lookup_insert_ne.
      - rewrite (bind_Raise _ _ _ _ _ Hb).
        split; [exact Hd|]. intros j' _. cbn [snd]. by rewrite Hc. }
    destruct Hmain as [[new Hd] Hc].
    split; [by exists new|]. split; [exact Hc|].
    intros l' d' Hl. rewrite Hd. by apply lookup_app_l_Some.
  - intros Hcell Hdict Hin self r s'. subst r s' self.
    unfold SMapBase_setitem. cbn [lval_handle].
    rewrite setitem_body_split.
    match goal with
    | |- context [bind ?b ?k s] =>
        destruct (b s) as [[nval|e] s1] eqn:Hb
    end;
      destruct (ao_build_store _ idx val _ _ _ Hb) as [[new Hd] Hc].
    2:{ rewrite (bind_Raise _ _ _ _ _ Hb).
        cbn [fst snd]. split; [exact Hc|].
        split; [rewrite Hd, length_app; lia|].
        split; [|rewrite Hd; by apply lookup_app_l_Some].
        intros l' d' _ Hl'. rewrite Hd. by apply lookup_app_l_Some. }
    (* the new compound, and the struct's [__setattr__] *)
    assert (Hnval : (exists n, nval = VDict n /\ length (dicts s) <= n)
                    \/ exists e, nval = VZ3 e).
    { revert Hb. unfold bind.
      destruct (unwrap idx s) as [[z|e] sa] eqn:Hu1; [|discriminate].
      destruct (_getter _ sa) as [[cur|e] sb] eqn:Hg; [|discriminate].
      destruct (unwrap val sb) as [[u|e] sc] eqn:Hu2; [|discriminate].
      intros Hstore.
      destruct (ao_unwrap _ _ _ _ Hu1) as [[n1 H1] _].
      destruct (ao_getter _ _ _ _ Hg) as [[n2 H2] _].
      destruct (ao_unwrap _ _ _ _ Hu2) as [[n3 H3] _].
      destruct (store_result _ _ _ _ _ _ _ Hstore)
        as [(n & -> & Hn)|(e & ->)]; [left|right; by eexists].
      exists n. split; [reflexivity|].
      rewrite H3, H2, H1, !length_app in Hn. lia. }
    assert (Hl1 : dicts s1 !! l = Some d)
      by (rewrite Hd; by apply lookup_app_l_Some).
    assert (Hc1 : cells s1 !! i = Some (VDict l)) by (by rewrite Hc).
    assert (Hplain : unwrap nval = ret nval).
    { destruct Hnval as [(n & -> & _)|(e & ->)]; reflexivity. }
    assert (Hset :
      _setter (HField (Lval cs (HCell i) None) name) nval s1
      = (Ret tt,
         set_cells (<[i := VDict l]> (cells s1))
           (set_dicts (<[l := dict_set d name nval]> (dicts s1)) s1))).
    { cbn [_setter]. unfold SStructBase_setattr_body. rewrite Hin.
      cbn [_getter].
      rewrite (bind_Ret _ _ s1 (VDict l) s1)
        by (unfold read_cell; by rewrite Hc1).
      rewrite Hplain.
      rewrite (bind_Ret _ _ s1 nval s1) by reflexivity.
      rewrite (bind_Ret _ _ s1 tt
                 (set_dicts (<[l := dict_set d name nval]> (dicts s1)) s1)).
      2:{ unfold setitem.
          rewrite (bind_Ret _ _ s1 d s1)
            by (unfold read_dict; by rewrite Hl1).
          reflexivity. }
      reflexivity. }
    rewrite (bind_Ret _ _ _ _ _ Hb), Hset.
    cbn [fst snd cells dicts set_cells set_dicts].
    assert (Hlt : l < length (dicts s1)) by (by eapply lookup_lt_Some).
    split.
    { rewrite Hc. by apply list_insert_id. }
    split.
    { rewrite length_insert, Hd, length_app. lia. }
    split.
    { intros l' d' Hne Hl'.
      rewrite list_lookup_insert_ne by done.
      rewrite Hd. by apply lookup_app_l_Some. }
    exists nval. split; [|exact Hnval].
    by apply list_lookup_insert_eq.
Qed.

(** ** Maps over constants *)

Lemma recursion_limit_S : recursion_limit = S 999.
Proof. reflexivity. Qed.

Lemma getitem_root_const c it vt i a dom rng idx ei s :
  map_types c = Some (it, vt) ->
  is_SymbolicConst vt = true ->
  is_lvalue idx = false ->
  cells s !! i = Some (VZ3 a) ->
  sort_of a = ArraySort dom rng ->
  z3_cast dom (unwrapped idx) = Some ei ->
  SMapBase_getitem (Lval c (HCell i) None) idx s
  = _wrap vt (VZ3 (Select a ei)) None s.
Proof.
  intros Hmt Hconst Hidx Hcell Hsort Hcast.
  unfold SMapBase_getitem.
  rewrite (bind_Ret _ _ _ _ _ (unwrap_plain idx s Hidx)).
  cbn [lval_cls lval_model]. rewrite Hmt.
  unfold _wrap_lvalue. rewrite Hconst.
  rewrite (bind_Ret _ _ s (VZ3 (Select a ei)) s); [reflexivity|].
  cbn [_getter].
  rewrite (bind_Ret _ _ s (VZ3 a) s)
    by (unfold read_cell; by rewrite Hcell).
  rewrite recursion_limit_S. cbn [compound_map1].
  unfold z3_Select. by rewrite Hsort, Hcast.
Qed.

(** X12: on a map from constants to constants, held as one Z3 array [a],
    the write [m[i] = v] replaces the array by [Store a i v], and a read
    [m[j]] is the term [Select] of the current array at [j], wrapped at
    the value type.  So after the write, [m[i]] is
    [Select (Store a i v) i]: the engine builds the term and resolves
    nothing itself. *)
Theorem X12_map_write_then_read c it vt i a dom rng idx val ei ev s :
  map_types c = Some (it, vt) ->
  is_SymbolicConst vt = true ->
  is_lvalue idx = false ->
  is_lvalue val = false ->
  cells s !! i = Some (VZ3 a) ->
  sort_of a = ArraySort dom rng ->
  z3_cast dom (unwrapped idx) = Some ei ->
  z3_cast rng (unwrapped val) = Some ev ->
  let self := Lval c (HCell i) None in
  let s' := set_cells (<[i := VZ3 (Store a ei ev)]> (cells s)) s in
  SMapBase_getitem self idx s = _wrap vt (VZ3 (Select a ei)) None s
  /\ SMapBase_setitem self idx val s = (Ret tt, s')
  /\ SMapBase_getitem self idx s'
     = _wrap vt (VZ3 (Select (Store a ei ev) ei)) None s'
  /\ (forall idx2 ej,
        is_lvalue idx2 = false ->
        z3_cast dom (unwrapped idx2) = Some ej ->
        SMapBase_getitem self idx2 s'
        = _wrap vt (VZ3 (Select (Store a ei ev) ej)) None s').
Proof.
  intros Hmt Hconst Hidx Hval Hcell Hsort Hci Hcv self s'.
  assert (Hcell' : cells s' !! i = Some (VZ3 (Store a ei ev))).
  { unfold s'; cbn [cells set_cells].
    apply list_lookup_insert_eq. by eapply lookup_lt_Some. }
  assert (Hsort' : sort_of (Store a ei ev) = ArraySort dom rng)
    by exact Hsort.
  split; [by eapply getitem_root_const|].
  split.
  - unfold self, SMapBase_setitem, SMapBase_setitem_body.
    cbn [lval_handle _getter _setter].
    rewrite (bind_Ret _ _ _ _ _ (unwrap_plain idx s Hidx)).
    rewrite (bind_Ret _ _ s (VZ3 a) s)
      by (unfold read_cell; by rewrite Hcell).
    rewrite (bind_Ret _ _ _ _ _ (unwrap_plain val s Hval)).
    rewrite (bind_Ret _ _ s (VZ3 (Store a ei ev)) s); [reflexivity|].
    rewrite recursion_limit_S. cbn [compound_mapN].
    unfold z3_Store. by rewrite Hsort, Hci, Hcv.
  - split.
    + by eapply getitem_root_const.
    + intros idx2 ej Hidx2 Hcj. by eapply getitem_root_const.
Qed.

(** ** Assignment tracking *)

Lemma expr_eqb_refl : forall e, expr_eqb e e = true.
Proof.
  fix IH 1. intros e.
  assert (Hl : forall l : list expr,
            (fix all (l : list expr) : Prop :=
               match l with
               | [] => True
               | x :: l' => expr_eqb x x = true /\ all l'
               end) l ->
            list_eqb expr_eqb l l = true).
  { induction l as [|x l IHl]; [done|].
    intros [Hx Hl]. cbn. by rewrite Hx, IHl. }
  assert (Hall : forall l : list expr,
            (fix all (l : list expr) : Prop :=
               match l with
               | [] => True
               | x :: l' => expr_eqb x x = true /\ all l'
               end) l).
  { fix IHl 1. intros [|x l]; [exact I|]. split; [apply IH | apply IHl]. }
  destruct e; cbn [expr_eqb];
    rewrite ?String.eqb_refl, ?sort_eqb_refl, ?Z.eqb_refl, ?Nat.eqb_refl,
      ?IH, ?(Hl _ (Hall _));
    try reflexivity.
  - by destruct b.
  - by rewrite bool_decide_eq_true_2.
Qed.

Lemma any_assigned_recorded e l s :
  Forall symbolic_entry l ->
  any_assigned (VZ3 e) l s = (Ret (recorded e l), s).
Proof.
  induction 1 as [|[aexpr val] l (c & a & Hx) Hl IH]; [reflexivity|].
  cbn in Hx. subst aexpr.
  cbn [any_assigned recorded existsb fst].
  rewrite (bind_Ret _ _ s (expr_eqb e a) s) by reflexivity.
  destruct (expr_eqb e a); [reflexivity | exact IH].
Qed.

Lemma recorded_app e l c' v :
  recorded e (l ++ [(VSym c' e, v)]) = true.
Proof.
  unfold recorded. rewrite existsb_app. cbn.
  by rewrite expr_eqb_refl, orb_true_r.
Qed.

Lemma Model_eval_tracking c e s m mo r0 :
  models s !! m = Some mo ->
  track mo = true ->
  ref_type_of c = Some r0 ->
  isinstance_ref (z3_model mo e) r0 = true ->
  Forall symbolic_entry (asignments mo) ->
  evaluates (z3_model mo e) = true ->
  Model_eval m (VSym c e) s
    = (Ret (projected c (z3_model mo e)),
       if recorded e (asignments mo) then s
       else set_models
              (<[m := mkModel (m_var_constructors mo) (z3_model mo)
                        (track mo)
                        (asignments mo
                         ++ [(VSym c e, VSym c (z3_model mo e))])]>
                 (models s)) s).
Proof.
  intros Hm Ht Href Hinst Hsym Hev.
  set (z3val := z3_model mo e) in *.
  assert (Hwrap : forall st,
            wrap_as_type_of (VSym c e) z3val st = (Ret (VSym c z3val), st)).
  { intros st. unfold wrap_as_type_of, _wrap_with; simpl.
    rewrite Href. by rewrite Hinst. }
  assert (Hres : forall st,
    (if is_int_value z3val then ret (VInt (as_long z3val))
     else if is_true z3val then ret (VBool true)
     else if is_false z3val then ret (VBool false)
     else if is_uninterpreted_sort (sort_of z3val)
          then wrap_as_type_of (VSym c e) z3val
     else raise (Exception "Expression is not a concrete value")) st
    = (Ret (projected c z3val), st)).
  { intros st. unfold evaluates in Hev. unfold projected.
    destruct (is_int_value z3val); [done|].
    destruct (is_true z3val); [done|].
    destruct (is_false z3val); [done|].
    destruct (is_uninterpreted_sort (sort_of z3val)); [|discriminate].
    apply Hwrap. }
  unfold Model_eval.
  rewrite (bind_Ret _ _ _ mo s) by (unfold read_model; by rewrite Hm).
  rewrite (bind_Ret _ _ _ (VZ3 e) s) by reflexivity.
  rewrite (bind_Ret _ _ _ e s) by reflexivity.
  cbv zeta. fold z3val.
  rewrite (bind_Ret _ _ _ _ s (Hres s)).
  rewrite Ht.
  destruct (recorded e (asignments mo)) eqn:Hrec.
  - rewrite (bind_Ret _ _ s tt s); [reflexivity|].
    rewrite (bind_Ret _ _ _ _ _ (any_assigned_recorded e _ s Hsym)).
    by rewrite Hrec.
  - erewrite (bind_Ret _ _ s tt); [reflexivity|].
    rewrite (bind_Ret _ _ _ _ _ (any_assigned_recorded e _ s Hsym)).
    rewrite Hrec.
    rewrite (bind_Ret _ _ _ _ _ (Hwrap s)).
    reflexivity.
Qed.

(** X13: with assignment tracking on, evaluating a leaf records the pair
    of the expression and its model value, both wrapped in the
    expression's type, at the end of the list, unless an expression
    structurally equal to it is recorded already; evaluating the same
    expression again changes nothing. *)
Theorem X13_tracking_suppresses_duplicates c e s m mo r0 :
  models s !! m = Some mo ->
  track mo = true ->
  ref_type_of c = Some r0 ->
  isinstance_ref (z3_model mo e) r0 = true ->
  Forall symbolic_entry (asignments mo) ->
  evaluates (z3_model mo e) = true ->
  let s1 := snd (Model_eval m (VSym c e) s) in
  (exists mo1,
     models s1 !! m = Some mo1
     /\ asignments mo1
        = (if recorded e (asignments mo) then asignments mo
           else asignments mo ++ [(VSym c e, VSym c (z3_model mo e))]))
  /\ snd (Model_eval m (VSym c e) s1) = s1
  /\ fst (Model_eval m (VSym c e) s1) = fst (Model_eval m (VSym c e) s).
Proof.
  intros Hm Ht Href Hinst Hsym Hev s1.
  pose proof (Model_eval_tracking c e s m mo r0 Hm Ht Href Hinst Hsym Hev)
    as Hrun.
  subst s1. rewrite Hrun. cbn [fst snd].
  destruct (recorded e (asignments mo)) eqn:Hrec.
  - split; [exists mo; by split|].
    rewrite Hrun. by split.
  - set (mo1 := mkModel (m_var_constructors mo) (z3_model mo) (track mo)
                  (asignments mo ++ [(VSym c e, VSym c (z3_model mo e))])).
    set (s1 := set_models (<[m := mo1]> (models s)) s).
    assert (Hm1 : models s1 !! m = Some mo1).
    { unfold s1; cbn [models set_models].
      apply list_lookup_insert_eq. by eapply lookup_lt_Some. }
    split; [exists mo1; by split|].
    assert (Hsym1 : Forall symbolic_entry (asignments mo1)).
    { unfold mo1; cbn [asignments]. apply Forall_app. split; [exact Hsym|].
      constructor; [|constructor]. by exists c, e. }
    pose proof (Model_eval_tracking c e s1 m mo1 r0 Hm1 Ht Href Hinst
                  Hsym1 Hev) as Hrun1.
    assert (Hrec1 : recorded e (asignments mo1) = true)
      by (unfold mo1; cbn [asignments]; apply recorded_app).
    rewrite Hrec1 in Hrun1.
    rewrite Hrun1. by split.
Qed.

(** ** Symbolic constants *)

Lemma const_class_ref c z :
  is_SymbolicConst c = true ->
  _z3_sort c = Some (SortLeaf z) ->
  ref_type_of c = Some (ref_of_sort z).
Proof.
  unfold is_SymbolicConst, ref_type_of.
  induction c as [| | | |n|n vs|i IHi v IHv|i IHi v IHv|fs|n b IHb];
    cbn [base_class _z3_sort]; try discriminate.
  - by intros _ [= <-].
  - by intros _ [= <-].
  - by intros _ [= <-].
  - by intros _ [= <-].
  - intros _.
    destruct (_z3_sort i) as [[si|]|]; try discriminate.
    destruct (_z3_sort v) as [[sv|]|]; try discriminate.
    by intros [= <-].
  - exact IHb.
Qed.

Lemma isinstance_Const n z : isinstance_ref (Const n z) (ref_of_sort z) = true.
Proof. by destruct z. Qed.

Lemma table_set_idem {A} (d : list (string * A)) k (v : A) :
  table_set (table_set d k v) k v = table_set d k v.
Proof.
  induction d as [|[k' v'] d IH]; simpl.
  - by rewrite String.eqb_refl.
  - destruct (String.eqb k' k) eqn:Hk; simpl; rewrite Hk; [done|].
    by rewrite IH.
Qed.

Lemma table_get_set_ne {A} (d : list (string * A)) k k' (v : A) :
  k <> k' -> table_get (table_set d k v) k' = table_get d k'.
Proof.
  intros Hne. induction d as [|[k0 v0] d IH]; simpl.
  - destruct (String.eqb k k') eqn:Hk; [|done].
    by apply String.eqb_eq in Hk.
  - destruct (String.eqb k0 k) eqn:Hk; simpl.
    + apply String.eqb_eq in Hk; subst k0.
      destruct (String.eqb k k') eqn:Hk'; [|done].
      by apply String.eqb_eq in Hk'.
    + by rewrite IH.
Qed.

Lemma wrap_Const c n z s :
  is_SymbolicConst c = true ->
  _z3_sort c = Some (SortLeaf z) ->
  _wrap c (VZ3 (Const n z)) None s = (Ret (VSym c (Const n z)), s).
Proof.
  intros Hc Hz. unfold _wrap, _wrap_with.
  rewrite (const_class_ref c z Hc Hz).
  by rewrite isinstance_Const.
Qed.

Lemma SymbolicConst_var_named c n z s :
  is_SymbolicConst c = true ->
  _z3_sort c = Some (SortLeaf z) ->
  SymbolicConst_var c (Some n) None s
  = (Ret (VSym c (Const n z)),
     set_constTypes (table_set (constTypes s) n (c, []))
       (set_var_constructors
          (table_set (var_constructors s) n (CtorVar c)) s)).
Proof.
  intros Hc Hz. unfold SymbolicConst_var.
  set (s1 := set_var_constructors
               (table_set (var_constructors s) n (CtorVar c)) s).
  rewrite (bind_Ret _ _ s n s1) by reflexivity.
  set (s2 := set_constTypes (table_set (constTypes s) n (c, [])) s1).
  rewrite (bind_Ret _ _ s1 tt s2) by reflexivity.
  rewrite (bind_Ret _ _ s2 z s2) by (unfold leaf_sort; by rewrite Hz).
  by apply wrap_Const.
Qed.

Lemma SymbolicConst_var_anonymous c z s :
  is_SymbolicConst c = true ->
  _z3_sort c = Some (SortLeaf z) ->
  SymbolicConst_var c None None s
  = (Ret (VSym c (Const ("anon" +:+ pretty (S (anon_idx s))) z)),
     set_constTypes
       (table_set (constTypes s) ("anon" +:+ pretty (S (anon_idx s)))
          (c, []))
       (set_anon_idx (S (anon_idx s)) s)).
Proof.
  intros Hc Hz. unfold SymbolicConst_var.
  set (s1 := set_anon_idx (S (anon_idx s)) s).
  set (nm := "anon" +:+ pretty (S (anon_idx s))).
  rewrite (bind_Ret _ _ s nm s1) by reflexivity.
  set (s2 := set_constTypes (table_set (constTypes s) nm (c, [])) s1).
  rewrite (bind_Ret _ _ s1 tt s2) by reflexivity.
  rewrite (bind_Ret _ _ s2 z s2) by (unfold leaf_sort; by rewrite Hz).
  by apply wrap_Const.
Qed.



(** ** The wrapping boundary *)

(** X16: on what [wrap] accepts (Python booleans and integers and Z3
    expressions) it never fails and leaves the state alone, and [unwrap]
    gives back the value wrapped.  An expression is wrapped in one of the
    four generic wrapper classes, chosen by its sort alone, so wrapping
    the expression of a symbolic value of any other class does not give
    that class back. *)
Theorem X16_wrap_unwrap_round_trip x s :
  wrappable x = true ->
  exists w,
    wrap x s = (Ret w, s)
    /\ unwrap w s = (Ret x, s)
    /\ (forall e, x = VZ3 e ->
          exists c, w = VSym c e /\ c ∈ [SInt; SArith; SBool; SExpr]
                    /\ (c = SInt <-> sort_of e = IntSort)
                    /\ (c = SArith <-> sort_of e = RealSort)
                    /\ (c = SBool <-> sort_of e = BoolSort))
    /\ ((forall e, x <> VZ3 e) -> w = x).
Proof.
  destruct x; try discriminate; intros _.
  - exists (VBool b). repeat split; try reflexivity; discriminate.
  - exists (VInt n). repeat split; try reflexivity; discriminate.
  - unfold wrap, _wrap, _wrap_with, isinstance_ref, is_int.
    destruct (sort_of e) eqn:Hs; cbn;
      eexists; (split; [reflexivity|]); (split; [reflexivity|]);
      (split; [|intros H; by destruct (H e)]);
      intros e' [= <-]; eexists; (split; [reflexivity|]);
      (split; [repeat constructor|]); rewrite Hs;
      repeat split; intros; congruence.
Qed.

(** ** Map variables *)

Lemma isinstance_own_sort e : isinstance_ref e (ref_of_sort (sort_of e)) = true.
Proof. unfold isinstance_ref. by destruct (sort_of e). Qed.

Lemma wrap_of_sort c e z s :
  is_SymbolicConst c = true ->
  _z3_sort c = Some (SortLeaf z) ->
  sort_of e = z ->
  _wrap c (VZ3 e) None s = (Ret (VSym c e), s).
Proof.
  intros Hc Hz <-. unfold _wrap, _wrap_with.
  rewrite (const_class_ref c _ Hc Hz).
  by rewrite isinstance_own_sort.
Qed.

Lemma declare_assumptions_map d self it vt (asm : value -> M unit) :
  base_class (lval_cls self) = SMap it vt ->
  is_SymbolicConst it = true ->
  _declare_assumptions (S d) (VLval self) asm
  = (let* x := SymbolicConst_var it None None in
     let* item := SMapBase_getitem self x in
     _declare_assumptions d item
       (fun ex => let* q := forall_ x ex [] in asm q)).
Proof. intros H1 H2. cbn [_declare_assumptions]. by rewrite H1, H2. Qed.

Lemma declare_assumptions_const d c e (asm : value -> M unit) :
  _declare_assumptions (S d) (VSym c e) asm = ret tt.
Proof. reflexivity. Qed.

Lemma map_var_named it vt si sv n s :
  is_SymbolicConst it = true ->
  _z3_sort it = Some (SortLeaf si) ->
  is_SymbolicConst vt = true ->
  _z3_sort vt = Some (SortLeaf sv) ->
  let c := SMap it vt in
  let anon := "anon" +:+ pretty (S (anon_idx s)) in
  Symbolic_var c (Some n) None s
  = (Ret (VLval (Lval c (HCell (length (cells s))) None)),
     set_constTypes
       (table_set (table_set (constTypes s) n (c, [])) anon (it, []))
       (set_anon_idx (S (anon_idx s))
          (set_cells (cells s ++ [VZ3 (Const n (ArraySort si sv))])
             (set_constTypes (table_set (constTypes s) n (c, []))
                (set_var_constructors
                   (table_set (var_constructors s) n (CtorVar c)) s))))).
Proof.
  intros Hit Hsi Hvt Hsv c anon.
  unfold Symbolic_var.
  set (s1 := set_var_constructors
               (table_set (var_constructors s) n (CtorVar c)) s).
  rewrite (bind_Ret _ _ s n s1) by reflexivity.
  rewrite (bind_Ret _ _ s1 (SortLeaf (ArraySort si sv)) s1)
    by (unfold compound_sort, c; cbn [_z3_sort]; by rewrite Hsi, Hsv).
  set (a := Const n (ArraySort si sv)).
  set (s2 := set_constTypes (table_set (constTypes s) n (c, [])) s1).
  rewrite (bind_Ret _ _ s1 (VZ3 a) s2) by reflexivity.
  unfold _new_lvalue.
  set (i := length (cells s)).
  set (s3 := set_cells (cells s ++ [VZ3 a]) s2).
  rewrite (bind_Ret _ _ s2 i s3) by reflexivity.
  rewrite (bind_Ret _ _ s3 (VLval (Lval c (HCell i) None)) s3) by reflexivity.
  set (s4 := set_constTypes
               (table_set (table_set (constTypes s) n (c, [])) anon (it, []))
               (set_anon_idx (S (anon_idx s)) s3)).
  rewrite (bind_Ret _ _ s3 tt s4); [reflexivity|].
  rewrite recursion_limit_S.
  rewrite (declare_assumptions_map 999 _ it vt) by reflexivity || assumption.
  rewrite (bind_Ret _ _ s3 (VSym it (Const anon si)) s4)
    by (by rewrite (SymbolicConst_var_anonymous it si s3 Hit Hsi)).
  assert (Hcell : cells s4 !! i = Some (VZ3 a)).
  { change (cells s4) with (cells s ++ [VZ3 a]).
    unfold i. by rewrite lookup_app_r, Nat.sub_diag by lia. }
  rewrite (bind_Ret _ _ s4 (VSym vt (Select a (Const anon si))) s4);
    [by rewrite (declare_assumptions_const 998)|].
  rewrite (getitem_root_const c it vt i a si sv
             (VSym it (Const anon si)) (Const anon si) s4);
    try reflexivity; try assumption.
  - apply (wrap_of_sort vt _ sv); [assumption | assumption | reflexivity].
  - cbn [unwrapped z3_cast sort_of]. by rewrite sort_eqb_refl.
Qed.


(** ** The type of a constant *)

Lemma base_class_not_synonym c n b : base_class c <> SSynonym n b.
Proof. induction c; cbn [base_class]; try discriminate. exact IHc. Qed.

Lemma z3_sort_base c : _z3_sort c = _z3_sort (base_class c).
Proof. induction c; try reflexivity. exact IHc. Qed.

Lemma cls_height_base c : cls_height (base_class c) <= cls_height c.
Proof. induction c; cbn [base_class cls_height]; lia. Qed.

Lemma struct_sort_cons k0 t0 fs :
  _z3_sort (SStruct ((k0, t0) :: fs))
  = match _z3_sort t0, _z3_sort (SStruct fs) with
    | Some s, Some (SortDict r) => Some (SortDict ((k0, s) :: r))
    | _, _ => None
    end.
Proof.
  cbn [_z3_sort]. destruct (_z3_sort t0); [|reflexivity].
  match goal with
  | |- context [option_map SortDict (match ?g with _ => _ end)] =>
      destruct g
  end; reflexivity.
Qed.

Lemma struct_field_sort fs : forall d k s',
  _z3_sort (SStruct fs) = Some (SortDict d) ->
  table_get d k = Some s' ->
  exists t, table_get fs k = Some t /\ _z3_sort t = Some s'.
Proof.
  induction fs as [|[k0 t0] fs IH]; intros d k s'.
  - intros [= <-]. discriminate.
  - rewrite struct_sort_cons.
    destruct (_z3_sort t0) as [s0|] eqn:Ht0; [|discriminate].
    destruct (_z3_sort (SStruct fs)) as [[|r]|] eqn:Hfs; try discriminate.
    intros [= <-]. cbn [table_get].
    destruct (String.eqb k0 k).
    + intros [= <-]. by exists t0.
    + intros Hk. by apply (IH r).
Qed.

Lemma struct_field_height fs k t :
  table_get fs k = Some t -> cls_height t < cls_height (SStruct fs).
Proof.
  cbn [cls_height]. unfold list_max.
  induction fs as [|[k0 t0] fs IH]; cbn [table_get map fold_right snd];
    [discriminate|].
  destruct (String.eqb k0 k).
  - intros [= ->]. lia.
  - intros H. specialize (IH H). lia.
Qed.

Lemma csort_map_at f d k :
  match csort_map f (SortDict d) with
  | SortDict d' => table_get d' k = option_map (csort_map f) (table_get d k)
  | SortLeaf _ => False
  end.
Proof.
  induction d as [|[k0 v0] d IH]; cbn [csort_map table_get]; [reflexivity|].
  cbn [csort_map] in IH.
  destruct (String.eqb k0 k); [reflexivity | exact IH].
Qed.

Lemma csort_at_map f p : forall sv z,
  csort_at (csort_map f sv) p = Some (SortLeaf z) ->
  exists z', z = f z' /\ csort_at sv p = Some (SortLeaf z').
Proof.
  induction p as [|k p IH]; intros sv z.
  - destruct sv; cbn [csort_at csort_map]; [|discriminate].
    intros [= <-]. by eexists.
  - destruct sv as [z0|d]; [discriminate|].
    pose proof (csort_map_at f d k) as Hd.
    cbn [csort_at]. destruct (csort_map f (SortDict d)) as [|d'];
      [done|].
    rewrite Hd. destruct (table_get d k) as [s'|]; [|discriminate].
    cbn [option_map]. apply IH.
Qed.

Lemma symbolic_type_rec_resolves const : forall depth c cs p z,
  _z3_sort c = Some cs ->
  csort_at cs p = Some (SortLeaf z) ->
  cls_height c < depth ->
  exists t, symbolic_type_rec depth const c p = Ret t
            /\ pseudo_sort t = Some z.
Proof.
  induction depth as [|depth IH]; intros c cs p z Hs Hat Hh; [lia|].
  pose proof (cls_height_base c) as Hb.
  pose proof (z3_sort_base c) as Hsb. rewrite Hs in Hsb.
  assert (Hleaf : forall z0, cs = SortLeaf z0 -> p = [] /\ z0 = z).
  { intros z0 ->. destruct p; [|discriminate].
    cbn in Hat. split; [done | congruence]. }
  assert (Hconst : is_SStructBase c = false -> is_SMapBase c = false ->
                   is_SymbolicConst c = true ->
                   forall z0, cs = SortLeaf z0 ->
                   exists t, symbolic_type_rec (S depth) const c p = Ret t
                             /\ pseudo_sort t = Some z).
  { intros H1 H2 H3 z0 Hcs. destruct (Hleaf z0 Hcs) as [-> ->].
    cbn [symbolic_type_rec]. rewrite H1, H2, H3. cbn [andb].
    exists (PType c). split; [reflexivity|].
    cbn [pseudo_sort]. by rewrite Hs, Hcs. }
  unfold is_SStructBase, is_SMapBase, is_SymbolicConst in Hconst.
  destruct (base_class c) as [| | | |n|n vs|i v|i v|fs|n b] eqn:Hbase;
    try (cbn [_z3_sort] in Hsb; discriminate).
  - apply (Hconst eq_refl eq_refl eq_refl IntSort).
    cbn [_z3_sort] in Hsb. congruence.
  - apply (Hconst eq_refl eq_refl eq_refl BoolSort).
    cbn [_z3_sort] in Hsb. congruence.
  - apply (Hconst eq_refl eq_refl eq_refl (DeclareSort n)).
    cbn [_z3_sort] in Hsb. congruence.
  - apply (Hconst eq_refl eq_refl eq_refl (EnumSort n vs)).
    cbn [_z3_sort] in Hsb. congruence.
  - cbn [_z3_sort] in Hsb.
    destruct (_z3_sort i) as [[si|]|]; try discriminate.
    destruct (_z3_sort v) as [[sv|]|]; try discriminate.
    apply (Hconst eq_refl eq_refl eq_refl (ArraySort si sv)). congruence.
  - (* a map *)
    cbn [_z3_sort] in Hsb.
    destruct (_z3_sort i) as [[si|]|] eqn:Hi; try discriminate.
    destruct (_z3_sort v) as [sv|] eqn:Hv; try discriminate.
    injection Hsb as Hcs. subst cs.
    destruct (csort_at_map _ _ _ _ Hat) as (z' & -> & Hat').
    cbn [cls_height] in Hb.
    destruct (IH i (SortLeaf si) [] si Hi eq_refl ltac:(lia))
      as (ti & Hti & Hsi).
    destruct (IH v sv p z' Hv Hat' ltac:(lia)) as (tv & Htv & Hsv).
    exists (PArray ti tv). split.
    + cbn [symbolic_type_rec].
      unfold is_SStructBase, is_SMapBase, map_types. rewrite Hbase.
      rewrite Hti, Htv. by destruct p.
    + cbn [pseudo_sort]. by rewrite Hsi, Hsv.
  - (* a struct *)
    destruct (_z3_sort (SStruct fs)) as [[|d]|] eqn:Hfs; try discriminate.
    + exfalso. revert Hfs. cbn [_z3_sort].
      match goal with
      | |- context [option_map SortDict ?g] => by destruct g
      end.
    + injection Hsb as Hcs. subst cs.
      destruct p as [|k rest]; [discriminate|].
      cbn [csort_at] in Hat.
      destruct (table_get d k) as [s'|] eqn:Hk; [|discriminate].
      destruct (struct_field_sort fs d k s' Hfs Hk) as (t & Hft & Hst).
      pose proof (struct_field_height fs k t Hft) as Hht.
      destruct (IH t s' rest z Hst Hat ltac:(lia)) as (r & Hr & Hsr).
      exists r. split; [|exact Hsr].
      cbn [symbolic_type_rec].
      unfold is_SStructBase, field_type, fields_of. rewrite Hbase.
      by rewrite Hft.
  - by destruct (base_class_not_synonym c n b).
Qed.

(** X18: the types recorded for constants can always be mapped back.  If
    a result records for a constant the class [c] and a path that leads
    to a Z3 sort [z] inside the compound sort of [c], [symbolic_type]
    returns a pseudo-type, and the sort this pseudo-type stands for is
    [z]: a class stands for its own sort and a pair for the array from
    its index to its value.  The class must nest less deep than the
    recursion limit. *)
Theorem X18_symbolic_type_resolves self const c p cs z :
  table_get (sar_const_types self) const = Some (c, p) ->
  _z3_sort c = Some cs ->
  csort_at cs p = Some (SortLeaf z) ->
  cls_height c < recursion_limit ->
  exists t, symbolic_type self const = Ret t /\ pseudo_sort t = Some z.
Proof.
  intros Hget Hs Hat Hh. unfold symbolic_type. rewrite Hget.
  by apply (symbolic_type_rec_resolves const recursion_limit c cs).
Qed.

(** ** Writing a field of a map element *)

Lemma mapM_const_state {A B} (f : A -> M B) (g : A -> B) l s :
  (forall x, x ∈ l -> f x s = (Ret (g x), s)) ->
  mapM f l s = (Ret (map g l), s).
Proof.
  induction l as [|x l IH]; intros Hf; [reflexivity|].
  cbn [mapM map].
  rewrite (bind_Ret _ _ s (g x) s) by (apply Hf; by left).
  rewrite (bind_Ret _ _ s (map g l) s); [reflexivity|].
  apply IH. intros y Hy. apply Hf. by right.
Qed.

Lemma compound_map1_dict depth f l :
  compound_map1 (S depth) f (VDict l)
  = (let* d := read_dict l in
     let* d' := mapM (fun kv : string * value =>
                        let* v := compound_map1 depth f (snd kv) in
                        ret (fst kv, v)) d in
     new_dict d').
Proof. reflexivity. Qed.

Lemma compound_map1_Z3 depth f a :
  compound_map1 (S depth) f (VZ3 a) = f (VZ3 a).
Proof. reflexivity. Qed.

Lemma compound_mapN_dict depth f l c1 :
  compound_mapN (S depth) f (VDict l) c1
  = (let* d := read_dict l in
     let* d' := mapM (fun kv : string * value =>
                        let* v0 := getitem (VDict l) (fst kv) in
                        let* v1 := getitem c1 (fst kv) in
                        let* v := compound_mapN depth f v0 v1 in
                        ret (fst kv, v)) d in
     new_dict d').
Proof. reflexivity. Qed.

Lemma compound_mapN_Z3 depth f a c1 :
  compound_mapN (S depth) f (VZ3 a) c1 = f (VZ3 a) c1.
Proof. reflexivity. Qed.

Lemma getitem_dict l d k v s :
  dicts s !! l = Some d ->
  dict_get d k = Some v ->
  getitem (VDict l) k s = (Ret v, s).
Proof.
  intros Hl Hk. unfold getitem.
  rewrite (bind_Ret _ _ s d s) by (unfold read_dict; by rewrite Hl).
  by rewrite Hk.
Qed.

Lemma dict_get_NoDup (d : dict) k v :
  NoDup d.*1 -> (k, v) ∈ d -> dict_get d k = Some v.
Proof.
  induction d as [|[k0 v0] d IH]; intros Hnd Hin.
  - by apply elem_of_nil in Hin.
  - apply NoDup_cons in Hnd as [Hk0 Hnd].
    apply elem_of_cons in Hin as [[= <- <-]|Hin]; cbn [dict_get].
    + by rewrite String.eqb_refl.
    + destruct (String.eqb k0 k) eqn:Hk; [|by apply IH].
      apply String.eqb_eq in Hk. subst k0. exfalso. apply Hk0.
      apply list_elem_of_fmap. by exists (k, v).
Qed.

Lemma select_dict dom z3idx ei l (d : dict) s :
  dicts s !! l = Some d ->
  Forall (fun kv : string * value => array_over dom (snd kv)) d ->
  z3_cast dom z3idx = Some ei ->
  compound_map1 recursion_limit (fun z3val => z3_Select z3val z3idx)
    (VDict l) s
  = (Ret (VDict (length (dicts s))),
     set_dicts
       (dicts s
        ++ [map (fun kv : string * value => (fst kv, select_at ei (snd kv)))
              d]) s).
Proof.
  intros Hl Harr Hcast.
  rewrite recursion_limit_S, compound_map1_dict.
  rewrite (bind_Ret _ _ s d s) by (unfold read_dict; by rewrite Hl).
  erewrite bind_Ret; [reflexivity|].
  apply mapM_const_state. intros [k v] Hin.
  rewrite Forall_forall in Harr.
  destruct (Harr _ Hin) as (a & rng & Hv & Hsort). cbn [fst snd] in *.
  subst v. rewrite (compound_map1_Z3 998).
  unfold z3_Select. by rewrite Hsort, Hcast.
Qed.

Lemma store_dict dom rng a name z3idx uval ei ev l n (d : dict) s :
  dicts s !! l = Some d ->
  dicts s !! n
  = Some (dict_set
            (map (fun kv : string * value => (fst kv, select_at ei (snd kv)))
               d) name uval) ->
  NoDup d.*1 ->
  Forall (fun kv : string * value => array_over dom (snd kv)) d ->
  dict_get d name = Some (VZ3 a) ->
  sort_of a = ArraySort dom rng ->
  z3_cast dom z3idx = Some ei ->
  z3_cast rng uval = Some ev ->
  compound_mapN recursion_limit
    (fun z3map z3val => z3_Store z3map z3idx z3val) (VDict l) (VDict n) s
  = (Ret (VDict (length (dicts s))),
     set_dicts (dicts s ++ [map (store_at name ei ev) d]) s).
Proof.
  intros Hl Hn Hnd Harr Hname Hsort Hci Hcv.
  rewrite recursion_limit_S, compound_mapN_dict.
  rewrite (bind_Ret _ _ s d s) by (unfold read_dict; by rewrite Hl).
  erewrite bind_Ret; [reflexivity|].
  apply mapM_const_state. intros [k v] Hin.
  rewrite Forall_forall in Harr.
  destruct (Harr _ Hin) as (ak & rk & Hv & Hsk). cbn [fst snd] in *.
  subst v.
  pose proof (dict_get_NoDup d k (VZ3 ak) Hnd Hin) as Hk.
  rewrite (bind_Ret _ _ s (VZ3 ak) s) by (by apply (getitem_dict l d)).
  unfold store_at. cbn [fst snd].
  destruct (String.eqb k name) eqn:Hkn.
  - apply String.eqb_eq in Hkn. subst k.
    assert (ak = a) by congruence. subst ak.
    assert (rk = rng) by congruence. subst rk.
    rewrite (bind_Ret _ _ s uval s)
      by (eapply getitem_dict; [exact Hn | apply dict_get_set_eq]).
    rewrite (compound_mapN_Z3 998).
    unfold z3_Store. rewrite Hsort, Hci, Hcv. reflexivity.
  - assert (Hne : name <> k).
    { intros ->. by rewrite String.eqb_refl in Hkn. }
    rewrite (bind_Ret _ _ s (VZ3 (Select ak ei)) s).
    2:{ eapply getitem_dict; [exact Hn|].
        rewrite (dict_get_set_ne _ _ _ _ Hne), dict_get_map.
        by rewrite Hk. }
    rewrite (compound_mapN_Z3 998).
    unfold z3_Store. rewrite Hsk, Hci.
    cbn [z3_cast sort_of]. rewrite Hsk, sort_eqb_refl. reflexivity.
Qed.

Lemma setattr_through_map c vt i l (d : dict) dom rng a name idx val ei ev s :
  in_fields vt name = true ->
  is_lvalue idx = false ->
  is_lvalue val = false ->
  cells s !! i = Some (VDict l) ->
  dicts s !! l = Some d ->
  NoDup d.*1 ->
  Forall (fun kv : string * value => array_over dom (snd kv)) d ->
  dict_get d name = Some (VZ3 a) ->
  sort_of a = ArraySort dom rng ->
  z3_cast dom (unwrapped idx) = Some ei ->
  z3_cast rng (unwrapped val) = Some ev ->
  let m := Lval c (HCell i) None in
  let elem := Lval vt (HIndex m idx (unwrapped idx)) None in
  let read : dict :=
    map (fun kv : string * value => (fst kv, select_at ei (snd kv))) d in
  SStructBase_setattr elem name val s
  = (Ret tt,
     set_cells (<[i := VDict (S (length (dicts s)))]> (cells s))
       (set_dicts
          (dicts s ++ [dict_set read name (unwrapped val);
                       map (store_at name ei ev) d]) s)).
Proof.
  intros Hin Hidx Hval Hcell Hdict Hnd Harr Hname Hsort Hci Hcv
    m elem read.
  set (n := length (dicts s)).
  set (s1 := set_dicts (dicts s ++ [read]) s).
  set (s2 := set_dicts (dicts s ++ [dict_set read name (unwrapped val)]) s).
  set (s3 := set_dicts
               (dicts s ++ [dict_set read name (unwrapped val);
                            map (store_at name ei ev) d]) s).
  unfold SStructBase_setattr, SStructBase_setattr_body.
  cbn [lval_cls lval_handle elem]. rewrite Hin.
  (* the element is read into a new dictionary *)
  rewrite (bind_Ret _ _ s (VDict n) s1).
  2:{ cbn [_getter m].
      rewrite (bind_Ret _ _ s (VDict l) s)
        by (unfold read_cell; by rewrite Hcell).
      by apply (select_dict dom). }
  rewrite (bind_Ret _ _ _ _ _ (unwrap_plain val s1 Hval)).
  (* the field is set in it *)
  assert (Hn1 : dicts s1 !! n = Some read).
  { unfold s1, n. cbn [dicts set_dicts].
    by rewrite lookup_app_r, Nat.sub_diag by constructor. }
  rewrite (bind_Ret _ _ s1 tt s2).
  2:{ unfold setitem.
      rewrite (bind_Ret _ _ s1 read s1)
        by (unfold read_dict; by rewrite Hn1).
      unfold modify. f_equal. apply State_eq; try reflexivity.
      unfold s1, s2, n. cbn [dicts set_dicts].
      rewrite insert_app_r_alt by constructor.
      by rewrite Nat.sub_diag. }
  (* and the dictionary is stored into the map *)
  cbn [_setter m]. unfold SMapBase_setitem_body.
  rewrite (bind_Ret _ _ _ _ _ (unwrap_plain idx s2 Hidx)).
  cbn [_getter].
  assert (Hcell2 : cells s2 !! i = Some (VDict l)) by exact Hcell.
  rewrite (bind_Ret _ _ s2 (VDict l) s2)
    by (unfold read_cell; by rewrite Hcell2).
  rewrite (bind_Ret _ _ s2 (VDict n) s2) by reflexivity.
  assert (Hl2 : dicts s2 !! l = Some d).
  { unfold s2. cbn [dicts set_dicts]. by apply lookup_app_l_Some. }
  assert (Hn2 : dicts s2 !! n
                = Some (dict_set read name (unwrapped val))).
  { unfold s2, n. cbn [dicts set_dicts].
    by rewrite lookup_app_r, Nat.sub_diag by constructor. }
  rewrite (bind_Ret _ _ s2 (VDict (S n)) s3).
  2:{ rewrite (store_dict dom rng a name (unwrapped idx) (unwrapped val)
                 ei ev l n d s2 Hl2 Hn2 Hnd Harr Hname Hsort Hci Hcv).
      f_equal.
      - unfold s2, n. cbn [dicts set_dicts]. rewrite length_app.
        cbn [length]. do 2 f_equal. apply Nat.add_1_r.
      - apply State_eq; try reflexivity.
        unfold s2, s3. cbn [dicts set_dicts].
        by rewrite <- app_assoc. }
  reflexivity.
Qed.

Lemma struct_class_of_field vt name :
  in_fields vt name = true ->
  is_SymbolicConst vt = false /\ is_SStructBase vt = true.
Proof.
  unfold in_fields, fields_of, is_SymbolicConst, is_SStructBase.
  by destruct (base_class vt).
Qed.

Lemma field_type_in_fields vt name (t : cls) :
  field_type vt name = Some t -> in_fields vt name = true.
Proof.
  unfold field_type. destruct (fields_of vt) as [fs|] eqn:Hfs; [|done].
  intros Hget. by apply (table_get_in_fields vt fs name t).
Qed.

Lemma dict_get_store_at name ei ev (d : dict) k :
  dict_get (map (store_at name ei ev) d) k
  = (fun v => snd (store_at name ei ev (k, v))) <$> dict_get d k.
Proof.
  induction d as [|[k0 v0] d IH]; [reflexivity|].
  cbn [map dict_get store_at fst snd].
  destruct (String.eqb k0 k) eqn:Hk; [|exact IH].
  apply String.eqb_eq in Hk. by subst k0.
Qed.

Lemma store_at_arrays dom name ei ev (d : dict) :
  Forall (fun kv : string * value => array_over dom (snd kv)) d ->
  Forall (fun kv : string * value => array_over dom (snd kv))
    (map (store_at name ei ev) d).
Proof.
  intros H. apply Forall_map. eapply Forall_impl; [exact H|].
  intros [k v] (a & rng & Hv & Hs). cbn [snd] in Hv. subst v.
  unfold store_at. cbn [fst snd].
  eexists _, rng. split; [reflexivity|]. exact Hs.
Qed.

Lemma getattr_through_map c vt i l (d : dict) dom a name t idx ei s :
  field_type vt name = Some t ->
  is_SymbolicConst t = true ->
  cells s !! i = Some (VDict l) ->
  dicts s !! l = Some d ->
  Forall (fun kv : string * value => array_over dom (snd kv)) d ->
  dict_get d name = Some (VZ3 a) ->
  z3_cast dom (unwrapped idx) = Some ei ->
  let elem := Lval vt (HIndex (Lval c (HCell i) None) idx (unwrapped idx))
                None in
  let read : dict :=
    map (fun kv : string * value => (fst kv, select_at ei (snd kv))) d in
  SStructBase_getattr elem name s
  = _wrap t (VZ3 (Select a ei)) None (set_dicts (dicts s ++ [read]) s).
Proof.
  intros Hft Hconst Hcell Hdict Harr Hname Hci elem read.
  unfold SStructBase_getattr. cbn [lval_cls lval_model elem]. rewrite Hft.
  unfold _wrap_lvalue. rewrite Hconst.
  set (s1 := set_dicts (dicts s ++ [read]) s).
  rewrite (bind_Ret _ _ s (VZ3 (Select a ei)) s1); [reflexivity|].
  unfold elem. cbn [_getter].
  rewrite (bind_Ret _ _ s (VDict (length (dicts s))) s1).
  2:{ rewrite (bind_Ret _ _ s (VDict l) s)
        by (unfold read_cell; by rewrite Hcell).
      by apply (select_dict dom). }
  apply (getitem_dict _ read).
  - unfold s1. cbn [dicts set_dicts].
    by rewrite lookup_app_r, Nat.sub_diag by constructor.
  - unfold read. by rewrite dict_get_map, Hname.
Qed.

(** X19: writing a field of a map element, [m[idx].name = val], on a map
    of structs whose compound is a dictionary of arrays.  The element is
    an lvalue over the map; the write reads the element into a new
    dictionary of [Select] terms, sets the field there, and stores that
    dictionary back into the map, which builds a second new dictionary
    where every field's array is a [Store] at the index: of the written
    value for the field written, of the field's own former element for
    every other field.  The map's cell then points to this dictionary,
    and the map's former dictionary is left as it was. *)
Theorem X19_field_write_through_map c it vt i l (d : dict) dom rng a name
    idx val ei ev s :
  map_types c = Some (it, vt) ->
  in_fields vt name = true ->
  is_lvalue idx = false ->
  is_lvalue val = false ->
  cells s !! i = Some (VDict l) ->
  dicts s !! l = Some d ->
  NoDup d.*1 ->
  Forall (fun kv : string * value => array_over dom (snd kv)) d ->
  dict_get d name = Some (VZ3 a) ->
  sort_of a = ArraySort dom rng ->
  z3_cast dom (unwrapped idx) = Some ei ->
  z3_cast rng (unwrapped val) = Some ev ->
  let m := Lval c (HCell i) None in
  let elem := Lval vt (HIndex m idx (unwrapped idx)) None in
  let read : dict :=
    map (fun kv : string * value => (fst kv, select_at ei (snd kv))) d in
  let s' := snd (SStructBase_setattr elem name val s) in
  SMapBase_getitem m idx s = (Ret (VLval elem), s)
  /\ fst (SStructBase_setattr elem name val s) = Ret tt
  /\ dicts s' = dicts s ++ [dict_set read name (unwrapped val);
                            map (store_at name ei ev) d]
  /\ cells s' = <[i := VDict (S (length (dicts s)))]> (cells s)
  /\ dicts s' !! l = Some d.
Proof.
  intros Hmt Hin Hidx Hval Hcell Hdict Hnd Harr Hname Hsort Hci Hcv
    m elem read s'.
  subst m elem read s'.
  destruct (struct_class_of_field vt name Hin) as [Hnc Hst].
  split.
  { unfold SMapBase_getitem.
    rewrite (bind_Ret _ _ _ _ _ (unwrap_plain idx s Hidx)).
    cbn [lval_cls lval_model]. rewrite Hmt.
    unfold _wrap_lvalue. by rewrite Hnc, Hst. }
  rewrite (setattr_through_map c vt i l d dom rng a name idx val ei ev s
             Hin Hidx Hval Hcell Hdict Hnd Harr Hname Hsort Hci Hcv).
  cbn [fst snd].
  split; [reflexivity|]. split; [reflexivity|]. split; [reflexivity|].
  cbn [dicts set_cells set_dicts]. by apply lookup_app_l_Some.
Qed.

(** X20: reading a constant field of a map element, [m[idx].name], on a
    map of structs whose compound is a dictionary of arrays, gives the
    [Select] at the index of that field's array, wrapped at the field's
    type; the read itself allocates the dictionary of the element's
    [Select] terms.  After [m[idx].name = val] the field reads
    [Select (Store a idx val) idx], and another constant field with
    array [a'] reads [Select (Store a' idx (Select a' idx)) idx]: the
    terms are built as the writes were made and nothing is resolved by
    the engine. *)
Theorem X20_field_read_through_map c vt i l (d : dict) dom rng a name t
    idx val ei ev s :
  field_type vt name = Some t ->
  is_SymbolicConst t = true ->
  is_lvalue idx = false ->
  is_lvalue val = false ->
  cells s !! i = Some (VDict l) ->
  dicts s !! l = Some d ->
  NoDup d.*1 ->
  Forall (fun kv : string * value => array_over dom (snd kv)) d ->
  dict_get d name = Some (VZ3 a) ->
  sort_of a = ArraySort dom rng ->
  z3_cast dom (unwrapped idx) = Some ei ->
  z3_cast rng (unwrapped val) = Some ev ->
  let elem := Lval vt (HIndex (Lval c (HCell i) None) idx (unwrapped idx))
                None in
  let read : dict :=
    map (fun kv : string * value => (fst kv, select_at ei (snd kv))) d in
  let s' := snd (SStructBase_setattr elem name val s) in
  fst (SStructBase_getattr elem name s)
  = fst (_wrap t (VZ3 (Select a ei)) None s)
  /\ dicts (snd (SStructBase_getattr elem name s)) = dicts s ++ [read]
  /\ fst (SStructBase_getattr elem name s')
     = fst (_wrap t (VZ3 (Select (Store a ei ev) ei)) None s')
  /\ (forall name' a' t',
        name' <> name ->
        dict_get d name' = Some (VZ3 a') ->
        field_type vt name' = Some t' ->
        is_SymbolicConst t' = true ->
        fst (SStructBase_getattr elem name' s')
        = fst (_wrap t' (VZ3 (Select (Store a' ei (Select a' ei)) ei))
                 None s')).
Proof.
  intros Hft Hconst Hidx Hval Hcell Hdict Hnd Harr Hname Hsort Hci Hcv
    elem read s'.
  subst elem read s'.
  pose proof (field_type_in_fields vt name t Hft) as Hin.
  assert (Hwrap_dicts : forall t0 v st,
            is_SymbolicConst t0 = true ->
            dicts (snd (_wrap t0 v None st)) = dicts st).
  { intros t0 v st _. unfold _wrap, _wrap_with.
    destruct (ref_type_of t0) as [r|]; [|reflexivity].
    destruct v; try (destruct (pass_type_of t0) as [[]|]; reflexivity).
    cbn. destruct (isinstance_ref e r); [reflexivity|].
    by destruct (pass_type_of t0) as [[]|]. }
  split.
  { rewrite (getattr_through_map c vt i l d dom a name t idx ei s
               Hft Hconst Hcell Hdict Harr Hname Hci).
    apply wrap_None_stateless. }
  split.
  { rewrite (getattr_through_map c vt i l d dom a name t idx ei s
               Hft Hconst Hcell Hdict Harr Hname Hci).
    by rewrite Hwrap_dicts. }
  rewrite (setattr_through_map c vt i l d dom rng a name idx val ei ev s
             Hin Hidx Hval Hcell Hdict Hnd Harr Hname Hsort Hci Hcv).
  cbn [snd].
  set (d2 := map (store_at name ei ev) d).
  set (s' := set_cells _ _).
  assert (Hcell' : cells s' !! i = Some (VDict (S (length (dicts s))))).
  { unfold s'. cbn [cells set_cells set_dicts].
    apply list_lookup_insert_eq. by eapply lookup_lt_Some. }
  assert (Hdict' : dicts s' !! S (length (dicts s)) = Some d2).
  { unfold s'. cbn [dicts set_cells set_dicts].
    rewrite lookup_app_r by (repeat constructor).
    by rewrite Nat.sub_succ_l, Nat.sub_diag by constructor. }
  pose proof (store_at_arrays dom name ei ev d Harr) as Harr'.
  fold d2 in Harr'.
  split.
  - assert (Hname' : dict_get d2 name = Some (VZ3 (Store a ei ev))).
    { unfold d2. rewrite dict_get_store_at, Hname. cbn.
      by rewrite String.eqb_refl. }
    rewrite (getattr_through_map c vt i _ d2 dom _ name t idx ei s'
               Hft Hconst Hcell' Hdict' Harr' Hname' Hci).
    apply wrap_None_stateless.
  - intros name' a' t' Hne Hname' Hft' Hconst'.
    assert (Hget : dict_get d2 name'
                   = Some (VZ3 (Store a' ei (Select a' ei)))).
    { unfold d2. rewrite dict_get_store_at, Hname'. cbn.
      destruct (String.eqb name' name) eqn:Hk; [|reflexivity].
      by apply String.eqb_eq in Hk. }
    rewrite (getattr_through_map c vt i _ d2 dom _ name' t' idx ei s'
               Hft' Hconst' Hcell' Hdict' Harr' Hget Hci).
    apply wrap_None_stateless.
Qed.

(** ** Equality of compounds *)

Lemma tree_ind' (P : tree -> Prop) :
  (forall v, P (Leaf v)) ->
  (forall ts, Forall (fun kt : string * tree => P (snd kt)) ts ->
              P (Node ts)) ->
  forall t, P t.
Proof.
  intros Hleaf Hnode. fix IH 1. intros [v|ts]; [apply Hleaf|].
  apply Hnode.
  induction ts as [|[k t] ts IHts]; constructor; [apply IH | exact IHts].
Qed.

Lemma compound_mono ds new :
  forall t v, compound ds t v -> compound (ds ++ new) t v.
Proof.
  induction t as [x|ts IH] using tree_ind'; intros v Hc;
    inversion Hc as [v' Hd|l d ts' Hl Hall]; subst.
  - by constructor.
  - econstructor; [by apply lookup_app_l_Some|].
    clear Hc Hl. induction Hall as [|[k t] [k' x] ts d [Hk Hx] Hall IHall];
      constructor.
    + split; [exact Hk|]. by apply (Forall_inv IH).
    + apply IHall. by apply Forall_inv_tail in IH.
Qed.

Lemma items_mono ds new ts d :
  Forall2 (fun (kt : string * tree) (kv : string * value) =>
             fst kt = fst kv /\ compound ds (snd kt) (snd kv)) ts d ->
  Forall2 (fun (kt : string * tree) (kv : string * value) =>
             fst kt = fst kv /\ compound (ds ++ new) (snd kt) (snd kv)) ts d.
Proof.
  induction 1 as [|kt kv ts d [Hk Hx] Hall IH]; constructor; [|exact IH].
  split; [exact Hk | by apply compound_mono].
Qed.

Lemma height_items k (t : tree) ts n :
  list_max (map (fun kt : string * tree => tree_height (snd kt))
              ((k, t) :: ts)) < n ->
  tree_height t < n
  /\ list_max (map (fun kt : string * tree => tree_height (snd kt)) ts) < n.
Proof. unfold list_max. cbn [map fold_right snd]. lia. Qed.

(** [flatten_compound] gives the leaves of the compound, in order. *)
Lemma flatten_rec_tree :
  forall t v fuel res s,
    compound (dicts s) t v ->
    tree_height t < fuel ->
    flatten_rec fuel v res s = (Ret (res ++ leaves t), s).
Proof.
  induction t as [x|ts IH] using tree_ind'; intros v fuel res s Hc Hh;
    inversion Hc as [v' Hd|l d ts' Hl Hall]; subst;
    (destruct fuel as [|fuel]; [lia|]).
  - cbn [flatten_rec leaves]. by destruct v.
  - cbn [flatten_rec].
    rewrite (bind_Ret _ _ s d s) by (unfold read_dict; by rewrite Hl).
    cbn [tree_height] in Hh. apply Nat.succ_lt_mono in Hh.
    cbn [leaves]. clear Hc Hl.
    revert res IH Hh.
    induction Hall as [|[k t] [k' x] ts d [Hk Hx] Hall IHall];
      intros res IH Hh.
    + cbn. by rewrite app_nil_r.
    + destruct (height_items _ _ _ _ Hh) as [Ht Hts].
      cbn [flat_map snd].
      rewrite (bind_Ret _ _ s (res ++ leaves t) s)
        by (apply (Forall_inv IH); [exact Hx | exact Ht]).
      rewrite (IHall (res ++ leaves t) (Forall_inv_tail IH) Hts).
      by rewrite app_assoc.
Qed.

Lemma flatten_compound_tree t v s :
  compound (dicts s) t v ->
  tree_height t < recursion_limit ->
  flatten_compound v s = (Ret (leaves t), s).
Proof. intros Hc Hh. exact (flatten_rec_tree t v _ [] s Hc Hh). Qed.

(** Reading the elements at an index builds the compound of the
    [Select] terms. *)
Lemma select_tree z3idx :
  forall t0 t v fuel s,
    compound (dicts s) t0 v ->
    tree_select z3idx t0 = Some t ->
    tree_height t0 < fuel ->
    exists v' s',
      compound_map1 fuel (fun z3val => z3_Select z3val z3idx) v s
      = (Ret v', s')
      /\ compound (dicts s') t v'
      /\ cells s' = cells s
      /\ exists new, dicts s' = dicts s ++ new.
Proof.
  induction t0 as [x|ts IH] using tree_ind'; intros t v fuel s Hc Hsel Hh;
    inversion Hc as [v' Hd|l d ts' Hl Hall]; subst;
    (destruct fuel as [|fuel]; [lia|]).
  - cbn [tree_select] in Hsel. unfold select_leaf in Hsel.
    destruct v as [| | | | | |a| | |]; try discriminate.
    destruct (sort_of a) as [| | | | |dom rng] eqn:Hsort; try discriminate.
    destruct (z3_cast dom z3idx) as [ei|] eqn:Hcast; [|discriminate].
    injection Hsel as <-.
    exists (VZ3 (Select a ei)), s.
    split; [|split; [by constructor|split; [done|]]].
    + rewrite compound_map1_Z3. unfold z3_Select. by rewrite Hsort, Hcast.
    + exists []. by rewrite app_nil_r.
  - cbn [tree_select] in Hsel.
    match type of Hsel with
    | option_map Node (?g ts) = _ =>
        destruct (g ts) as [rs|] eqn:Hgo; [|discriminate]
    end.
    injection Hsel as <-.
    cbn [tree_height] in Hh. apply Nat.succ_lt_mono in Hh.
    rewrite compound_map1_dict.
    rewrite (bind_Ret _ _ s d s) by (unfold read_dict; by rewrite Hl).
    assert (Hitems : forall s1,
      Forall2 (fun (kt : string * tree) (kv : string * value) =>
                 fst kt = fst kv /\ compound (dicts s1) (snd kt) (snd kv))
        ts d ->
      exists d' s2,
        mapM (fun kv : string * value =>
                let* v0 := compound_map1 fuel
                             (fun z3val => z3_Select z3val z3idx) (snd kv) in
                ret (fst kv, v0)) d s1
        = (Ret d', s2)
        /\ Forall2 (fun (kt : string * tree) (kv : string * value) =>
                      fst kt = fst kv
                      /\ compound (dicts s2) (snd kt) (snd kv)) rs d'
        /\ cells s2 = cells s1
        /\ exists new, dicts s2 = dicts s1 ++ new).
    { clear Hc Hl Hall. revert d rs Hgo IH Hh.
      induction ts as [|[k t] ts IHts]; intros d rs Hgo IH Hh s1 Hall;
        inversion Hall as [|kt [k' x] ts' d0 [Hk Hx] Hall']; subst.
      - injection Hgo as <-. exists [], s1.
        split; [reflexivity|]. split; [constructor|]. split; [done|].
        exists []. by rewrite app_nil_r.
      - destruct (tree_select z3idx t) as [r|] eqn:Hr; [|discriminate].
        match type of Hgo with
        | match ?g with _ => _ end = _ =>
            destruct g as [rs'|] eqn:Hgo'; [|discriminate]
        end.
        injection Hgo as <-.
        destruct (height_items _ _ _ _ Hh) as [Ht Hts].
        cbn [fst snd] in Hk, Hx.
        destruct (Forall_inv IH r x fuel s1 Hx Hr Ht)
          as (v1 & s1a & Hrun1 & Hc1 & Hcells1 & new1 & Hd1).
        assert (Hall1 :
          Forall2 (fun (kt : string * tree) (kv : string * value) =>
                     fst kt = fst kv
                     /\ compound (dicts s1a) (snd kt) (snd kv)) ts d0)
          by (rewrite Hd1; by apply items_mono).
        destruct (IHts d0 rs' eq_refl (Forall_inv_tail IH) Hts s1a Hall1)
          as (d' & s2 & Hrun2 & Hall2 & Hcells2 & new2 & Hd2).
        exists ((k', v1) :: d'), s2.
        split; [|split; [|split]].
        + cbn [mapM fst snd].
          rewrite (bind_Ret _ _ s1 (k', v1) s1a)
            by (by rewrite (bind_Ret _ _ _ _ _ Hrun1)).
          by rewrite (bind_Ret _ _ _ _ _ Hrun2).
        + constructor; [|exact Hall2].
          split; [exact Hk|]. cbn [snd]. rewrite Hd2.
          by apply compound_mono.
        + congruence.
        + exists (new1 ++ new2). by rewrite Hd2, Hd1, app_assoc. }
    destruct (Hitems s Hall) as (d' & s2 & Hrun & Hall2 & Hcells & new & Hd).
    exists (VDict (length (dicts s2))), (set_dicts (dicts s2 ++ [d']) s2).
    split; [|split; [|split]].
    + by rewrite (bind_Ret _ _ _ _ _ Hrun).
    + cbn [dicts set_dicts]. econstructor.
      * by rewrite lookup_app_r, Nat.sub_diag by constructor.
      * by apply items_mono.
    + exact Hcells.
    + exists (new ++ [d']). cbn [dicts set_dicts].
      by rewrite Hd, app_assoc.
Qed.

Lemma field_lookup ds ts d name t :
  Forall2 (fun (kt : string * tree) (kv : string * value) =>
             fst kt = fst kv /\ compound ds (snd kt) (snd kv)) ts d ->
  table_get ts name = Some t ->
  exists x, dict_get d name = Some x /\ compound ds t x.
Proof.
  induction 1 as [|[k t'] [k' x] ts d [Hk Hx] Hall IH]; [discriminate|].
  cbn [fst snd] in Hk, Hx. subst k'.
  cbn [table_get dict_get].
  destruct (String.eqb k name); [|exact IH].
  intros [= <-]. by exists x.
Qed.

(** The getter of an lvalue reads the compound its handle holds; it may
    add dictionaries to the store and changes nothing else of it. *)
Lemma getter_holds s h t :
  handle_holds s h t ->
  exists v s',
    _getter h s = (Ret v, s')
    /\ compound (dicts s') t v
    /\ cells s' = cells s
    /\ exists new, dicts s' = dicts s ++ new.
Proof.
  induction 1 as [i v t Hcell Hc
                 |c hp m name ts t Hp IH Hget
                 |c hp m idx z3idx t0 t Hp IH Hsel Hh].
  - exists v, s. split; [|split; [exact Hc|split; [done|]]].
    + cbn [_getter]. unfold read_cell. by rewrite Hcell.
    + exists []. by rewrite app_nil_r.
  - destruct IH as (v0 & s' & Hrun & Hc0 & Hcells & new & Hd).
    inversion Hc0 as [|l d ts' Hl Hall]; subst.
    destruct (field_lookup _ _ _ _ _ Hall Hget) as (x & Hx & Hcx).
    exists x, s'. split; [|split; [exact Hcx|split; [exact Hcells|]]].
    + cbn [_getter]. rewrite (bind_Ret _ _ _ _ _ Hrun).
      by apply (getitem_dict l d).
    + by exists new.
  - destruct IH as (v0 & s' & Hrun & Hc0 & Hcells & new & Hd).
    destruct (select_tree z3idx t0 t v0 recursion_limit s' Hc0 Hsel Hh)
      as (v' & s'' & Hrun' & Hc' & Hcells' & new' & Hd').
    exists v', s''. split; [|split; [exact Hc'|split; [congruence|]]].
    + cbn [_getter]. by rewrite (bind_Ret _ _ _ _ _ Hrun).
    + exists (new ++ new'). by rewrite Hd', Hd, app_assoc.
Qed.

Lemma handle_holds_mono s s1 new h t :
  cells s1 = cells s ->
  dicts s1 = dicts s ++ new ->
  handle_holds s h t -> handle_holds s1 h t.
Proof.
  intros Hcells Hd.
  induction 1 as [i v t Hcell Hc
                 |c hp m name ts t Hp IH Hget
                 |c hp m idx z3idx t0 t Hp IH Hsel Hh].
  - apply (holds_cell s1 i v t); [by rewrite Hcells|].
    rewrite Hd. by apply compound_mono.
  - by apply (holds_field s1 c hp m name ts t).
  - by apply (holds_index s1 c hp m idx z3idx t0 t).
Qed.

(** The equality of two leaves, as the code computes and wraps it. *)
Lemma leaf_eq_spec af bf r s :
  leaf_equality af bf = Some r ->
  (let* r0 := leaf_eq af bf in wrap r0) s = (Ret r, s)
  /\ ((exists e, r = VSym SBool e /\ sort_of e = BoolSort)
      \/ exists b, r = VBool b).
Proof.
  assert (Hterm : forall x y st,
            (let* r0 := ret (VZ3 (Eq x y)) in wrap r0) st
            = (Ret (VSym SBool (Eq x y)), st)) by reflexivity.
  destruct af as [| |ba|na| | |x| | |], bf as [| |bb|nb| | |y| | |];
    cbn [leaf_equality]; try discriminate;
    try (intros [= <-]; split; [reflexivity | right; by eexists]);
    match goal with
    | |- option_map _ ?c = _ -> _ =>
        destruct c as [z|] eqn:Hcast; [|discriminate]
    end;
    intros [= <-];
    (split; [|left; by eexists]);
    unfold leaf_eq, z3_eq; rewrite Hcast; apply Hterm.
Qed.

Lemma pointwise_eq_spec : forall la lb eqs s,
  pointwise la lb = Some eqs ->
  pointwise_eq la lb s = (Ret eqs, s)
  /\ Forall (fun r => (exists e, r = VSym SBool e /\ sort_of e = BoolSort)
                      \/ exists b, r = VBool b) eqs.
Proof.
  unfold pointwise_eq.
  induction la as [|af la IH]; intros lb eqs s; [by intros [= <-]|].
  destruct lb as [|bf lb]; [by intros [= <-]|].
  cbn [pointwise zip zip_with mapM fst snd].
  destruct (leaf_equality af bf) as [r|] eqn:Hr; [|discriminate].
  destruct (pointwise la lb) as [rs|] eqn:Hrs; [|discriminate].
  intros [= <-].
  destruct (leaf_eq_spec af bf r s Hr) as [Hrun Hres].
  destruct (IH lb rs s Hrs) as [Hrun' Hres'].
  split; [|by constructor].
  change (zip la lb) with (zip_with pair la lb) in Hrun'.
  rewrite (bind_Ret _ _ _ _ _ Hrun).
  by rewrite (bind_Ret _ _ _ _ _ Hrun').
Qed.

Lemma symand_spec eqs s :
  Forall (fun r => (exists e, r = VSym SBool e /\ sort_of e = BoolSort)
                   \/ exists b, r = VBool b) eqs ->
  symand eqs s = (Ret (conjunction eqs), s).
Proof.
  intros Hres. unfold symand, conjunction.
  destruct (existsb is_Symbolic eqs) eqn:Hsym.
  - assert (Hun : mapM unwrap eqs s = (Ret (map unwrapped eqs), s)).
    { clear Hsym. induction Hres as [|r eqs Hr Hres IH]; [reflexivity|].
      cbn [mapM map].
      rewrite (bind_Ret _ _ s (unwrapped r) s)
        by (destruct Hr as [(e & -> & _)|(b & ->)]; reflexivity).
      by rewrite (bind_Ret _ _ _ _ _ IH). }
    assert (Hbool : mapM z3_bool (map unwrapped eqs) s
                    = (Ret (map bool_term eqs), s)).
    { clear Hsym Hun. induction Hres as [|r eqs Hr Hres IH]; [reflexivity|].
      cbn [mapM map].
      rewrite (bind_Ret _ _ s (bool_term r) s).
      - by rewrite (bind_Ret _ _ _ _ _ IH).
      - destruct Hr as [(e & -> & He)|(b & ->)]; [|reflexivity].
        cbn [unwrapped bool_term]. unfold z3_bool, z3_cast. by rewrite He. }
    rewrite (bind_Ret _ _ _ _ _ Hun).
    rewrite (bind_Ret _ _ s (VZ3 (And (map bool_term eqs))) s)
      by (unfold z3_And; by rewrite (bind_Ret _ _ _ _ _ Hbool)).
    reflexivity.
  - assert (Hall : py_all eqs s = (Ret (forallb truthy eqs), s)).
    { induction Hres as [|r eqs Hr Hres IH]; [reflexivity|].
      cbn [existsb] in Hsym. apply orb_false_iff in Hsym as [Hr' Hsym].
      destruct Hr as [(e & -> & _)|(b & ->)]; [discriminate|].
      cbn [py_all forallb truthy].
      rewrite (bind_Ret _ _ s b s) by reflexivity.
      destruct b; [by apply IH | reflexivity]. }
    by rewrite (bind_Ret _ _ _ _ _ Hall).
Qed.

Lemma symnot_conjunction eqs s :
  symnot (conjunction eqs) s = (Ret (negation (conjunction eqs)), s).
Proof.
  unfold conjunction. destruct (existsb is_Symbolic eqs); reflexivity.
Qed.


End Engine.

(** * The properties at concrete inputs *)

Lemma C4_witness :
  solver replay_state = Some new_Solver
  /\ curschedidx replay_state < length (cursched replay_state)
  /\ cursched replay_state !! curschedidx replay_state = Some (Choice true, 1)
  /\ SBool_nonzero always_sat no_reason (VSym SBool b_term) replay_state
     = (Ret true,
        set_curschedidx 2
          (set_solver (Some (add b_term new_Solver)) replay_state)).
Proof.
  split; [reflexivity|]. split; [cbv; lia|]. split; [reflexivity|].
  exact (proj1 (C4_replay_follows_schedule always_sat no_reason SBool b_term
                  replay_state new_Solver (Choice true) 1
                  eq_refl ltac:(cbv; lia) eq_refl)).
Defined.

Lemma C1_witness :
  solver root_state = Some new_Solver
  /\ length (cursched root_state) = curschedidx root_state
  /\ last (cursched root_state) = Some (NoChoice, 0)
  /\ (fst (SBool_nonzero always_sat no_reason (VSym SBool b_term) root_state)
      = Ret true
      /\ cursched
           (snd (SBool_nonzero always_sat no_reason (VSym SBool b_term)
                   root_state))
         = [(NoChoice, 0); (Choice true, 1)]
      /\ schedq
           (snd (SBool_nonzero always_sat no_reason (VSym SBool b_term)
                   root_state))
         = [[(NoChoice, 0); (Choice false, 2)]]
      /\ curschedidx
           (snd (SBool_nonzero always_sat no_reason (VSym SBool b_term)
                   root_state))
         = 2
      /\ solver
           (snd (SBool_nonzero always_sat no_reason (VSym SBool b_term)
                   root_state))
         = Some (add b_term
                   (after_direction (after_direction new_Solver b_term)
                      (Not b_term)))).
Proof.
  refine (conj eq_refl (conj eq_refl (conj eq_refl _))).
  exact (C1_extension_case_analysis always_sat no_reason SBool b_term
           root_state new_Solver NoChoice 0 eq_refl eq_refl eq_refl).
Defined.

Lemma C9_witness :
  solver root_state = Some new_Solver
  /\ length (cursched root_state) = curschedidx root_state
  /\ last (cursched root_state) = Some (NoChoice, 0)
  /\ fst (direction_answer (by_last unknown unsat) no_reason
            new_Solver b_term) = unknown
  /\ fst (direction_answer (by_last unknown unsat) no_reason
            (after_direction new_Solver b_term) (Not b_term)) = unsat
  /\ fst (SBool_nonzero (by_last unknown unsat) no_reason
            (VSym SBool b_term) root_state)
     = Raise (UncheckableConstraintError b_term "")
  /\ cursched (snd (SBool_nonzero (by_last unknown unsat) no_reason
                      (VSym SBool b_term) root_state))
     = [(NoChoice, 0); (Uncheckable b_term "", 1)]
  /\ schedq (snd (SBool_nonzero (by_last unknown unsat) no_reason
                    (VSym SBool b_term) root_state))
     = [[(NoChoice, 0); (Uncheckable (Not b_term) "", 2)]].
Proof.
  refine (conj eq_refl (conj eq_refl (conj eq_refl
            (conj eq_refl (conj eq_refl _))))).
  destruct (C9_unknown_unsat_still_forks (by_last unknown unsat) no_reason
              SBool b_term root_state new_Solver NoChoice 0
              eq_refl eq_refl eq_refl (or_introl (conj eq_refl eq_refl)))
    as (Hr & Hc & Hq & _).
  exact (conj Hr (conj Hc Hq)).
Defined.

Lemma C3_witness :
  let fn := assume_false refutes_false no_reason in
  (* [assume(False)] on the first path *)
  solver root_state = Some new_Solver
  /\ assumption_terms (VBool false) = Some (BoolVal true, BoolVal false)
  /\ fst (assume refutes_false no_reason (VBool false) root_state)
     = Raise UnsatisfiablePath
  /\ cursched (snd (assume refutes_false no_reason (VBool false)
                      root_state))
     = [(NoChoice, 0); (NoChoice, 1)]
  /\ solver_view (snd (assume refutes_false no_reason (VBool false)
                         root_state))
     = Some ([BoolVal false], [])
  (* the path is discarded and nothing is yielded *)
  /\ fst (symbolic_apply_loop 1 fn primed_state) = ([], Exhausted)
  (* an assumption the path implies already *)
  /\ fst (assume (by_last sat unsat) no_reason (VSym SBool b_term)
            root_state) = Ret tt
  /\ cursched (snd (assume (by_last sat unsat) no_reason
                      (VSym SBool b_term) root_state))
     = cursched root_state
  /\ solver_view (snd (assume (by_last sat unsat) no_reason
                         (VSym SBool b_term) root_state))
     = solver_view root_state.
Proof.
  intros fn.
  destruct (C3_assume_and_discarded_paths refutes_false no_reason
              (VBool false) (BoolVal true) (BoolVal false)
              root_state new_Solver NoChoice 0
              eq_refl eq_refl ltac:(discriminate) eq_refl
              (or_introl eq_refl))
    as ((Hc & _ & _ & Hv & Hr) & _ & Hloop).
  destruct (C3_assume_and_discarded_paths (by_last sat unsat) no_reason
              (VSym SBool b_term) (Not b_term) b_term
              root_state new_Solver NoChoice 0
              eq_refl eq_refl ltac:(discriminate) eq_refl
              (or_introl eq_refl))
    as ((Hr' & Hc' & _ & _ & Hv') & _).
  refine (conj eq_refl (conj eq_refl (conj Hr (conj Hc (conj Hv _))))).
  split; [|exact (conj Hr' (conj Hc' Hv'))].
  destruct (Hloop fn primed_state [] [(NoChoice, 0)] 0 UnsatisfiablePath
              (snd (fn (start_path [(NoChoice, 0)]
                          (set_schedq [] primed_state))))
              NoChoice 1
              eq_refl
              ltac:(vm_compute; reflexivity)
              ltac:(vm_compute; reflexivity)
              (or_introl eq_refl))
    as (st3 & Hrun & _ & Hq & _).
  rewrite Hrun. cbn [symbolic_apply_loop].
  rewrite Hq. reflexivity.
Defined.

Lemma C6_witness :
  wrappable (VStr "oops") = false
  /\ wrap (VStr "oops") initial_State
     = (Raise (TypeError "Not a bool, int, long, float, or z3.ExprRef"),
        initial_State)
  /\ exists st3,
       symbolic_apply_loop 1
         (branch_then_bad_wrap always_sat no_reason) primed_state
       = ([], Escaped
                (InSymbolicState
                   (TypeError "Not a bool, int, long, float, or z3.ExprRef")
                   (Some [b_term])),
          st3)
       /\ schedq st3 = [[(NoChoice, 0); (Choice false, 2)]].
Proof.
  destruct (C6_type_error_ends_exploration (VStr "oops") initial_State
              eq_refl) as [Hw Hloop].
  refine (conj eq_refl (conj Hw _)).
  destruct (Hloop (branch_then_bad_wrap always_sat no_reason) primed_state
              [] [(NoChoice, 0)] 0
              "Not a bool, int, long, float, or z3.ExprRef"
              (snd (run_path (branch_then_bad_wrap always_sat no_reason)
                      (start_path [(NoChoice, 0)]
                         (set_schedq [] primed_state))))
              (Choice true) 1
              (add b_term
                 (after_direction (after_direction new_Solver b_term)
                    (Not b_term)))
              eq_refl
              ltac:(vm_compute; reflexivity)
              ltac:(vm_compute; reflexivity)
              ltac:(vm_compute; reflexivity))
    as (st3 & Hrun & Hq & _).
  exists st3. split; [exact Hrun|].
  rewrite Hq. vm_compute. reflexivity.
Defined.

Lemma C5_witness :
  forallb concrete [VInt 1; VBool false; VStr "x"] = true
  /\ concrete (VInt 1) = true
  /\ concrete (VBool true) = true
  /\ concrete VNone = true
  /\ symand always_sat no_reason [VInt 1; VBool false; VStr "x"]
       initial_State
     = (Ret (VBool false), initial_State)
  /\ symor always_sat no_reason [VInt 1; VBool false; VStr "x"]
       initial_State
     = (Ret (VBool true), initial_State)
  /\ symnot always_sat no_reason VNone initial_State
     = (Ret (VBool true), initial_State)
  /\ symeq always_sat no_reason (VInt 1) (VBool true) initial_State
     = (Ret (VBool true), initial_State)
  /\ forall_ (VStr "v") VNone [] initial_State = (Ret VNone, initial_State).
Proof.
  refine (conj eq_refl (conj eq_refl (conj eq_refl (conj eq_refl _)))).
  destruct (C5_helpers_on_concrete_operands always_sat no_reason
              [VInt 1; VBool false; VStr "x"] (VInt 1) (VBool true) VNone
              (VStr "v") [] initial_State eq_refl eq_refl eq_refl eq_refl)
    as (Hand & Hor & Hnot & Heq & Hall & _).
  exact (conj Hand (conj Hor (conj Hnot (conj Heq Hall)))).
Defined.

Lemma C8_witness :
  models (set_models [const_model] initial_State) !! 0 = Some const_model
  /\ ref_type_of sort_U = Some ExprRef
  /\ isinstance_ref (z3_model const_model (Const "u" (DeclareSort "U")))
       ExprRef = true
  /\ Forall symbolic_entry (asignments const_model)
  /\ Model_eval 0 (VSym sort_U (Const "u" (DeclareSort "U")))
       (set_models [const_model] initial_State)
     = (Ret (VSym sort_U (UVal "U" 0)),
        set_models [const_model] initial_State).
Proof.
  refine (conj eq_refl (conj eq_refl (conj eq_refl
            (conj (Forall_nil_2 _) _)))).
  destruct (C8_model_eval_leaf sort_U (Const "u" (DeclareSort "U"))
              (set_models [const_model] initial_State) 0 const_model ExprRef
              eq_refl eq_refl eq_refl (Forall_nil_2 _))
    as (_ & Hexact & _).
  exact (Hexact eq_refl).
Defined.

(** * Where the code departs from the claims as stated *)

(** C5: applied to two Python booleans, [implies] returns a symbolic
    boolean over an implication term, not a Python boolean. *)
Lemma C5_counterexample :
  implies (VBool true) (VBool false) initial_State
  = (Ret (VSym SBool (Implies (BoolVal true) (BoolVal false))),
     initial_State)
  /\ forall p : bool,
       fst (implies (VBool true) (VBool false) initial_State)
       <> Ret (VBool p).
Proof.
  split; [reflexivity|]. intros p. discriminate.
Qed.

(** C6: the first path of [branch_then_bad_wrap] takes the True branch,
    puts the schedule of the False branch on the queue and raises
    TypeError in [wrap].  The exploration ends there with the annotated
    error: nothing is yielded, and the queued schedule, which would have
    returned 2, is never run. *)
Lemma C6_counterexample :
  let fn := branch_then_bad_wrap always_sat no_reason in
  let err := InSymbolicState
               (TypeError "Not a bool, int, long, float, or z3.ExprRef")
               (Some [b_term]) in
  fst (symbolic_apply 10 fn initial_State)
  = ([], Escaped err)
  /\ fst (symbolic_apply_loop 10 fn primed_state)
     = ([], Escaped err)
  /\ schedq (snd (symbolic_apply_loop 10 fn
                    primed_state))
     = [[(NoChoice, 0); (Choice false, 2)]].
Proof.
  vm_compute. repeat split.
Qed.

(** C9: with True unsat and False unknown, the schedule that is enqueued
    carries the marker of the False direction, the one that checked
    unknown; no enqueued schedule stands for the True direction, which
    was the one found unsat. *)
Lemma C9_counterexample :
  let o := by_last unsat unknown in
  let s' := snd (SBool_nonzero o no_reason (VSym SBool b_term) root_state) in
  fst (direction_answer o no_reason new_Solver b_term) = unsat
  /\ fst (direction_answer o no_reason (after_direction new_Solver b_term)
            (Not b_term)) = unknown
  /\ schedq s' = [[(NoChoice, 0); (Uncheckable (Not b_term) "", 2)]]
  /\ ~ (exists sched reason n,
          In sched (schedq s')
          /\ last sched = Some (Uncheckable b_term reason, n)).
Proof.
  intros o s'.
  assert (Hq : schedq s'
               = [[(NoChoice, 0); (Uncheckable (Not b_term) "", 2)]])
    by (vm_compute; reflexivity).
  repeat split; try reflexivity; try exact Hq.
  intros (sched & reason & n & Hin & Hlast).
  rewrite Hq in Hin. destruct Hin as [<- | []].
  discriminate.
Qed.

(** * The further properties at concrete inputs *)

Lemma X1_witness :
  solver initial_State = None
  /\ VSym SBool b_term <> VBool true
  /\ SBool_nonzero always_sat no_reason (VSym SBool b_term) initial_State
     = (Raise (RuntimeError
                 "Symbolic execution attempted outside symbolic_apply"),
        initial_State)
  /\ assume always_sat no_reason (VSym SBool b_term) initial_State
     = (Raise (RuntimeError
                 "Symbolic execution attempted outside symbolic_apply"),
        initial_State).
Proof.
  assert (Hne : VSym SBool b_term <> VBool true) by discriminate.
  refine (conj eq_refl (conj Hne _)).
  destruct (X1_no_solver_no_execution always_sat no_reason SBool b_term
              (VSym SBool b_term) initial_State eq_refl Hne)
    as (H1 & H2 & _).
  exact (conj H1 H2).
Defined.

Lemma X2_witness :
  forallb (fun kv : string * value => negb (is_lvalue (snd kv)))
    [("a", VInt 1)] = true
  /\ fst (SStructBase_var always_sat no_reason struct_P (Some "x") None
            [("a", VInt 1)] initial_State)
     = Raise (AttributeError "Unknown struct field 'a'").
Proof.
  split; [reflexivity|].
  exact (proj1 (X2_struct_var_rejects_field_values always_sat no_reason
                  struct_P (Some "x") None "a" (VInt 1) [] initial_State
                  eq_refl)).
Defined.

Lemma X3_witness :
  _z3_sort struct_P
  = Some (SortDict [("a", SortLeaf IntSort); ("b", SortLeaf BoolSort)])
  /\ has_leaf (SortDict [("a", SortLeaf IntSort); ("b", SortLeaf BoolSort)])
     = true
  /\ fst (SStructBase_var always_sat no_reason struct_P None None []
            initial_State)
     = Raise (ValueError "Name required for partially symbolic struct").
Proof.
  refine (conj eq_refl (conj eq_refl _)).
  exact (X3_anonymous_struct_var always_sat no_reason struct_P None
           (SortDict [("a", SortLeaf IntSort); ("b", SortLeaf BoolSort)])
           initial_State eq_refl eq_refl).
Defined.

Lemma X4_witness :
  schedq primed_state <> []
  /\ fst (symbolic_apply 1 (ret (VInt 0)) primed_state)
     = ([], Escaped (Exception "Recursive symbolic_apply?")).
Proof.
  assert (Hq : schedq primed_state <> []) by discriminate.
  split; [exact Hq|].
  exact (proj1 (X4_recursive_symbolic_apply 1 (ret (VInt 0)) primed_state
                  Hq)).
Defined.

Lemma X5_witness :
  schedq initial_State = []
  /\ solver initial_State = None
  /\ schedq (snd (symbolic_apply 1 (ret (VInt 0)) initial_State)) = []
  /\ solver (snd (symbolic_apply 1 (ret (VInt 0)) initial_State)) = None.
Proof.
  refine (conj eq_refl (conj eq_refl _)).
  destruct (X5_symbolic_apply_unwinds 1 (ret (VInt 0)) initial_State
              eq_refl eq_refl) as (Hq & _ & Hs).
  exact (conj Hq Hs).
Defined.

Lemma X6_witness :
  solver root_state = Some new_Solver
  /\ last (cursched root_state) = Some (NoChoice, 0)
  /\ curschedidx root_state <= length (cursched root_state)
  /\ (let s' := snd (SBool_nonzero always_sat no_reason (VSym SBool b_term)
                       root_state) in
      curschedidx s' <= length (cursched s')).
Proof.
  assert (Hle : curschedidx root_state <= length (cursched root_state))
    by (cbv; lia).
  refine (conj eq_refl (conj eq_refl (conj Hle _))).
  destruct (X6_observation_extends_schedule always_sat no_reason SBool
              b_term root_state new_Solver NoChoice 0 eq_refl eq_refl Hle)
    as (_ & _ & Hidx & _).
  exact Hidx.
Defined.

Lemma X7_witness :
  let st := set_curgraph one_node_graph initial_State in
  let fn : M value := ret (VInt 7) in
  fn (start_path [(NoChoice, 0)] st) = (Ret (VInt 7), root_state)
  /\ last (cursched root_state) = Some (NoChoice, 0)
  /\ solver root_state = Some new_Solver
  /\ Forall (fun e => sort_of e = BoolSort) (assertions new_Solver)
  /\ loop_iteration fn [(NoChoice, 0)] st
     = (Some (mkSymbolicApplyResult (VInt 7) []
                [("__dummy", CtorVar SInt)] []), None,
        set_solver None
          (set_curgraph (returned_graph (curgraph root_state) 0 (VInt 7))
             root_state)).
Proof.
  intros st fn.
  refine (conj eq_refl (conj eq_refl (conj eq_refl
            (conj (Forall_nil_2 _) _)))).
  exact (X7_returning_path_yields_its_condition fn [(NoChoice, 0)] st
           (VInt 7) root_state NoChoice 0 new_Solver
           eq_refl eq_refl eq_refl (Forall_nil_2 _)).
Defined.

Lemma X8_witness :
  let res := fst (symbolic_apply 2
                    (branch_on always_sat no_reason b_term (VInt 1) (VInt 2))
                    initial_State) in
  sort_of b_term = BoolSort
  /\ schedq initial_State = []
  /\ snd res = Exhausted
  /\ map sar_value (fst res) = [VInt 1; VInt 2]
  /\ map path_condition_list (fst res)
     = [[VSym SBool b_term]; [VSym SBool (Not b_term)]].
Proof.
  intros res.
  refine (conj eq_refl (conj eq_refl _)).
  exact (X8_two_feasible_directions always_sat no_reason b_term
           (VInt 1) (VInt 2) initial_State 2
           eq_refl eq_refl eq_refl eq_refl ltac:(lia)).
Defined.

Lemma X9_witness :
  sort_of b_term = BoolSort
  /\ schedq initial_State = []
  /\ snd (fst (symbolic_apply 1
                 (assume_then always_sat no_reason b_term (VInt 1))
                 initial_State))
     = Exhausted.
Proof.
  refine (conj eq_refl (conj eq_refl _)).
  exact (proj1 (X9_assume_then_return always_sat no_reason b_term (VInt 1)
                  initial_State 1 eq_refl eq_refl ltac:(lia))).
Defined.

Lemma X10_witness :
  let s := two_structs always_sat no_reason in
  let x := Lval struct_P (HCell 0) None in
  cells s !! 0 = Some (VDict 0)
  /\ dicts s !! 0
     = Some [("a", VZ3 (Const "x.a" IntSort));
             ("b", VZ3 (Const "x.b" BoolSort))]
  /\ fst (SStructBase_setattr x "a" (VInt 5) s) = Ret tt
  /\ SStructBase_getattr x "a" (snd (SStructBase_setattr x "a" (VInt 5) s))
     = _wrap SInt (VInt 5) None (snd (SStructBase_setattr x "a" (VInt 5) s)).
Proof.
  intros s x.
  assert (Hc : cells s !! 0 = Some (VDict 0)) by (vm_compute; reflexivity).
  assert (Hd : dicts s !! 0
               = Some [("a", VZ3 (Const "x.a" IntSort));
                       ("b", VZ3 (Const "x.b" BoolSort))])
    by (vm_compute; reflexivity).
  refine (conj Hc (conj Hd _)).
  destruct (X10_struct_field_write_then_read struct_P
              [("a", SInt); ("b", SBool)] 0 0 _ "a" SInt (VInt 5) s
              eq_refl eq_refl eq_refl eq_refl Hc Hd)
    as (Hw & Hr & _).
  exact (conj Hw Hr).
Defined.

Lemma X12_witness :
  let s := one_map always_sat no_reason in
  let m := Lval int_map (HCell 0) None in
  let a := Const "m" (ArraySort IntSort IntSort) in
  cells s !! 0 = Some (VZ3 a)
  /\ z3_cast IntSort (unwrapped (VInt 1)) = Some (IntVal 1)
  /\ z3_cast IntSort (unwrapped (VInt 5)) = Some (IntVal 5)
  /\ SMapBase_setitem m (VInt 1) (VInt 5) s
     = (Ret tt,
        set_cells (<[0 := VZ3 (Store a (IntVal 1) (IntVal 5))]> (cells s)) s).
Proof.
  intros s m a.
  assert (Hc : cells s !! 0 = Some (VZ3 a)) by (vm_compute; reflexivity).
  refine (conj Hc (conj eq_refl (conj eq_refl _))).
  destruct (X12_map_write_then_read int_map SInt SInt 0 a IntSort IntSort
              (VInt 1) (VInt 5) (IntVal 1) (IntVal 5) s
              eq_refl eq_refl eq_refl eq_refl Hc eq_refl eq_refl eq_refl)
    as (_ & Hw & _).
  exact Hw.
Defined.

Lemma X13_witness :
  let s := set_models [tracking_model] initial_State in
  let u := Const "u" (DeclareSort "U") in
  let s1 := snd (Model_eval 0 (VSym sort_U u) s) in
  models s !! 0 = Some tracking_model
  /\ track tracking_model = true
  /\ evaluates (z3_model tracking_model u) = true
  /\ snd (Model_eval 0 (VSym sort_U u) s1) = s1.
Proof.
  intros s u s1.
  refine (conj eq_refl (conj eq_refl (conj eq_refl _))).
  destruct (X13_tracking_suppresses_duplicates sort_U u s 0 tracking_model
              ExprRef eq_refl eq_refl eq_refl eq_refl (Forall_nil_2 _)
              eq_refl)
    as (_ & Hsame & _).
  exact Hsame.
Defined.



Lemma X16_witness :
  wrappable (VInt 3) = true
  /\ exists w,
       wrap (VInt 3) initial_State = (Ret w, initial_State)
       /\ unwrap w initial_State = (Ret (VInt 3), initial_State).
Proof.
  split; [reflexivity|].
  destruct (X16_wrap_unwrap_round_trip (VInt 3) initial_State eq_refl)
    as (w & Hw & Hu & _).
  exists w. exact (conj Hw Hu).
Defined.


Lemma X18_witness :
  table_get (sar_const_types typed_result) "y.f.a"
  = Some (struct_T, ["f"; "a"])
  /\ _z3_sort struct_T
     = Some (SortDict [("f", SortDict [("a", SortLeaf IntSort)])])
  /\ cls_height struct_T < recursion_limit
  /\ exists t,
       symbolic_type typed_result "y.f.a" = Ret t
       /\ pseudo_sort t = Some IntSort.
Proof.
  assert (Hh : cls_height struct_T < recursion_limit) by (vm_compute; lia).
  refine (conj eq_refl (conj eq_refl (conj Hh _))).
  exact (X18_symbolic_type_resolves typed_result "y.f.a" struct_T
           ["f"; "a"] (SortDict [("f", SortDict [("a", SortLeaf IntSort)])])
           IntSort eq_refl eq_refl eq_refl Hh).
Defined.

Lemma X19_witness :
  let s := struct_map always_sat no_reason in
  let arr := Const "m.a" (ArraySort IntSort IntSort) in
  let m := Lval map_M (HCell 0) None in
  let elem := Lval struct_S (HIndex m (VInt 1) (VInt 1)) None in
  cells s !! 0 = Some (VDict 0)
  /\ dicts s !! 0 = Some [("a", VZ3 arr)]
  /\ SMapBase_getitem m (VInt 1) s = (Ret (VLval elem), s)
  /\ fst (SStructBase_setattr elem "a" (VInt 5) s) = Ret tt
  /\ dicts (snd (SStructBase_setattr elem "a" (VInt 5) s))
     = dicts s ++ [[("a", VInt 5)];
                   [("a", VZ3 (Store arr (IntVal 1) (IntVal 5)))]].
Proof.
  intros s arr m elem.
  assert (Hc : cells s !! 0 = Some (VDict 0)) by (vm_compute; reflexivity).
  assert (Hd : dicts s !! 0 = Some [("a", VZ3 arr)])
    by (vm_compute; reflexivity).
  assert (Harr : Forall (fun kv : string * value =>
                           array_over IntSort (snd kv)) [("a", VZ3 arr)]).
  { constructor; [|constructor]. exists arr, IntSort. by split. }
  refine (conj Hc (conj Hd _)).
  destruct (X19_field_write_through_map map_M SInt struct_S 0 0
              [("a", VZ3 arr)] IntSort IntSort arr "a" (VInt 1) (VInt 5)
              (IntVal 1) (IntVal 5) s
              eq_refl ltac:(vm_compute; reflexivity) eq_refl eq_refl Hc Hd
              (NoDup_singleton _) Harr eq_refl eq_refl eq_refl eq_refl)
    as (Hget & Hret & Hdicts & _).
  exact (conj Hget (conj Hret Hdicts)).
Defined.

Lemma X20_witness :
  let s := struct_map always_sat no_reason in
  let arr := Const "m.a" (ArraySort IntSort IntSort) in
  let m := Lval map_M (HCell 0) None in
  let elem := Lval struct_S (HIndex m (VInt 1) (VInt 1)) None in
  let s' := snd (SStructBase_setattr elem "a" (VInt 5) s) in
  field_type struct_S "a" = Some SInt
  /\ fst (SStructBase_getattr elem "a" s)
     = Ret (VSym SInt (Select arr (IntVal 1)))
  /\ fst (SStructBase_getattr elem "a" s')
     = Ret (VSym SInt
              (Select (Store arr (IntVal 1) (IntVal 5)) (IntVal 1))).
Proof.
  intros s arr m elem s'.
  assert (Hc : cells s !! 0 = Some (VDict 0)) by (vm_compute; reflexivity).
  assert (Hd : dicts s !! 0 = Some [("a", VZ3 arr)])
    by (vm_compute; reflexivity).
  assert (Harr : Forall (fun kv : string * value =>
                           array_over IntSort (snd kv)) [("a", VZ3 arr)]).
  { constructor; [|constructor]. exists arr, IntSort. by split. }
  split; [reflexivity|].
  destruct (X20_field_read_through_map map_M struct_S 0 0
              [("a", VZ3 arr)] IntSort IntSort arr "a" SInt (VInt 1)
              (VInt 5) (IntVal 1) (IntVal 5) s
              eq_refl eq_refl eq_refl eq_refl Hc Hd
              (NoDup_singleton _) Harr eq_refl eq_refl eq_refl eq_refl)
    as (Hbefore & _ & Hafter & _).
  exact (conj Hbefore Hafter).
Defined.

Lemma X11_witness :
  let s := map_holder always_sat no_reason in
  let wm := Lval int_map (HField (Lval struct_W (HCell 0) None) "m") None in
  let arr := Const "w.m" (ArraySort IntSort IntSort) in
  let s' := snd (SMapBase_setitem wm (VInt 1) (VInt 5) s) in
  cells s !! 0 = Some (VDict 0)
  /\ dicts s !! 0 = Some [("m", VZ3 arr)]
  /\ in_fields struct_W "m" = true
  /\ fst (SMapBase_setitem wm (VInt 1) (VInt 5) s) = Ret tt
  /\ cells s' = cells s
  /\ exists nval,
       dicts s' !! 0 = Some (dict_set [("m", VZ3 arr)] "m" nval)
       /\ ((exists n, nval = VDict n /\ length (dicts s) <= n)
           \/ exists e, nval = VZ3 e).
Proof.
  intros s wm arr s'.
  assert (Hc : cells s !! 0 = Some (VDict 0)) by (vm_compute; reflexivity).
  assert (Hd : dicts s !! 0 = Some [("m", VZ3 arr)])
    by (vm_compute; reflexivity).
  assert (Hin : in_fields struct_W "m" = true) by (vm_compute; reflexivity).
  assert (Hr : fst (SMapBase_setitem wm (VInt 1) (VInt 5) s) = Ret tt)
    by (vm_compute; reflexivity).
  refine (conj Hc (conj Hd (conj Hin (conj Hr _)))).
  destruct (X11_map_write_builds_new_compound int_map struct_W 0 0
              [("m", VZ3 arr)] "m" (VInt 1) (VInt 5) s) as [_ Hfield].
  destruct (Hfield Hc Hd Hin) as (Hcells & _ & _ & Hres).
  fold wm in Hres. rewrite Hr in Hres.
  exact (conj Hcells Hres).
Defined.

